(** * YouTube Search Plus: the text-filter query language

    A shallow embedding of [src/filters.ts]: the filter catalog, the query
    string builder, the query string parser, the operator stripper, the CSV
    escaper and the preview line builder, together with the part of the
    JavaScript string and regular expression semantics these functions use.

    JavaScript strings are sequences of UTF-16 code units, and none of the
    regular expressions of the module carries the [u] flag, so a string is a
    list of code units here. *)

From Stdlib Require Import String Ascii.
From Stdlib Require Import List NArith Bool Arith Lia Sorted ListSet.
Import ListNotations.

Set Implicit Arguments.

(** ** Strings *)

Definition char := N.
Definition str := list char.

(** An ASCII literal of the source as a list of code units. *)
Definition lit (s : string) : str := map N_of_ascii (list_ascii_of_string s).

Definition ch_eqb (a b : char) : bool := N.eqb a b.

Fixpoint str_eqb (a b : str) : bool :=
  match a, b with
  | [], [] => true
  | x :: a', y :: b' => ch_eqb x y && str_eqb a' b'
  | _, _ => false
  end.

(** The characters matched by [\s], which are also the ones [trim] removes:
    WhiteSpace and LineTerminator of ECMAScript. *)
Definition is_space (c : char) : bool :=
  ((9 <=? c) && (c <=? 13) || (c =? 32) || (c =? 160) || (c =? 5760)
   || (8192 <=? c) && (c <=? 8202) || (c =? 8232) || (c =? 8233)
   || (c =? 8239) || (c =? 8287) || (c =? 12288) || (c =? 65279))%N.

(** [\S] *)
Definition not_space (c : char) : bool := negb (is_space c).

Definition c_quote : char := 34%N.   (* the double quote *)
Definition c_hash  : char := 35%N.   (* # *)
Definition c_comma : char := 44%N.   (* , *)
Definition c_dash  : char := 45%N.   (* - *)
Definition c_sp    : char := 32%N.   (* the space *)
Definition c_lf    : char := 10%N.   (* \n *)
Definition c_cr    : char := 13%N.   (* \r *)

(** The class of every character but the double quote. *)
Definition not_quote (c : char) : bool := negb (ch_eqb c c_quote).

Fixpoint take_while (p : char -> bool) (s : str) : str :=
  match s with
  | c :: s' => if p c then c :: take_while p s' else []
  | [] => []
  end.

Fixpoint drop_while (p : char -> bool) (s : str) : str :=
  match s with
  | c :: s' => if p c then drop_while p s' else s
  | [] => []
  end.

(** [String.prototype.trim] *)
Definition trimStart (s : str) : str := drop_while is_space s.
Definition trimEnd (s : str) : str := rev (drop_while is_space (rev s)).
Definition trim (s : str) : str := trimEnd (trimStart s).

(** [strip_prefix l s] is what follows [l] in [s] when [s] starts with [l]. *)
Fixpoint strip_prefix (l s : str) : option str :=
  match l, s with
  | [], _ => Some s
  | a :: l', b :: s' => if ch_eqb a b then strip_prefix l' s' else None
  | _ :: _, [] => None
  end.

Definition starts_with (l s : str) : bool :=
  match strip_prefix l s with Some _ => true | None => false end.

(** [String.prototype.includes] *)
Fixpoint includes (s sub : str) : bool :=
  starts_with sub s ||
  match s with
  | [] => false
  | _ :: s' => includes s' sub
  end.

(** [Array.prototype.join] *)
Fixpoint join (sep : str) (l : list str) : str :=
  match l with
  | [] => []
  | x :: l' =>
      match l' with
      | [] => x
      | _ :: _ => x ++ sep ++ join sep l'
      end
  end.

(** A string is falsy exactly when it is empty. *)
Definition truthy (s : str) : bool :=
  match s with [] => false | _ :: _ => true end.

(** ** Regular expressions

    The fragment of the regular expression language that the module uses:
    literals, one character of a class, the greedy [+] of a class, [^],
    alternation, sequence and the capture group.  The matcher is the
    backtracking matcher of ECMAScript, in continuation-passing style: the
    continuation is the rest of the pattern, and a failure of the continuation
    makes the matcher try its next choice. *)

Inductive re : Type :=
| Lit (l : str)
| Cls (p : char -> bool)
| Plus (p : char -> bool)
| Bol
| Alt (a b : re)
| Seq (a b : re)
| Grp (a : re).

(** A match result: the index where the match ends and the captures. *)
Definition mres : Type := (nat * list str)%type.
Definition cont : Type := nat -> str -> list str -> option mres.

(** After one character of the class, [more] takes as many more as it can and
    gives them back one by one while the continuation fails. *)
Fixpoint more (p : char -> bool) (i : nat) (s : str) (caps : list str)
  (k : cont) : option mres :=
  match s with
  | c :: s' =>
      if p c then
        match more p (S i) s' caps k with
        | Some r => Some r
        | None => k i s caps
        end
      else k i s caps
  | [] => k i s caps
  end.

(** [run r i s caps k]: match [r] at index [i] of the input, [s] being the
    input from index [i] on. *)
Fixpoint run (r : re) (i : nat) (s : str) (caps : list str) (k : cont)
  : option mres :=
  match r with
  | Lit l =>
      match strip_prefix l s with
      | Some s' => k (i + length l) s' caps
      | None => None
      end
  | Cls p =>
      match s with
      | c :: s' => if p c then k (S i) s' caps else None
      | [] => None
      end
  | Plus p =>
      match s with
      | c :: s' => if p c then more p (S i) s' caps k else None
      | [] => None
      end
  | Bol => if Nat.eqb i 0 then k i s caps else None
  | Alt a b =>
      match run a i s caps k with
      | Some x => Some x
      | None => run b i s caps k
      end
  | Seq a b => run a i s caps (fun i' s' caps' => run b i' s' caps' k)
  | Grp a =>
      run a i s caps (fun i' s' caps' => k i' s' (caps' ++ [firstn (i' - i) s]))
  end.

(** The length of the match of [r] that starts at index [i], and its
    captures. *)
Definition exec_at (r : re) (i : nat) (s : str) : option mres :=
  run r i s [] (fun e _ caps => Some (e - i, caps)).

(** [s.match(r)] for [r] without the [g] flag: the leftmost match, as the
    array of the matched text followed by the captures. *)
Fixpoint search (r : re) (i : nat) (s : str) : option (list str) :=
  match exec_at r i s with
  | Some (n, caps) => Some (firstn n s :: caps)
  | None =>
      match s with
      | [] => None
      | _ :: s' => search r (S i) s'
      end
  end.

Definition js_match (r : re) (s : str) : option (list str) := search r 0 s.

(** The matches of [r] with the [g] flag, from left to right: after a match
    the search goes on where the match ended ([skip] counts the characters
    of the last match still to pass), and one character further after an
    empty match. *)
Fixpoint matches_from (r : re) (i skip : nat) (s : str) : list str :=
  match skip with
  | S k =>
      match s with
      | [] => []
      | _ :: s' => matches_from r (S i) k s'
      end
  | O =>
      match exec_at r i s with
      | Some (n, _) =>
          firstn n s ::
          match s with
          | [] => []
          | _ :: s' => matches_from r (S i) (n - 1) s'
          end
      | None =>
          match s with
          | [] => []
          | _ :: s' => matches_from r (S i) 0 s'
          end
      end
  end.

(** [s.match(r)] for [r] with the [g] flag: [null] when nothing matches. *)
Definition js_match_all (r : re) (s : str) : option (list str) :=
  match matches_from r 0 0 s with
  | [] => None
  | m :: ms => Some (m :: ms)
  end.

(** [s.replace(r, rep)] for [r] with the [g] flag and [rep] without [$]. *)
Fixpoint replace_from (r : re) (rep : str) (i skip : nat) (s : str) : str :=
  match skip with
  | S k =>
      match s with
      | [] => []
      | _ :: s' => replace_from r rep (S i) k s'
      end
  | O =>
      match exec_at r i s with
      | Some (n, _) =>
          rep ++
          match s with
          | [] => []
          | c :: s' =>
              match n with
              | O => c :: replace_from r rep (S i) 0 s'
              | S m => replace_from r rep (S i) m s'
              end
          end
      | None =>
          match s with
          | [] => []
          | c :: s' => c :: replace_from r rep (S i) 0 s'
          end
      end
  end.

Definition js_replace_all (r : re) (rep : str) (s : str) : str :=
  replace_from r rep 0 0 s.

(** [s.replace(r, rep)] for [r] without the [g] flag: the leftmost match. *)
Fixpoint replace_first_from (r : re) (rep : str) (i : nat) (s : str) : str :=
  match exec_at r i s with
  | Some (n, _) => rep ++ skipn n s
  | None =>
      match s with
      | [] => []
      | c :: s' => c :: replace_first_from r rep (S i) s'
      end
  end.

Definition js_replace (r : re) (rep : str) (s : str) : str :=
  replace_first_from r rep 0 s.

(** [s.split(r)]: [cur] is the piece being read.  A separator is looked for
    at every index before the end of the string; an empty match splits only
    when the current piece is not empty. *)
Fixpoint split_from (r : re) (i skip : nat) (cur : str) (s : str) : list str :=
  match s with
  | [] => [cur]
  | c :: s' =>
      match skip with
      | S k => split_from r (S i) k cur s'
      | O =>
          match exec_at r i s with
          | Some (S m, _) => cur :: split_from r (S i) m [] s'
          | Some (O, _) =>
              match cur with
              | [] => split_from r (S i) 0 [c] s'
              | _ :: _ => cur :: split_from r (S i) 0 [c] s'
              end
          | None => split_from r (S i) 0 (cur ++ [c]) s'
          end
      end
  end.

Definition js_split (r : re) (s : str) : list str :=
  match s with
  | [] => match exec_at r 0 [] with Some _ => [] | None => [[]] end
  | _ :: _ => split_from r 0 0 [] s
  end.

(** ** The filter catalog *)

(** [type: "date" | "text"] *)
Inductive FilterType : Type := TDate | TText.

(** The fields of [TextFilterConfig] that the functions of the module read
    ([placeholder], [description] and [info] are display texts). *)
Record TextFilterConfig : Type := {
  cfg_id : str;
  cfg_label : str;
  cfg_type : FilterType;
  cfg_operator : str
}.

Definition TEXT_FILTERS : list TextFilterConfig :=
  [ {| cfg_id := lit "after"; cfg_label := lit "After";
       cfg_type := TDate; cfg_operator := lit "after:" |};
    {| cfg_id := lit "before"; cfg_label := lit "Before";
       cfg_type := TDate; cfg_operator := lit "before:" |};
    {| cfg_id := lit "intitle"; cfg_label := lit "In Title";
       cfg_type := TText; cfg_operator := lit "intitle:" |};
    {| cfg_id := lit "exact"; cfg_label := lit "Exact Phrase";
       cfg_type := TText; cfg_operator := [c_quote] |};
    {| cfg_id := lit "exclude"; cfg_label := lit "Exclude";
       cfg_type := TText; cfg_operator := lit "-" |};
    {| cfg_id := lit "channel"; cfg_label := lit "Boost Channel";
       cfg_type := TText; cfg_operator := lit "channel:" |};
    {| cfg_id := lit "hashtag"; cfg_label := lit "Hashtag";
       cfg_type := TText; cfg_operator := lit "#" |} ].

Record ActiveTextFilter : Type := {
  id : str;
  value : str
}.

(** [TEXT_FILTERS.find((c) => c.id === f.id)] *)
Definition find_config (f : ActiveTextFilter) : option TextFilterConfig :=
  find (fun c => str_eqb (cfg_id c) (id f)) TEXT_FILTERS.

(** ** The regular expressions of the module *)

(** [/\s+/] *)
Definition re_spaces : re := Plus is_space.

(** [/after:(\S+)/] and its like, for the operator token [op] *)
Definition re_op_capture (op : str) : re := Seq (Lit op) (Grp (Plus not_space)).

(** [/after:\S+/g] and its like *)
Definition re_op (op : str) : re := Seq (Lit op) (Plus not_space).

(** The quoted span, with its group in the parser and without in the
    stripper. *)
Definition re_exact_capture : re :=
  Seq (Lit [c_quote]) (Seq (Grp (Plus not_quote)) (Lit [c_quote])).

Definition re_exact : re :=
  Seq (Lit [c_quote]) (Seq (Plus not_quote) (Lit [c_quote])).

(** [/(?:^|\s)-(\S+)/g] and [/(?:^|\s)-\S+/g] *)
Definition re_exclude_capture : re :=
  Seq (Alt Bol (Cls is_space)) (Seq (Lit [c_dash]) (Grp (Plus not_space))).

Definition re_exclude : re :=
  Seq (Alt Bol (Cls is_space)) (Seq (Lit [c_dash]) (Plus not_space)).

(** The single double quote, [/^-/] *)
Definition re_quote : re := Lit [c_quote].
Definition re_leading_dash : re := Seq Bol (Lit [c_dash]).

(** ** Query string builder *)

(** The body of the loop over the filters: what one entry pushes on
    [parts]. *)
Definition build_step (parts : list str) (f : ActiveTextFilter) : list str :=
  match find_config f with
  | None => parts
  | Some config =>
      if negb (truthy (trim (value f))) then parts
      else
        let val := trim (value f) in
        if str_eqb (cfg_id config) (lit "exact") then
          parts ++ [[c_quote] ++ val ++ [c_quote]]
        else if str_eqb (cfg_id config) (lit "exclude") then
          fold_left (fun parts word => parts ++ [[c_dash] ++ word])
            (js_split re_spaces val) parts
        else if str_eqb (cfg_id config) (lit "hashtag") then
          parts ++ [[c_hash] ++ val]
        else parts ++ [cfg_operator config ++ val]
  end.

Definition buildQueryString (filters : list ActiveTextFilter) : str :=
  let parts := fold_left build_step filters [] in
  join (lit " ") parts.

(** ** Query string parser *)

(** [m[1]] of a match array *)
Definition group1 (m : list str) : str := nth 1 m [].

Definition push_match (ident : str) (m : option (list str))
  (filters : list ActiveTextFilter) : list ActiveTextFilter :=
  match m with
  | Some arr => filters ++ [ {| id := ident; value := group1 arr |} ]
  | None => filters
  end.

(** The word of one match of the exclude pattern:
    the match trimmed, then without its leading dash. *)
Definition exclude_word (m : str) : str := js_replace re_leading_dash [] (trim m).

Definition parseQueryFilters (query : str) : list ActiveTextFilter :=
  let filters := [] in
  let filters :=
    push_match (lit "after") (js_match (re_op_capture (lit "after:")) query)
      filters in
  let filters :=
    push_match (lit "before") (js_match (re_op_capture (lit "before:")) query)
      filters in
  let filters :=
    push_match (lit "intitle")
      (js_match (re_op_capture (lit "intitle:")) query) filters in
  let filters :=
    match js_match_all re_exact_capture query with
    | Some exactMatches =>
        fold_left
          (fun filters m =>
             filters ++
             [ {| id := lit "exact"; value := js_replace_all re_quote [] m |} ])
          exactMatches filters
    | None => filters
    end in
  let filters :=
    match js_match_all re_exclude_capture query with
    | Some excludeMatches =>
        let words := map exclude_word excludeMatches in
        if Nat.eqb (length words) 0 then filters
        else filters ++ [ {| id := lit "exclude";
                             value := join (lit " ") words |} ]
    | None => filters
    end in
  let filters :=
    push_match (lit "channel")
      (js_match (re_op_capture (lit "channel:")) query) filters in
  let filters :=
    push_match (lit "hashtag") (js_match (re_op_capture (lit "#")) query)
      filters in
  filters.

(** ** Strip operators *)

Definition stripOperators (query : str) : str :=
  trim
    (js_replace_all re_spaces (lit " ")
    (js_replace_all re_exclude []
    (js_replace_all (re_op (lit "#")) []
    (js_replace_all (re_op (lit "channel:")) []
    (js_replace_all re_exact []
    (js_replace_all (re_op (lit "intitle:")) []
    (js_replace_all (re_op (lit "before:")) []
    (js_replace_all (re_op (lit "after:")) [] query)))))))).

(** ** CSV escape *)

Definition csvEscape (value : str) : str :=
  if includes value (lit ",") || includes value [c_quote]
     || includes value [c_lf] || includes value [c_cr]
  then [c_quote] ++ js_replace_all re_quote [c_quote; c_quote] value ++ [c_quote]
  else value.

(** ** Query preview builder *)

(** The connector of a line: empty, AND or NOT. *)
Inductive Connector : Type := CEmpty | CAND | CNOT.

Record PreviewLine : Type := {
  connector : Connector;
  label : str;
  line_value : str
}.

(** [options?: { excludeShorts?: boolean }] *)
Record PreviewOptions : Type := {
  excludeShorts : option bool
}.

(** [lines.length ? "AND" : ""] *)
Definition and_or_empty (lines : list PreviewLine) : Connector :=
  if Nat.eqb (length lines) 0 then CEmpty else CAND.

(** The body of the loop over the filters: what one entry pushes on
    [lines]. *)
Definition preview_step (lines : list PreviewLine) (f : ActiveTextFilter)
  : list PreviewLine :=
  match find_config f with
  | None => lines
  | Some config =>
      if negb (truthy (trim (value f))) then lines
      else
        let val := trim (value f) in
        if str_eqb (cfg_id config) (lit "exact") then
          lines ++ [ {| connector := and_or_empty lines;
                        label := lit "Exact";
                        line_value := [c_quote] ++ val ++ [c_quote] |} ]
        else if str_eqb (cfg_id config) (lit "exclude") then
          fold_left
            (fun lines word =>
               lines ++ [ {| connector := CNOT;
                             label := lit "Exclude";
                             line_value := word |} ])
            (js_split re_spaces val) lines
        else if str_eqb (cfg_id config) (lit "after") then
          lines ++ [ {| connector := and_or_empty lines;
                        label := lit "After";
                        line_value := val |} ]
        else if str_eqb (cfg_id config) (lit "before") then
          lines ++ [ {| connector := and_or_empty lines;
                        label := lit "Before";
                        line_value := val |} ]
        else if str_eqb (cfg_id config) (lit "intitle") then
          lines ++ [ {| connector := and_or_empty lines;
                        label := lit "In Title";
                        line_value := val |} ]
        else if str_eqb (cfg_id config) (lit "channel") then
          lines ++ [ {| connector := and_or_empty lines;
                        label := lit "Boost Channel";
                        line_value := val |} ]
        else if str_eqb (cfg_id config) (lit "hashtag") then
          lines ++ [ {| connector := and_or_empty lines;
                        label := lit "Hashtag";
                        line_value := [c_hash] ++ val |} ]
        else lines
  end.

(** [options?.excludeShorts] taken as a condition *)
Definition shorts_on (options : option PreviewOptions) : bool :=
  match options with
  | Some {| excludeShorts := Some true |} => true
  | _ => false
  end.

Definition shorts_line : PreviewLine :=
  {| connector := CNOT; label := lit "Shorts"; line_value := [] |}.

Definition buildPreviewLines (filters : list ActiveTextFilter)
  (options : option PreviewOptions) : list PreviewLine :=
  let lines := fold_left preview_step filters [] in
  if shorts_on options then lines ++ [shorts_line] else lines.

(** ** Descriptions used in the statements *)

(** The words of a string: its maximal runs of characters that are not
    whitespace, from left to right; [cur] is the word being read. *)
Fixpoint words_acc (cur : str) (s : str) : list str :=
  match s with
  | [] => match cur with [] => [] | _ :: _ => [cur] end
  | c :: s' =>
      if is_space c then
        match cur with
        | [] => words_acc [] s'
        | _ :: _ => cur :: words_acc [] s'
        end
      else words_acc (cur ++ [c]) s'
  end.

Definition words (s : str) : list str := words_acc [] s.

(** [op_at op s]: when [s] starts with the operator token [op] followed by a
    character that is not whitespace, the run of such characters after [op]. *)
Definition op_at (op s : str) : option str :=
  match strip_prefix op s with
  | Some (c :: t) =>
      if not_space c then Some (c :: take_while not_space t) else None
  | _ => None
  end.

(** The run after the leftmost place of [s] where [op_at] finds one. *)
Fixpoint find_op (op s : str) : option str :=
  match op_at op s with
  | Some v => Some v
  | None =>
      match s with
      | [] => None
      | _ :: s' => find_op op s'
      end
  end.

(** A string that starts, or ends, with a character that is not
    whitespace. *)
Definition head_ok (s : str) : bool :=
  match s with
  | c :: _ => not_space c
  | [] => false
  end.

Fixpoint last_ok (s : str) : bool :=
  match s with
  | [] => false
  | c :: s' =>
      match s' with
      | [] => not_space c
      | _ :: _ => last_ok s'
      end
  end.

(** The seven ids of the catalog. *)
Definition catalog_ids : list str :=
  [lit "after"; lit "before"; lit "intitle"; lit "exact"; lit "exclude";
   lit "channel"; lit "hashtag"].

Definition known_id (i : str) : bool :=
  existsb (fun k => str_eqb k i) catalog_ids.

(** An entry that every operation passes over: its id is not in the catalog
    or its value is empty or whitespace. *)
Definition inert (f : ActiveTextFilter) : bool :=
  negb (known_id (id f)) || negb (truthy (trim (value f))).

(** The tokens that one entry contributes to the query string. *)
Definition tokens_of (f : ActiveTextFilter) : list str :=
  let val := trim (value f) in
  if inert f then []
  else if str_eqb (lit "exact") (id f) then [c_quote :: val ++ [c_quote]]
  else if str_eqb (lit "exclude") (id f) then
    map (fun w => c_dash :: w) (words val)
  else if str_eqb (lit "hashtag") (id f) then [c_hash :: val]
  else if str_eqb (lit "after") (id f) then [lit "after:" ++ val]
  else if str_eqb (lit "before") (id f) then [lit "before:" ++ val]
  else if str_eqb (lit "intitle") (id f) then [lit "intitle:" ++ val]
  else [lit "channel:" ++ val].

(** The connectors of the lines that the entries produce, [first] telling
    that no line was produced before: an exclude entry gives NOT for each of
    its words, every other entry the empty connector when its line is the
    first one and AND otherwise. *)
Fixpoint connectors_of (first : bool) (fs : list ActiveTextFilter)
  : list Connector :=
  match fs with
  | [] => []
  | f :: fs' =>
      if inert f then connectors_of first fs'
      else if str_eqb (lit "exclude") (id f) then
        map (fun _ => CNOT) (words (value f)) ++ connectors_of false fs'
      else (if first then CEmpty else CAND) :: connectors_of false fs'
  end.

(** The quoted spans of a string, read from left to right: [open] is the text
    read since the last opening double quote, if one is open.  A double quote
    that follows an opening one at once opens the span anew, and a span that
    is never closed is no span. *)
Fixpoint spans (open : option str) (s : str) : list str :=
  match s with
  | [] => []
  | c :: s' =>
      if ch_eqb c_quote c then
        match open with
        | Some (x :: v) => (x :: v) :: spans None s'
        | _ => spans (Some []) s'
        end
      else
        match open with
        | Some v => spans (Some (v ++ [c])) s'
        | None => spans None s'
        end
  end.

Definition quoted_spans (s : str) : list str := spans None s.

(** The words that follow a dash which is at the start of the string or
    after a whitespace character, and which is itself followed at once by a
    character that is not whitespace.  [boundary] tells that the character
    read is the first one or comes after whitespace. *)
Fixpoint dash_words_from (boundary : bool) (s : str) : list str :=
  match s with
  | [] => []
  | c :: s' =>
      if boundary && ch_eqb c_dash c && head_ok s' then
        take_while not_space s' :: dash_words_from false s'
      else dash_words_from (is_space c) s'
  end.

Definition dash_words (s : str) : list str := dash_words_from true s.

(** The entry that an operator gives, if it gives one. *)
Definition entry_of (ident : str) (v : option str) : list ActiveTextFilter :=
  match v with
  | Some x => [ {| id := ident; value := x |} ]
  | None => []
  end.

(** The place of an id in the order of the parser's result. *)
Definition rank (i : str) : nat :=
  if str_eqb (lit "after") i then 0
  else if str_eqb (lit "before") i then 1
  else if str_eqb (lit "intitle") i then 2
  else if str_eqb (lit "exact") i then 3
  else if str_eqb (lit "exclude") i then 4
  else if str_eqb (lit "channel") i then 5
  else if str_eqb (lit "hashtag") i then 6
  else 7.

(** [quoted_at s]: when [s] starts with a quoted span, the text between its
    double quotes. *)
Definition quoted_at (s : str) : option str :=
  match s with
  | q :: c :: t =>
      if ch_eqb c_quote q && not_quote c then
        match drop_while not_quote t with
        | _ :: _ => Some (c :: take_while not_quote t)
        | [] => None
        end
      else None
  | _ => None
  end.

(** The exclude entry for the dash words found: one entry for all of them,
    none when there is no word. *)
Definition exclude_entry (ws : list str) : list ActiveTextFilter :=
  match ws with
  | [] => []
  | _ :: _ => [ {| id := lit "exclude"; value := join [c_sp] ws |} ]
  end.

Definition exact_entry (v : str) : ActiveTextFilter :=
  {| id := lit "exact"; value := v |}.

(** The order of two entries that follow each other, at any distance, in the
    result of the parser: by rising rank, the exact entries apart, which may
    be many. *)
Definition rank_order (a b : ActiveTextFilter) : Prop :=
  rank (id a) < rank (id b) \/ (rank (id a) = 3 /\ rank (id b) = 3).

(** What holds of the value [v] that the parser reports for the operator
    token [op] in the query [q]: the token occurs in [q] with [v] right after
    it, [v] is the whole run of characters that are not whitespace there, and
    no place further left has the token followed by such a character. *)
Definition leftmost_run (op q v : str) : Prop :=
  exists pre post,
    q = pre ++ op ++ v ++ post /\
    v <> [] /\ forallb not_space v = true /\ head_ok post = false /\
    forall pre' c post',
      q = pre' ++ op ++ c :: post' -> not_space c = true ->
      length pre <= length pre'.

(** The operator token occurs somewhere in [q], inside a longer token or
    not, with a character that is not whitespace after it. *)
Definition occurs_with_run (op q : str) : Prop :=
  exists pre c post, q = pre ++ op ++ c :: post /\ not_space c = true.

Definition mk_filter (ident v : str) : ActiveTextFilter :=
  {| id := ident; value := v |}.

(** The rule of the parser for the operator token [op] and its id. *)
Definition op_rule (ident op q : str) : Prop :=
  ((exists v, In (mk_filter ident v) (parseQueryFilters q))
   <-> occurs_with_run op q) /\
  (forall v, In (mk_filter ident v) (parseQueryFilters q) ->
             leftmost_run op q v).

(** The entries that come back from a build followed by a parse as they
    went in: an exact phrase without double quote that neither starts nor
    ends with whitespace, an exclude value that is not blank, and for the
    other ids of the catalog a value that is one run of characters that are
    not whitespace. *)
Definition roundtrip_safe (f : ActiveTextFilter) : bool :=
  if str_eqb (lit "exact") (id f) then
    head_ok (value f) && last_ok (value f) && forallb not_quote (value f)
  else if str_eqb (lit "exclude") (id f) then truthy (trim (value f))
  else known_id (id f) && truthy (value f) && forallb not_space (value f).

(** What comes back for a safe entry: the entry itself, and for an exclude
    entry its words joined by single spaces. *)
Definition roundtrip_image (f : ActiveTextFilter) : ActiveTextFilter :=
  if str_eqb (lit "exclude") (id f) then
    {| id := lit "exclude"; value := join [c_sp] (words (value f)) |}
  else f.

(** ** Descriptions used for the stripper *)

(** An operator token as the patterns of the module have them: not empty and
    without whitespace. *)
Definition op_ok (op : str) : bool := truthy op && forallb not_space op.

Definition no_quote (s : str) : bool := forallb not_quote s.

(** [reduces s t]: [t] is what is left of [s] when some stretches of it are
    taken out, each one up to the end of a token (whitespace or the end of the
    string follows it), and some runs of whitespace are made one space. *)
Inductive reduces : str -> str -> Prop :=
| rd_nil : reduces [] []
| rd_keep (c : char) (s t : str) : reduces s t -> reduces (c :: s) (c :: t)
| rd_drop (pre rest t : str) :
    pre <> [] -> head_ok rest = false -> reduces rest t ->
    reduces (pre ++ rest) t
| rd_space (pre rest t : str) :
    pre <> [] -> forallb is_space pre = true -> reduces rest t ->
    reduces (pre ++ rest) (c_sp :: t).

(** Whitespace as the stripper leaves it: every whitespace character is a
    space that has a character that is not whitespace after it. *)
Fixpoint spaced_ok (s : str) : bool :=
  match s with
  | [] => true
  | c :: s' =>
      (if is_space c then ch_eqb c_sp c && head_ok s' else true)
      && spaced_ok s'
  end.

(** A string in normal form: empty, or starting with a character that is not
    whitespace, with its whitespace as [spaced_ok] has it. *)
Definition normalized (s : str) : bool :=
  (negb (truthy s) || head_ok s) && spaced_ok s.

(** Every whitespace character is a space and no whitespace follows it. *)
Fixpoint single_spaces (s : str) : bool :=
  match s with
  | [] => true
  | c :: s' =>
      (if is_space c then
         ch_eqb c_sp c
         && match s' with d :: _ => not_space d | [] => true end
       else true)
      && single_spaces s'
  end.

(** ** The filter panel ([panel.ts]) *)

(** [getFiltersFromInputs]: [textInputs] is the map from the ids of the
    catalog to the text inputs, as the list of its entries in the order of
    their insertion, each input being its current value. *)
Definition getFiltersFromInputs (textInputs : list (str * str))
  : list ActiveTextFilter :=
  fold_left
    (fun (filters : list ActiveTextFilter) (entry : str * str) =>
       let (ident, input_value) := entry in
       if truthy (trim input_value) then
         filters ++ [ {| id := ident; value := trim input_value |} ]
       else filters)
    textInputs [].

(** What one input gives to [getFiltersFromInputs]. *)
Definition input_entry (entry : str * str) : list ActiveTextFilter :=
  if truthy (trim (snd entry)) then
    [ {| id := fst entry; value := trim (snd entry) |} ]
  else [].

(** The count that [updateSummary] shows. *)
Definition summary_count (textInputs : list (str * str)) (excludeShorts : bool)
  : nat :=
  let count :=
    fold_left
      (fun (count : nat) (entry : str * str) =>
         if truthy (trim (snd entry)) then S count else count)
      textInputs 0 in
  if excludeShorts then S count else count.

(** The lines that [updatePreview] renders; it hides the preview section
    when there is none. *)
Definition preview_lines (textInputs : list (str * str)) (excludeShorts : bool)
  : list PreviewLine :=
  buildPreviewLines (getFiltersFromInputs textInputs)
    (Some {| excludeShorts := Some excludeShorts |}).

(** ** The search trigger of the content script *)

(** [SP_TYPE_VIDEO] *)
Definition SP_TYPE_VIDEO : str := lit "EgIQAQ==".

(** What [handleSearchTrigger] does to the page: nothing, a navigation to the
    results with the parameters [search_query] and [sp], or a new value of
    the search input, on which YouTube then acts. *)
Inductive SearchOutcome : Type :=
| Untouched
| Navigate (search_query sp : str)
| Rewrite (input_value : str).

(** [[rawQuery, filterString].filter(Boolean).join(" ")] *)
Definition fullQuery (savedFilters : list ActiveTextFilter) (input_value : str)
  : str :=
  let hasTextFilters := Nat.ltb 0 (length savedFilters) in
  let rawQuery := stripOperators input_value in
  let filterString :=
    if hasTextFilters then buildQueryString savedFilters else [] in
  join (lit " ") (filter truthy [rawQuery; filterString]).

(** [input] is the value of the search input, if the input is found. *)
Definition handleSearchTrigger (savedFilters : list ActiveTextFilter)
  (excludeShorts : bool) (input : option str) : SearchOutcome :=
  let hasTextFilters := Nat.ltb 0 (length savedFilters) in
  if negb hasTextFilters && negb excludeShorts then Untouched
  else
    match input with
    | None => Untouched
    | Some input_value =>
        let query := fullQuery savedFilters input_value in
        if negb (truthy (trim query)) then Untouched
        else if excludeShorts then Navigate query SP_TYPE_VIDEO
        else Rewrite query
    end.

(** ** The CSV export *)

(** [keyof VideoResult] *)
Inductive FieldKey : Type :=
| KTitle | KUrl | KChannel | KViews | KPublished | KDuration.

Definition FieldKey_eq_dec (a b : FieldKey) : {a = b} + {a <> b}.
Proof. decide equality. Defined.

Record VideoResult : Type := {
  title : str;
  url : str;
  channel : str;
  views : str;
  published : str;
  duration : str
}.

(** [r[key]] *)
Definition field_of (r : VideoResult) (key : FieldKey) : str :=
  match key with
  | KTitle => title r
  | KUrl => url r
  | KChannel => channel r
  | KViews => views r
  | KPublished => published r
  | KDuration => duration r
  end.

Record ExportField : Type := {
  ef_key : FieldKey;
  ef_label : str;
  ef_defaultOn : bool
}.

Definition EXPORT_FIELDS : list ExportField :=
  [ {| ef_key := KTitle; ef_label := lit "Title"; ef_defaultOn := true |};
    {| ef_key := KUrl; ef_label := lit "URL"; ef_defaultOn := true |};
    {| ef_key := KChannel; ef_label := lit "Channel"; ef_defaultOn := true |};
    {| ef_key := KViews; ef_label := lit "Views"; ef_defaultOn := false |};
    {| ef_key := KPublished; ef_label := lit "Published";
       ef_defaultOn := false |};
    {| ef_key := KDuration; ef_label := lit "Duration";
       ef_defaultOn := false |} ].

(** The selected fields are a set of keys. *)
Definition FieldSet : Type := set FieldKey.

(** The set that the export panel starts from and resets to. *)
Definition default_fields : FieldSet :=
  fold_left (fun s k => set_add FieldKey_eq_dec k s)
    (map ef_key (filter ef_defaultOn EXPORT_FIELDS)) (empty_set FieldKey).

(** The change handler of a field checkbox: a checked box adds its key, an
    unchecked one takes it out unless the set has one key only. *)
Definition toggle_field (key : FieldKey) (checked : bool)
  (selectedFields : FieldSet) : FieldSet :=
  if checked then set_add FieldKey_eq_dec key selectedFields
  else if Nat.ltb 1 (length selectedFields) then
    set_remove FieldKey_eq_dec key selectedFields
  else selectedFields.

(** The byte order mark that starts the file. *)
Definition c_bom : char := 65279%N.

(** [generateCSV], the export date being given. *)
Definition generateCSV (selectedFields : FieldSet) (results : list VideoResult)
  (query exportDate : str) : str :=
  let activeFields :=
    filter (fun f => set_mem FieldKey_eq_dec (ef_key f) selectedFields)
      EXPORT_FIELDS in
  let headers :=
    map ef_label activeFields ++ [lit "Search Query"; lit "Export Date"] in
  let rows :=
    map (fun r =>
           map (fun f => csvEscape (field_of r (ef_key f))) activeFields
           ++ [csvEscape query; csvEscape exportDate])
      results in
  let csvContent :=
    join [c_lf]
      (join (lit ",") (map csvEscape headers) :: map (join (lit ",")) rows) in
  [c_bom] ++ csvContent.

(** The reading of CSV text: a double quote opens or closes a quoted
    stretch ([inq] tells that one is open; a doubled double quote inside
    closes and opens again).  [bare_count p inq s] counts the characters of
    class [p] that stand outside the quoted stretches of [s], and
    [quote_state inq s] tells whether a quoted stretch is open at the end. *)
Fixpoint bare_count (p : char -> bool) (inq : bool) (s : str) : nat :=
  match s with
  | [] => 0
  | c :: s' =>
      if ch_eqb c_quote c then bare_count p (negb inq) s'
      else (if negb inq && p c then 1 else 0) + bare_count p inq s'
  end.

Fixpoint quote_state (inq : bool) (s : str) : bool :=
  match s with
  | [] => inq
  | c :: s' => quote_state (if ch_eqb c_quote c then negb inq else inq) s'
  end.

(** The characters that have a meaning for the operators of the module. *)
Definition operator_char (c : char) : bool :=
  ch_eqb 58%N c || ch_eqb c_hash c || ch_eqb c_quote c || ch_eqb c_dash c.

(** The characters that make [csvEscape] quote a value, the separators
    among them, and a value with each of its double quotes doubled. *)
Definition csv_special (c : char) : bool :=
  ch_eqb c_comma c || ch_eqb c_quote c || ch_eqb c_lf c || ch_eqb c_cr c.

Definition csv_separator (c : char) : bool :=
  ch_eqb c_comma c || ch_eqb c_lf c || ch_eqb c_cr c.

Definition double_quotes (v : str) : str :=
  flat_map (fun c => if ch_eqb c_quote c then [c_quote; c_quote] else [c]) v.


(** ** The templates of the filter panel ([panel.ts]) *)

(** [FilterTemplate]; the field [excludeShorts] is optional. *)
Record FilterTemplate : Type := {
  name : str;
  filters : list ActiveTextFilter;
  tpl_excludeShorts : option bool
}.

(** The fields of [FilterPanel] that the templates read and write.  The map
    [textInputs] is the list of its entries, in the order of their
    insertion, each input being its current value; a map holds a key once.
    The value of an input is the string that was assigned to it: what the
    browser does to a value that does not fit the type of the input is not
    modelled. *)
Record PanelState : Type := {
  textInputs : list (str * str);
  panel_excludeShorts : bool;
  templates : list FilterTemplate
}.

(** [Array.prototype.findIndex], with [None] for -1. *)
Fixpoint findIndex (A : Type) (p : A -> bool) (l : list A) : option nat :=
  match l with
  | [] => None
  | x :: l' => if p x then Some 0 else option_map S (findIndex p l')
  end.

(** An assignment to the fields of the element [l[i]]. *)
Fixpoint assign_at (A : Type) (i : nat) (f : A -> A) (l : list A) {struct l}
  : list A :=
  match l, i with
  | [], _ => []
  | x :: l', 0 => f x :: l'
  | x :: l', S i' => x :: assign_at i' f l'
  end.

(** [saveTemplate]; [nameInput] is the value of the name input of the
    template modal, if there is one. *)
Definition saveTemplate (nameInput : option str) (p : PanelState)
  : PanelState :=
  match nameInput with
  | None => p
  | Some nameInput_value =>
      let name' := trim nameInput_value in
      if negb (truthy name') then p
      else
        let filters' := getFiltersFromInputs (textInputs p) in
        if Nat.eqb (length filters') 0 then p
        else
          let existing :=
            findIndex (fun t => str_eqb (name t) name') (templates p) in
          {| textInputs := textInputs p;
             panel_excludeShorts := panel_excludeShorts p;
             templates :=
               match existing with
               | Some existing =>
                   assign_at existing
                     (fun t =>
                        {| name := name t;
                           filters := filters';
                           tpl_excludeShorts := Some (panel_excludeShorts p) |})
                     (templates p)
               | None =>
                   templates p
                   ++ [ {| name := name';
                           filters := filters';
                           tpl_excludeShorts :=
                             if panel_excludeShorts p then Some true
                             else None |} ]
               end |}
  end.

(** [input.value = v] on the input that [textInputs.get(ident)] gives, if
    there is one. *)
Definition set_input (ident v : str) (inputs : list (str * str))
  : list (str * str) :=
  map (fun entry => if str_eqb (fst entry) ident then (fst entry, v)
                    else entry)
      inputs.

(** [for (const input of this.textInputs.values()) input.value = ...] with
    the empty string. *)
Definition clear_inputs (inputs : list (str * str)) : list (str * str) :=
  map (fun entry => (fst entry, [])) inputs.

(** The loop [for (const f of filters) ...] that [loadTemplate] and
    [loadState] share. *)
Definition populate (fs : list ActiveTextFilter) (inputs : list (str * str))
  : list (str * str) :=
  fold_left (fun acc f => set_input (id f) (value f) acc) fs inputs.

(** [loadTemplate] *)
Definition loadTemplate (index : nat) (p : PanelState) : PanelState :=
  match nth_error (templates p) index with
  | None => p
  | Some template =>
      {| textInputs :=
           populate (filters template) (clear_inputs (textInputs p));
         panel_excludeShorts :=
           match tpl_excludeShorts template with
           | Some b => b
           | None => false
           end;
         templates := templates p |}
  end.

(** [deleteTemplate]: [this.templates.splice(index, 1)] *)
Definition deleteTemplate (index : nat) (p : PanelState) : PanelState :=
  {| textInputs := textInputs p;
     panel_excludeShorts := panel_excludeShorts p;
     templates := firstn index (templates p) ++ skipn (S index) (templates p) |}.

(** No string stands twice in the list. *)
Fixpoint distinct (l : list str) : bool :=
  match l with
  | [] => true
  | x :: l' => negb (existsb (str_eqb x) l') && distinct l'
  end.

(** What the stored templates are expected to be: each one has a name that is
    trimmed and not empty, and at least one filter, and no two have the same
    name. *)
Definition template_ok (t : FilterTemplate) : bool :=
  truthy (name t) && str_eqb (trim (name t)) (name t)
  && Nat.ltb 0 (length (filters t)).

Definition templates_ok (ts : list FilterTemplate) : bool :=
  forallb template_ok ts && distinct (map name ts).

(** ** The passes of [stripOperators] *)

(** The passes before the one of the quoted spans, and the passes after
    it. *)
Definition strip_head (query : str) : str :=
  js_replace_all (re_op (lit "intitle:")) []
    (js_replace_all (re_op (lit "before:")) []
    (js_replace_all (re_op (lit "after:")) [] query)).

Definition strip_tail (query : str) : str :=
  trim
    (js_replace_all re_spaces (lit " ")
    (js_replace_all re_exclude []
    (js_replace_all (re_op (lit "#")) []
    (js_replace_all (re_op (lit "channel:")) [] query)))).

(** The colon, the number sign and the double quote: the characters that
    make the operators, the dash apart. *)
Definition c_colon : char := 58%N.

Definition special_char (c : char) : bool :=
  ch_eqb c c_colon || ch_eqb c c_hash || ch_eqb c c_quote.

(** A filter whose trimmed value holds none of these characters, and is one
    word unless the filter is the exact phrase or the exclusion. *)
Definition clean_filter (f : ActiveTextFilter) : bool :=
  let val := trim (value f) in
  forallb (fun c => negb (special_char c)) val
  && (str_eqb (lit "exact") (id f) || str_eqb (lit "exclude") (id f)
      || forallb not_space val).

(** A pattern whose matches are not empty and end within the string. *)
Definition bounded (r : re) : Prop :=
  forall (i : nat) (s : str) (m : nat) (caps : list str),
    exec_at r i s = Some (m, caps) -> 1 <= m <= length s.


(** ** The file name of the CSV export ([startExport]) *)

(** [[a-zA-Z0-9]] *)
Definition alnum (c : char) : bool :=
  ((97 <=? c) && (c <=? 122) || (65 <=? c) && (c <=? 90)
   || (48 <=? c) && (c <=? 57))%N.

Definition not_alnum (c : char) : bool := negb (alnum c).

(** [/[^a-zA-Z0-9]+/g] *)
Definition re_unsafe : re := Plus not_alnum.

Definition c_underscore : char := 95%N.

(** [query.replace(/[^a-zA-Z0-9]+/g, "_").substring(0, 40)] *)
Definition safeName (query : str) : str :=
  firstn 40 (js_replace_all re_unsafe (lit "_") query).

(** The file name that [startExport] gives to [downloadCSV]. *)
Definition csv_filename (query : str) : str :=
  lit "youtube-search_" ++ safeName query ++ lit ".csv".

(** Each character is a letter or a digit of ASCII, or an underscore that is
    followed by a letter or a digit or stands at the end. *)
Fixpoint safe_name_ok (s : str) : bool :=
  match s with
  | [] => true
  | c :: s' =>
      (alnum c
       || ch_eqb c c_underscore
          && match s' with d :: _ => alnum d | [] => true end)
      && safe_name_ok s'
  end.

(** ** The scraper of the export ([scrapeResults]) *)

(** What the scraper reads in one [ytd-video-renderer]: the text content of
    each element that it queries, [None] where the element or its text is
    missing, and the [href] of the title link. *)
Record Renderer : Type := {
  titleEl : option str;
  linkEl : option str;
  channelEl : option str;
  metaSpan0 : option str;
  metaSpan1 : option str;
  durationEl : option str
}.

(** [el?.textContent?.trim() || ""] *)
Definition text_of (el : option str) : str :=
  match el with
  | Some textContent =>
      if truthy (trim textContent) then trim textContent else []
  | None => []
  end.

(** [linkEl?.href || ""] *)
Definition href_of (el : option str) : str :=
  match el with
  | Some href => if truthy href then href else []
  | None => []
  end.

(** The body of the loop over the renderers. *)
Definition scrape_step (results : list VideoResult) (el : Renderer)
  : list VideoResult :=
  let title := text_of (titleEl el) in
  let url := href_of (linkEl el) in
  let channel := text_of (channelEl el) in
  let views := text_of (metaSpan0 el) in
  let published := text_of (metaSpan1 el) in
  let duration := text_of (durationEl el) in
  if truthy title || truthy url then
    results ++ [ {| title := title; url := url; channel := channel;
                    views := views; published := published;
                    duration := duration |} ]
  else results.

Definition scrapeResults (maxCount : nat) (renderers : list Renderer)
  : list VideoResult :=
  let limit := Nat.min (length renderers) maxCount in
  fold_left scrape_step (firstn limit renderers) [].

(** ** Characters and strings *)

Lemma ch_eqb_eq (a b : char) : ch_eqb a b = true <-> a = b.
Proof. unfold ch_eqb. apply N.eqb_eq. Qed.

Lemma ch_eqb_refl (a : char) : ch_eqb a a = true.
Proof. apply ch_eqb_eq. reflexivity. Qed.

Lemma ch_eqb_neq (a b : char) : ch_eqb a b = false <-> a <> b.
Proof. unfold ch_eqb. apply N.eqb_neq. Qed.

Lemma str_eqb_eq (a b : str) : str_eqb a b = true <-> a = b.
Proof.
  revert b. induction a as [|x a IH]; intros [|y b]; simpl; split;
    try congruence; try reflexivity.
  - intros H. apply andb_true_iff in H. destruct H as [H1 H2].
    apply ch_eqb_eq in H1. apply IH in H2. congruence.
  - intros H. injection H as -> ->. rewrite ch_eqb_refl. simpl.
    apply IH. reflexivity.
Qed.

Lemma includes_char (s : str) (c : char) :
  includes s [c] = existsb (ch_eqb c) s.
Proof.
  induction s as [|x s IH]; simpl.
  - reflexivity.
  - rewrite IH. unfold starts_with. simpl.
    destruct (ch_eqb c x); reflexivity.
Qed.

(** ** Lists of characters *)

Lemma take_drop_while (p : char -> bool) (s : str) :
  take_while p s ++ drop_while p s = s.
Proof.
  induction s as [|c s IH]; simpl; [reflexivity|].
  destruct (p c); simpl; [rewrite IH|]; reflexivity.
Qed.

Lemma firstn_take_while (p : char -> bool) (s : str) :
  firstn (length (take_while p s)) s = take_while p s.
Proof.
  induction s as [|c s IH]; simpl; [reflexivity|].
  destruct (p c); simpl; [rewrite IH|]; reflexivity.
Qed.

Lemma skipn_take_while (p : char -> bool) (s : str) :
  skipn (length (take_while p s)) s = drop_while p s.
Proof.
  induction s as [|c s IH]; simpl; [reflexivity|].
  destruct (p c); simpl; [rewrite IH|]; reflexivity.
Qed.

Lemma take_while_all (p : char -> bool) (s : str) :
  forallb p (take_while p s) = true.
Proof.
  induction s as [|c s IH]; simpl; [reflexivity|].
  destruct (p c) eqn:E; simpl; [rewrite E, IH|]; reflexivity.
Qed.

Lemma drop_while_head (p : char -> bool) (s : str) (c : char) (t : str) :
  drop_while p s = c :: t -> p c = false.
Proof.
  induction s as [|x s IH]; simpl; [discriminate|].
  destruct (p x) eqn:E; [exact IH|]. intros H. injection H as -> _. exact E.
Qed.

Lemma take_while_id (p : char -> bool) (s : str) :
  forallb p s = true -> take_while p s = s.
Proof.
  induction s as [|c s IH]; simpl; [reflexivity|].
  intros H. apply andb_true_iff in H. destruct H as [H1 H2].
  rewrite H1, IH by assumption. reflexivity.
Qed.

Lemma take_while_app_stop (p : char -> bool) (v : str) (c : char) (t : str) :
  forallb p v = true -> p c = false ->
  take_while p (v ++ c :: t) = v.
Proof.
  intros Hv Hc. induction v as [|x v IH]; simpl in *.
  - rewrite Hc. reflexivity.
  - apply andb_true_iff in Hv. destruct Hv as [H1 H2].
    rewrite H1, IH by assumption. reflexivity.
Qed.

Lemma strip_prefix_app (l s : str) : strip_prefix l (l ++ s) = Some s.
Proof.
  induction l as [|a l IH]; simpl; [reflexivity|].
  rewrite ch_eqb_refl. exact IH.
Qed.

Lemma strip_prefix_some (l s t : str) :
  strip_prefix l s = Some t -> s = l ++ t.
Proof.
  revert s. induction l as [|a l IH]; intros [|b s]; simpl; try congruence.
  destruct (ch_eqb a b) eqn:E; [|discriminate].
  apply ch_eqb_eq in E. subst b. intros H. apply IH in H. congruence.
Qed.

(** ** The matcher *)

#[local] Arguments Nat.sub : simpl never.
#[local] Arguments Nat.add : simpl never.

(** The greedy [+] hands the longest run to a continuation that accepts it. *)
Lemma more_first (p : char -> bool) (i : nat) (s : str) (caps : list str)
  (k : cont) (r : mres) :
  k (i + length (take_while p s)) (drop_while p s) caps = Some r ->
  more p i s caps k = Some r.
Proof.
  revert i. induction s as [|c s IH]; intros i; simpl.
  - rewrite Nat.add_0_r. trivial.
  - destruct (p c); simpl.
    + intros H. rewrite (IH (S i)); [reflexivity|].
      rewrite <- H. f_equal. simpl. lia.
    + rewrite Nat.add_0_r. trivial.
Qed.

(** When the continuation refuses every rest that starts inside the class,
    giving characters back is of no use: only the longest run counts. *)
Lemma more_blocked (p : char -> bool) (i : nat) (s : str) (caps : list str)
  (k : cont) :
  (forall j c t, p c = true -> k j (c :: t) caps = None) ->
  more p i s caps k
  = k (i + length (take_while p s)) (drop_while p s) caps.
Proof.
  intros Hk. revert i. induction s as [|c s IH]; intros i; simpl.
  - rewrite Nat.add_0_r. reflexivity.
  - destruct (p c) eqn:E; simpl.
    + rewrite (IH (S i)).
      replace (S i + length (take_while p s))
        with (i + S (length (take_while p s))) by lia.
      destruct (k _ (drop_while p s) caps); [reflexivity|].
      symmetry. rewrite Hk by exact E. reflexivity.
    + rewrite Nat.add_0_r. reflexivity.
Qed.

Lemma exec_op_capture (op : str) (i : nat) (s : str) :
  exec_at (re_op_capture op) i s
  = match op_at op s with
    | Some v => Some (length op + length v, [v])
    | None => None
    end.
Proof.
  unfold exec_at, re_op_capture, op_at. simpl.
  destruct (strip_prefix op s) as [[|c t]|]; try reflexivity.
  destruct (not_space c); [|reflexivity].
  erewrite more_first; [reflexivity|]. simpl.
  apply f_equal. apply f_equal2.
  - simpl. lia.
  - replace (S (i + length op) + length (take_while not_space t)
             - (i + length op))
      with (S (length (take_while not_space t))) by lia.
    simpl. rewrite firstn_take_while. reflexivity.
Qed.

Lemma exec_op (op : str) (i : nat) (s : str) :
  exec_at (re_op op) i s
  = match op_at op s with
    | Some v => Some (length op + length v, [])
    | None => None
    end.
Proof.
  unfold exec_at, re_op, op_at. simpl.
  destruct (strip_prefix op s) as [[|c t]|]; try reflexivity.
  destruct (not_space c); [|reflexivity].
  erewrite more_first; [reflexivity|]. simpl.
  apply f_equal. apply f_equal2; [simpl; lia|reflexivity].
Qed.

Lemma exec_spaces (i : nat) (s : str) :
  exec_at re_spaces i s
  = match s with
    | c :: t =>
        if is_space c then Some (S (length (take_while is_space t)), [])
        else None
    | [] => None
    end.
Proof.
  unfold exec_at, re_spaces. simpl. destruct s as [|c t]; [reflexivity|].
  destruct (is_space c); [|reflexivity].
  erewrite more_first; [reflexivity|]. simpl.
  apply f_equal. apply f_equal2; [lia|reflexivity].
Qed.

(** ** Words, [split] and [trim] *)

Lemma last_ok_snoc (s : str) (c : char) : last_ok (s ++ [c]) = not_space c.
Proof.
  induction s as [|x s IH]; simpl; [reflexivity|].
  destruct (s ++ [c]) eqn:E; [destruct s; discriminate|exact IH].
Qed.

Lemma last_ok_app (a b : str) : b <> [] -> last_ok (a ++ b) = last_ok b.
Proof.
  intros Hb. induction a as [|x a IH]; simpl; [reflexivity|].
  destruct (a ++ b) eqn:E; [|exact IH].
  apply app_eq_nil in E. destruct E as [_ E]. contradiction.
Qed.

Lemma last_ok_cons (c : char) (s : str) : s <> [] -> last_ok (c :: s) = last_ok s.
Proof. intros H. destruct s; [contradiction|reflexivity]. Qed.

Lemma last_ok_nonempty (s : str) : last_ok s = true -> s <> [].
Proof. destruct s; [discriminate|discriminate]. Qed.

Lemma head_ok_nonempty (s : str) : head_ok s = true -> s <> [].
Proof. destruct s; discriminate. Qed.

Lemma not_space_false (c : char) : not_space c = false <-> is_space c = true.
Proof. unfold not_space. destruct (is_space c); simpl; split; congruence. Qed.

Lemma not_space_true (c : char) : not_space c = true <-> is_space c = false.
Proof. unfold not_space. destruct (is_space c); simpl; split; congruence. Qed.

(** [split] on runs of whitespace gives the words, for a string that neither
    starts nor ends with whitespace. *)
Lemma split_from_words (s : str) :
  (forall i cur, cur <> [] -> last_ok (cur ++ s) = true ->
     split_from re_spaces i 0 cur s = words_acc cur s) /\
  (forall i, last_ok s = true ->
     split_from re_spaces i (length (take_while is_space s)) [] s
     = words_acc [] s).
Proof.
  induction s as [|c s [IHP IHQ]]; split.
  - intros i cur Hcur _. simpl. destruct cur; [contradiction|reflexivity].
  - intros i H. discriminate.
  - intros i cur Hcur Hlast. cbn [split_from words_acc].
    rewrite exec_spaces. destruct (is_space c) eqn:E.
    + assert (Hs : last_ok s = true).
      { destruct s as [|d s].
        - rewrite last_ok_snoc in Hlast. apply not_space_true in Hlast.
          congruence.
        - rewrite last_ok_app in Hlast by discriminate.
          rewrite last_ok_cons in Hlast by discriminate. exact Hlast. }
      rewrite IHQ by exact Hs. destruct cur; [contradiction|reflexivity].
    + apply IHP.
      * destruct cur; discriminate.
      * rewrite <- app_assoc. exact Hlast.
  - intros i Hlast. cbn [take_while words_acc]. destruct (is_space c) eqn:E.
    + cbn [length split_from]. apply IHQ.
      destruct s as [|d s].
      * simpl in Hlast. apply not_space_true in Hlast. congruence.
      * exact Hlast.
    + cbn [length split_from]. rewrite exec_spaces, E. apply IHP.
      * discriminate.
      * exact Hlast.
Qed.

Lemma js_split_words (s : str) :
  head_ok s = true -> last_ok s = true ->
  js_split re_spaces s = words s.
Proof.
  intros Hh Hl. destruct s as [|c s]; [discriminate|].
  unfold js_split, words. simpl in Hh. apply not_space_true in Hh.
  cbn [split_from words_acc]. rewrite exec_spaces, Hh.
  apply (proj1 (split_from_words s)); [discriminate|exact Hl].
Qed.

Lemma drop_while_snoc (p : char -> bool) (a : str) (c : char) :
  drop_while p (a ++ [c])
  = match drop_while p a with
    | [] => if p c then [] else [c]
    | x :: t => (x :: t) ++ [c]
    end.
Proof.
  induction a as [|x a IH]; simpl; [reflexivity|].
  destruct (p x); [exact IH|reflexivity].
Qed.

Lemma trimEnd_cons (c : char) (s : str) :
  trimEnd (c :: s)
  = if is_space c then
      match trimEnd s with
      | [] => []
      | _ :: _ => c :: trimEnd s
      end
    else c :: trimEnd s.
Proof.
  unfold trimEnd. simpl rev at 2. rewrite drop_while_snoc.
  destruct (drop_while is_space (rev s)) as [|x t] eqn:E.
  - simpl. destruct (is_space c); reflexivity.
  - rewrite rev_app_distr. simpl rev at 1. cbn [app].
    destruct (rev (x :: t)) eqn:R.
    + apply (f_equal (@rev char)) in R. rewrite rev_involutive in R.
      discriminate.
    + destruct (is_space c); reflexivity.
Qed.

Lemma trimEnd_head_ok (s : str) : head_ok s = true -> head_ok (trimEnd s) = true.
Proof.
  destruct s as [|c s]; [discriminate|]. simpl. intros H.
  rewrite trimEnd_cons. apply not_space_true in H. rewrite H. simpl.
  apply not_space_true. exact H.
Qed.

Lemma trimEnd_last_ok (s : str) : trimEnd s = [] \/ last_ok (trimEnd s) = true.
Proof.
  induction s as [|c s IH]; [left; reflexivity|].
  rewrite trimEnd_cons. destruct (is_space c) eqn:E.
  - destruct (trimEnd s) eqn:T; [left; reflexivity|].
    right. destruct IH as [IH|IH]; [discriminate|].
    rewrite last_ok_cons by discriminate. exact IH.
  - right. destruct (trimEnd s) eqn:T.
    + simpl. apply not_space_true. exact E.
    + destruct IH as [IH|IH]; [discriminate|].
      rewrite last_ok_cons by discriminate. exact IH.
Qed.

Lemma trimStart_head_ok (s : str) :
  trimStart s = [] \/ head_ok (trimStart s) = true.
Proof.
  unfold trimStart. destruct (drop_while is_space s) as [|c t] eqn:E.
  - left. reflexivity.
  - right. simpl. apply not_space_true. apply (drop_while_head _ _ E).
Qed.

(** A trimmed string is empty, or starts and ends with characters that are
    not whitespace. *)
Lemma trim_ends (s : str) :
  trim s = [] \/ (head_ok (trim s) = true /\ last_ok (trim s) = true).
Proof.
  unfold trim. destruct (trimStart_head_ok s) as [H|H].
  - left. rewrite H. reflexivity.
  - destruct (trimEnd_last_ok (trimStart s)) as [L|L]; [left; exact L|].
    right. split; [apply trimEnd_head_ok; exact H|exact L].
Qed.

Lemma words_acc_trimEnd (s cur : str) :
  words_acc cur (trimEnd s) = words_acc cur s.
Proof.
  revert cur. induction s as [|c s IH]; intros cur; [reflexivity|].
  rewrite trimEnd_cons. cbn [words_acc]. destruct (is_space c) eqn:E.
  - destruct (trimEnd s) as [|x t] eqn:T.
    + rewrite <- (IH []). simpl. reflexivity.
    + cbn [words_acc]. rewrite E. rewrite <- (IH []). reflexivity.
  - cbn [words_acc]. rewrite E. apply IH.
Qed.

Lemma words_trimStart (s : str) : words (trimStart s) = words s.
Proof.
  unfold words, trimStart. induction s as [|c s IH]; [reflexivity|].
  simpl. destruct (is_space c) eqn:E; [exact IH|].
  simpl. rewrite E. reflexivity.
Qed.

(** Trimming changes no word. *)
Lemma words_trim (s : str) : words (trim s) = words s.
Proof.
  unfold trim, words. rewrite words_acc_trimEnd. apply words_trimStart.
Qed.

(** Every word is a non-empty run of characters that are not whitespace. *)
Lemma words_acc_run (s cur w : str) :
  forallb not_space cur = true ->
  In w (words_acc cur s) -> w <> [] /\ forallb not_space w = true.
Proof.
  revert cur. induction s as [|c s IH]; intros cur Hcur; simpl.
  - destruct cur; simpl; [tauto|].
    intros [<-|[]]. split; [discriminate|exact Hcur].
  - destruct (is_space c) eqn:E.
    + destruct cur.
      * apply IH. reflexivity.
      * intros [<-|H]; [split; [discriminate|exact Hcur]|].
        revert H. apply IH. reflexivity.
    + apply IH. rewrite forallb_app, Hcur. simpl.
      unfold not_space. rewrite E. reflexivity.
Qed.

Lemma words_run (s w : str) :
  In w (words s) -> w <> [] /\ forallb not_space w = true.
Proof. apply words_acc_run. reflexivity. Qed.

(** A string with a character that is not whitespace has a word. *)
Lemma words_acc_nonempty (s cur : str) :
  cur <> [] \/ existsb not_space s = true -> words_acc cur s <> [].
Proof.
  revert cur. induction s as [|c s IH]; intros cur H; simpl.
  - destruct H as [H|H]; [|discriminate]. destruct cur; [contradiction|discriminate].
  - destruct (is_space c) eqn:E.
    + destruct cur; [|discriminate]. apply IH.
      destruct H as [H|H]; [contradiction|]. right. simpl in H.
      unfold not_space in H at 1. rewrite E in H. exact H.
    + apply IH. left. destruct cur; discriminate.
Qed.

Lemma words_of_head_ok (s : str) : head_ok s = true -> words s <> [].
Proof.
  intros H. apply words_acc_nonempty. right. destruct s as [|c s]; [discriminate|].
  simpl in *. rewrite H. reflexivity.
Qed.

Lemma forallb_last_ok (s : str) :
  s <> [] -> forallb not_space s = true -> last_ok s = true.
Proof.
  induction s as [|c s IH]; [contradiction|]. intros _ H. simpl in H.
  apply andb_true_iff in H. destruct H as [H1 H2].
  destruct s as [|d s]; [exact H1|].
  rewrite last_ok_cons by discriminate. apply IH; [discriminate|exact H2].
Qed.

(** ** The loops over the filters *)

Lemma fold_left_push (A B : Type) (g : B -> A) (l : list B) (acc : list A) :
  fold_left (fun acc x => acc ++ [g x]) l acc = acc ++ map g l.
Proof.
  revert acc. induction l as [|x l IH]; intros acc; simpl.
  - rewrite app_nil_r. reflexivity.
  - rewrite IH, <- app_assoc. reflexivity.
Qed.

Lemma fold_left_appending (A B : Type) (step : list A -> B -> list A)
  (g : B -> list A) (l : list B) (acc : list A) :
  (forall acc x, step acc x = acc ++ g x) ->
  fold_left step l acc = acc ++ flat_map g l.
Proof.
  intros H. revert acc. induction l as [|x l IH]; intros acc; simpl.
  - rewrite app_nil_r. reflexivity.
  - rewrite IH, H, <- app_assoc. reflexivity.
Qed.

Ltac id_case i :=
  match goal with
  | |- context [str_eqb (lit ?a) i] =>
      let E := fresh "E" in
      destruct (str_eqb (lit a) i) eqn:E;
      [apply str_eqb_eq in E; subst i|]
  end.

Ltac eval_ids :=
  repeat match goal with
  | |- context [str_eqb (lit ?a) (lit ?b)] =>
      let r := eval vm_compute in (str_eqb (lit a) (lit b)) in
      change (str_eqb (lit a) (lit b)) with r
  end.

Lemma build_step_tokens (parts : list str) (f : ActiveTextFilter) :
  build_step parts f = parts ++ tokens_of f.
Proof.
  destruct f as [i v].
  unfold build_step, tokens_of, inert, known_id, catalog_ids, find_config,
    TEXT_FILTERS.
  cbn [id value find existsb cfg_id cfg_operator].
  repeat id_case i; cbn [cfg_id cfg_operator]; eval_ids;
    cbn [orb negb andb]; try rewrite E, E0, E1, E2, E3, E4, E5;
    cbn [orb negb andb];
    try (destruct (truthy (trim v)) eqn:T; cbn [negb app];
         [|rewrite app_nil_r; reflexivity]);
    try reflexivity.
  - rewrite fold_left_push. destruct (trim_ends v) as [H|[H1 H2]].
    + rewrite H in T. discriminate.
    + rewrite js_split_words by assumption. reflexivity.
  - rewrite app_nil_r. reflexivity.
Qed.

Lemma buildQueryString_tokens (fs : list ActiveTextFilter) :
  buildQueryString fs = join (lit " ") (flat_map tokens_of fs).
Proof.
  unfold buildQueryString.
  rewrite (fold_left_appending build_step tokens_of); [reflexivity|].
  intros acc x. apply build_step_tokens.
Qed.

(** Every token starts and ends with a character that is not whitespace. *)
Lemma tokens_of_ends (f : ActiveTextFilter) (t : str) :
  In t (tokens_of f) -> head_ok t = true /\ last_ok t = true.
Proof.
  unfold tokens_of. destruct (inert f) eqn:I; [intros []|].
  unfold inert in I. apply orb_false_iff in I. destruct I as [_ I].
  apply negb_false_iff in I.
  destruct (trim_ends (value f)) as [H|[H1 H2]]; [rewrite H in I; discriminate|].
  assert (N : trim (value f) <> []) by (apply head_ok_nonempty; exact H1).
  repeat match goal with
         | |- context [if ?b then _ else _] => destruct b
         end;
    try (intros [<-|[]]; split;
         [reflexivity|rewrite last_ok_app by exact N; exact H2]).
  - intros [<-|[]]. split; [reflexivity|].
    change (c_quote :: trim (value f) ++ [c_quote])
      with ((c_quote :: trim (value f)) ++ [c_quote]).
    rewrite last_ok_snoc. reflexivity.
  - intros H. apply in_map_iff in H. destruct H as [w [<- Hw]].
    apply words_run in Hw. destruct Hw as [W1 W2]. split; [reflexivity|].
    rewrite last_ok_cons by exact W1. apply forallb_last_ok; assumption.
  - intros [<-|[]]. split; [reflexivity|].
    rewrite last_ok_cons by exact N. exact H2.
Qed.

Lemma join_ends (sep : str) (l : list str) :
  l <> [] ->
  (forall t, In t l -> head_ok t = true /\ last_ok t = true) ->
  head_ok (join sep l) = true /\ last_ok (join sep l) = true.
Proof.
  induction l as [|x l IH]; [contradiction|]. intros _ H.
  destruct (H x (or_introl eq_refl)) as [Hx1 Hx2].
  destruct l as [|y l]; [split; assumption|].
  change (join sep (x :: y :: l)) with (x ++ sep ++ join sep (y :: l)).
  destruct IH as [IH1 IH2]; [discriminate|intros t Ht; apply H; right; exact Ht|].
  split.
  - destruct x; [discriminate|exact Hx1].
  - rewrite app_assoc. rewrite last_ok_app; [exact IH2|].
    apply last_ok_nonempty. exact IH2.
Qed.

(** C4: buildQueryString renders each entry by its id (the exact phrase between
    double quotes, one dash token for each word of an exclude value, the
    hashtag after its sign, the operator token followed by the trimmed value
    for after, before, intitle and channel), passes over the entries with an
    unknown id or a blank value, gives the empty string for the empty list, and
    joins the tokens in the order of the entries with single spaces, so that
    the result neither starts nor ends with whitespace. *)
Theorem buildQueryString_spec :
  (forall fs : list ActiveTextFilter,
     buildQueryString fs = join [c_sp] (flat_map tokens_of fs)) /\
  buildQueryString [] = [] /\
  (forall (pre post : list ActiveTextFilter) (f : ActiveTextFilter),
     inert f = true ->
     buildQueryString (pre ++ f :: post) = buildQueryString (pre ++ post)) /\
  (forall fs : list ActiveTextFilter,
     buildQueryString fs = [] \/
     (head_ok (buildQueryString fs) = true /\
      last_ok (buildQueryString fs) = true)).
Proof.
  split; [exact buildQueryString_tokens|].
  split; [reflexivity|]. split.
  - intros pre post f I. rewrite !buildQueryString_tokens.
    rewrite !flat_map_app. cbn [flat_map]. unfold tokens_of at 2.
    rewrite I. reflexivity.
  - intros fs. rewrite buildQueryString_tokens.
    destruct (flat_map tokens_of fs) as [|t l] eqn:E; [left; reflexivity|].
    right. apply join_ends; [discriminate|].
    intros t' Ht. rewrite <- E in Ht. apply in_flat_map in Ht.
    destruct Ht as [f [_ Hf]]. apply (tokens_of_ends f). exact Hf.
Qed.

(** ** The preview lines *)

(** The connectors that one entry adds after the lines [lines]. *)
Lemma preview_step_connectors (lines : list PreviewLine) (f : ActiveTextFilter) :
  map connector (preview_step lines f)
  = map connector lines ++
    (if inert f then []
     else if str_eqb (lit "exclude") (id f) then
       map (fun _ => CNOT) (words (value f))
     else [and_or_empty lines]).
Proof.
  destruct f as [i v].
  unfold preview_step, inert, known_id, catalog_ids, find_config, TEXT_FILTERS.
  cbn [id value find existsb cfg_id cfg_operator].
  repeat id_case i; cbn [cfg_id cfg_operator]; eval_ids;
    cbn [orb negb andb]; try rewrite E, E0, E1, E2, E3, E4, E5;
    cbn [orb negb andb];
    try (destruct (truthy (trim v)) eqn:T; cbn [negb app];
         [|rewrite app_nil_r; reflexivity]);
    try (rewrite map_app; reflexivity).
  - rewrite fold_left_push, map_app, map_map. cbn [connector].
    destruct (trim_ends v) as [H|[H1 H2]].
    + rewrite H in T. discriminate.
    + rewrite js_split_words by assumption. rewrite words_trim.
      reflexivity.
  - rewrite app_nil_r. reflexivity.
Qed.

Lemma words_not_inert (f : ActiveTextFilter) :
  inert f = false -> words (value f) <> [].
Proof.
  unfold inert. intros I. apply orb_false_iff in I. destruct I as [_ I].
  apply negb_false_iff in I. rewrite <- words_trim.
  destruct (trim_ends (value f)) as [H|[H1 _]]; [rewrite H in I; discriminate|].
  apply words_of_head_ok. exact H1.
Qed.

Lemma loop_connectors (fs : list ActiveTextFilter) (lines : list PreviewLine) :
  map connector (fold_left preview_step fs lines)
  = map connector lines
    ++ connectors_of (Nat.eqb (length lines) 0) fs.
Proof.
  revert lines. induction fs as [|f fs IH]; intros lines;
    cbn [fold_left connectors_of].
  - rewrite app_nil_r. reflexivity.
  - rewrite IH.
    assert (L : length (preview_step lines f)
                = length (map connector (preview_step lines f)))
      by (rewrite length_map; reflexivity).
    rewrite L, preview_step_connectors.
    destruct (inert f) eqn:I.
    + rewrite app_nil_r, length_map. reflexivity.
    + destruct (str_eqb (lit "exclude") (id f)).
      * rewrite <- app_assoc. f_equal. f_equal. rewrite length_app.
        pose proof (words_not_inert f I) as W.
        destruct (words (value f)); [contradiction|].
        cbn [map length]. rewrite Nat.add_comm. reflexivity.
      * rewrite <- app_assoc. cbn [app]. f_equal. unfold and_or_empty.
        f_equal. rewrite length_app. cbn [length].
        rewrite Nat.add_comm. reflexivity.
Qed.

Lemma buildPreviewLines_connectors (fs : list ActiveTextFilter)
  (o : option PreviewOptions) :
  map connector (buildPreviewLines fs o)
  = connectors_of true fs ++ (if shorts_on o then [CNOT] else []).
Proof.
  unfold buildPreviewLines. destruct (shorts_on o).
  - rewrite map_app, loop_connectors. reflexivity.
  - rewrite loop_connectors, app_nil_r. reflexivity.
Qed.

Lemma connectors_of_nil (fs : list ActiveTextFilter) (first : bool) :
  connectors_of first fs = [] <-> forallb inert fs = true.
Proof.
  revert first. induction fs as [|f fs IH]; intros first;
    cbn [connectors_of forallb].
  - tauto.
  - destruct (inert f) eqn:I; cbn [andb]; [apply IH|].
    split; [|discriminate].
    destruct (str_eqb (lit "exclude") (id f)); [|discriminate].
    intros H. apply app_eq_nil in H. destruct H as [H _].
    apply map_eq_nil in H. apply words_not_inert in I. contradiction.
Qed.

(** C7: the connectors of the lines of buildPreviewLines, entry after entry:
    an inert entry gives no line; an exclude entry gives one line for each
    word of its value, each with NOT, first line or not; every other entry
    gives one line, with the empty connector when no line came before it and
    with AND otherwise.  The line of the excludeShorts option, with NOT, comes
    after the lines of the entries. *)
Theorem buildPreviewLines_connector_rule :
  forall (fs : list ActiveTextFilter) (o : option PreviewOptions),
    map connector (buildPreviewLines fs o)
    = connectors_of true fs ++ (if shorts_on o then [CNOT] else []).
Proof. exact buildPreviewLines_connectors. Qed.

(** C8, the claim as it is written, refuted: a list that is not empty and
    holds only a blank entry gives no line. *)
Lemma buildPreviewLines_blank_entry :
  buildPreviewLines [ {| id := lit "intitle"; value := lit "  " |} ] None = []
  /\ [ {| id := lit "intitle"; value := lit "  " |} ] <> [].
Proof. split; [vm_compute; reflexivity|discriminate]. Qed.

(** C8, amended: buildPreviewLines returns the empty array exactly when every
    entry of the list is inert and excludeShorts is not set; when
    excludeShorts is set, the result is the lines of the entries followed by
    the one line NOT Shorts, which is the only line for the empty list. *)
Theorem buildPreviewLines_empty_iff :
  (forall (fs : list ActiveTextFilter) (o : option PreviewOptions),
     buildPreviewLines fs o = []
     <-> forallb inert fs = true /\ shorts_on o = false) /\
  (forall fs : list ActiveTextFilter,
     buildPreviewLines fs (Some {| excludeShorts := Some true |})
     = buildPreviewLines fs None
       ++ [ {| connector := CNOT; label := lit "Shorts"; line_value := [] |} ])
  /\
  buildPreviewLines [] (Some {| excludeShorts := Some true |})
  = [ {| connector := CNOT; label := lit "Shorts"; line_value := [] |} ].
Proof.
  split; [|split; reflexivity].
  intros fs o. split.
  - intros H. apply (f_equal (map connector)) in H.
    rewrite buildPreviewLines_connectors in H. cbn [map] in H.
    apply app_eq_nil in H. destruct H as [H1 H2].
    apply connectors_of_nil in H1. split; [exact H1|].
    destruct (shorts_on o); [discriminate|reflexivity].
  - intros [H1 H2]. apply map_eq_nil with (f := connector).
    rewrite buildPreviewLines_connectors, H2, app_nil_r.
    apply connectors_of_nil. exact H1.
Qed.
(** ** The examples of the test suite, run on the embedding *)

Example test_build_combined :
  buildQueryString
    [ {| id := lit "after"; value := lit "2024-01-01" |};
      {| id := lit "before"; value := lit "2024-12-31" |};
      {| id := lit "intitle"; value := lit "  review  " |};
      {| id := lit "nonexistent"; value := lit "hello" |};
      {| id := lit "exclude"; value := lit "tutorial   beginner" |} ]
  = lit "after:2024-01-01 before:2024-12-31 intitle:review -tutorial -beginner".
Proof. vm_compute. reflexivity. Qed.

Example test_parse_complex :
  parseQueryFilters
    (lit "react hooks after:2024-01-01 before:2024-12-31 intitle:tutorial "
     ++ [c_quote] ++ lit "best practices" ++ [c_quote]
     ++ lit " -beginner -x channel:fireship #webdev")
  = [ {| id := lit "after"; value := lit "2024-01-01" |};
      {| id := lit "before"; value := lit "2024-12-31" |};
      {| id := lit "intitle"; value := lit "tutorial" |};
      {| id := lit "exact"; value := lit "best practices" |};
      {| id := lit "exclude"; value := lit "beginner x" |};
      {| id := lit "channel"; value := lit "fireship" |};
      {| id := lit "hashtag"; value := lit "webdev" |} ].
Proof. vm_compute. reflexivity. Qed.

Example test_strip_complex :
  stripOperators
    (lit "react hooks after:2024-01-01 before:2024-12-31 intitle:tutorial "
     ++ [c_quote] ++ lit "best practices" ++ [c_quote]
     ++ lit " -beginner channel:fireship #webdev")
  = lit "react hooks".
Proof. vm_compute. reflexivity. Qed.

Example test_strip_whitespace :
  stripOperators (lit "python   after:2024-01-01   tutorial")
  = lit "python tutorial".
Proof. vm_compute. reflexivity. Qed.

Example test_csv_quotes :
  csvEscape (lit "say " ++ [c_quote] ++ lit "hello" ++ [c_quote])
  = [c_quote] ++ lit "say " ++ [c_quote; c_quote] ++ lit "hello"
    ++ [c_quote; c_quote; c_quote].
Proof. vm_compute. reflexivity. Qed.

Example test_preview_exclude :
  map connector
    (buildPreviewLines
       [ {| id := lit "after"; value := lit "2024-01-01" |};
         {| id := lit "exclude"; value := lit "tutorial beginner" |} ] None)
  = [CEmpty; CNOT; CNOT].
Proof. vm_compute. reflexivity. Qed.

(** ** The CSV escaper *)

(** The replacement of one character by a string, character by character. *)
Lemma replace_char_flat_map (q : char) (rep : str) (s : str) (i : nat) :
  replace_from (Lit [q]) rep i 0 s
  = flat_map (fun c => if ch_eqb q c then rep else [c]) s.
Proof.
  revert i. induction s as [|c s IH]; intros i.
  - reflexivity.
  - simpl. unfold exec_at. simpl. destruct (ch_eqb q c).
    + replace (i + 1 - i) with 1 by lia. rewrite IH. reflexivity.
    + rewrite IH. reflexivity.
Qed.

(** C9: csvEscape leaves a value without comma, double quote, line feed or
    carriage return as it is, the empty string included; any other value comes
    back with each of its double quotes doubled, between two double quotes. *)
Theorem csvEscape_spec :
  csvEscape [] = [] /\
  forall v : str,
    csvEscape v =
    if existsb (fun c => ch_eqb c_comma c || ch_eqb c_quote c
                         || ch_eqb c_lf c || ch_eqb c_cr c) v
    then c_quote ::
         flat_map (fun c => if ch_eqb c_quote c then [c_quote; c_quote]
                            else [c]) v
         ++ [c_quote]
    else v.
Proof.
  split; [reflexivity|].
  intros v. unfold csvEscape, js_replace_all, re_quote.
  change (lit ",") with [c_comma].
  rewrite !includes_char, replace_char_flat_map.
  assert (E : existsb (ch_eqb c_comma) v || existsb (ch_eqb c_quote) v
              || existsb (ch_eqb c_lf) v || existsb (ch_eqb c_cr) v
              = existsb (fun c => ch_eqb c_comma c || ch_eqb c_quote c
                                  || ch_eqb c_lf c || ch_eqb c_cr c) v).
  { induction v as [|c v IH]; cbn [existsb]; [reflexivity|].
    rewrite <- IH.
    destruct (ch_eqb c_comma c), (ch_eqb c_quote c), (ch_eqb c_lf c),
      (ch_eqb c_cr c), (existsb (ch_eqb c_comma) v),
      (existsb (ch_eqb c_quote) v), (existsb (ch_eqb c_lf) v); reflexivity. }
  rewrite E. reflexivity.
Qed.

(** ** The searches of the parser *)

Lemma run_op_capture (op : str) (i j : nat) (s : str) (caps : list str) :
  run (re_op_capture op) j s caps (fun e _ caps' => Some (e - i, caps'))
  = match op_at op s with
    | Some v => Some (j + length op + length v - i, caps ++ [v])
    | None => None
    end.
Proof.
  unfold re_op_capture, op_at. simpl.
  destruct (strip_prefix op s) as [[|c t]|]; try reflexivity.
  destruct (not_space c); [|reflexivity].
  erewrite more_first; [reflexivity|]. simpl.
  apply f_equal. apply f_equal2.
  - simpl. lia.
  - replace (S (j + length op) + length (take_while not_space t)
             - (j + length op))
      with (S (length (take_while not_space t))) by lia.
    simpl. rewrite firstn_take_while. reflexivity.
Qed.

Lemma op_at_some (op s v : str) :
  op_at op s = Some v ->
  v <> [] /\ forallb not_space v = true /\
  s = op ++ v ++ drop_while not_space (skipn (length op + length v) s) /\
  head_ok (skipn (length op + length v) s) = false /\
  firstn (length op + length v) s = op ++ v.
Proof.
  unfold op_at. destruct (strip_prefix op s) as [[|c t]|] eqn:E; try discriminate.
  destruct (not_space c) eqn:C; [|discriminate]. intros H. injection H as <-.
  apply strip_prefix_some in E. subst s.
  assert (K : skipn (length op + length (c :: take_while not_space t))
                (op ++ c :: t) = drop_while not_space t).
  { rewrite skipn_app, skipn_all2 by lia.
    replace (length op + length (c :: take_while not_space t) - length op)
      with (S (length (take_while not_space t))) by (simpl; lia).
    simpl. apply skipn_take_while. }
  split; [discriminate|]. split; [|split; [|split]].
  - simpl. rewrite C. apply take_while_all.
  - rewrite K. f_equal. simpl. f_equal.
    assert (D : forall u, drop_while not_space (drop_while not_space u)
                          = drop_while not_space u).
    { intros u. destruct (drop_while not_space u) as [|x r] eqn:D;
        [reflexivity|].
      simpl. rewrite (drop_while_head _ _ D). reflexivity. }
    rewrite D. symmetry. apply take_drop_while.
  - rewrite K. destruct (drop_while not_space t) as [|x r] eqn:D;
      [reflexivity|].
    simpl. apply (drop_while_head _ _ D).
  - rewrite firstn_app, firstn_all2 by lia. f_equal.
    replace (length op + length (c :: take_while not_space t) - length op)
      with (S (length (take_while not_space t))) by (simpl; lia).
    simpl. rewrite firstn_take_while. reflexivity.
Qed.

(** The search for an operator and its run of characters finds what
    [find_op] finds. *)
Lemma search_op_capture (op : str) (s : str) (i : nat) :
  search (re_op_capture op) i s
  = match find_op op s with
    | Some v => Some [op ++ v; v]
    | None => None
    end.
Proof.
  revert i. induction s as [|c s IH]; intros i.
  - cbn [search find_op]. unfold exec_at. rewrite run_op_capture.
    destruct (op_at op []) eqn:E; [|reflexivity].
    destruct (op_at_some _ _ E) as (_ & _ & _ & _ & F).
    replace (0 + length op + length s - 0) with (length op + length s) by lia.
    replace (i + length op + length s - i) with (length op + length s) by lia.
    rewrite F. reflexivity.
  - cbn [search find_op]. unfold exec_at. rewrite run_op_capture.
    destruct (op_at op (c :: s)) eqn:E.
    + destruct (op_at_some _ _ E) as (_ & _ & _ & _ & F).
      replace (i + length op + length s0 - i) with (length op + length s0)
        by lia.
      rewrite F. reflexivity.
    + apply IH.
Qed.

Lemma push_match_op (ident op q : str) (filters : list ActiveTextFilter) :
  push_match ident (js_match (re_op_capture op) q) filters
  = filters ++ entry_of ident (find_op op q).
Proof.
  unfold push_match, js_match. rewrite search_op_capture.
  destruct (find_op op q); simpl; [reflexivity|].
  rewrite app_nil_r. reflexivity.
Qed.

(** [find_op] finds the leftmost place where the operator token is followed
    by a character that is not whitespace, and gives the whole run of such
    characters there. *)
Lemma find_op_some (op s v : str) :
  find_op op s = Some v ->
  exists pre post,
    s = pre ++ op ++ v ++ post /\
    v <> [] /\ forallb not_space v = true /\ head_ok post = false /\
    forall pre' c post',
      s = pre' ++ op ++ c :: post' -> not_space c = true ->
      length pre <= length pre'.
Proof.
  induction s as [|x s IH].
  - simpl. destruct (op_at op []) eqn:E; [|discriminate].
    intros H. injection H as ->.
    destruct (op_at_some _ _ E) as (V1 & V2 & V3 & V4 & _).
    exists [], (drop_while not_space (skipn (length op + length v) [])).
    repeat split; try assumption.
    + destruct (drop_while not_space _) as [|y r] eqn:D; [reflexivity|].
      simpl. apply (drop_while_head _ _ D).
    + intros. simpl. lia.
  - cbn [find_op]. destruct (op_at op (x :: s)) eqn:E.
    + intros H. injection H as ->.
      destruct (op_at_some _ _ E) as (V1 & V2 & V3 & V4 & _).
      exists [], (drop_while not_space (skipn (length op + length v) (x :: s))).
      repeat split; try assumption.
      * destruct (drop_while not_space _) as [|y r] eqn:D; [reflexivity|].
        simpl. apply (drop_while_head _ _ D).
      * intros. simpl. lia.
    + intros H. destruct (IH H) as (pre & post & S1 & V1 & V2 & P & M).
      exists (x :: pre), post. repeat split; try assumption.
      * simpl. rewrite S1. reflexivity.
      * intros pre' c post' S2 C. destruct pre' as [|y pre'].
        -- exfalso. simpl in S2. unfold op_at in E. rewrite S2 in E.
           rewrite strip_prefix_app in E. rewrite C in E. discriminate.
        -- simpl in S2. injection S2 as _ S2. simpl.
           apply le_n_S. apply (M pre' c post'); assumption.
Qed.

Lemma find_op_none (op s : str) :
  find_op op s = None ->
  forall pre c post, s = pre ++ op ++ c :: post -> not_space c = false.
Proof.
  induction s as [|x s IH]; cbn [find_op].
  - destruct (op_at op []) eqn:E; [discriminate|]. intros _ pre c post S1.
    destruct pre; [|discriminate]. simpl in S1. unfold op_at in E.
    rewrite S1, strip_prefix_app in E.
    destruct (not_space c); [discriminate|reflexivity].
  - destruct (op_at op (x :: s)) eqn:E; [discriminate|].
    intros H pre c post S1. destruct pre as [|y pre].
    + simpl in S1. unfold op_at in E. rewrite S1, strip_prefix_app in E.
      destruct (not_space c); [discriminate|reflexivity].
    + simpl in S1. injection S1 as _ S1. apply (IH H pre c post S1).
Qed.

(** ** Matches with the [g] flag *)

Lemma matches_from_skip (r : re) (k i : nat) (s : str) :
  k <= length s ->
  matches_from r i k s = matches_from r (i + k) 0 (skipn k s).
Proof.
  revert i s. induction k as [|k IH]; intros i s H.
  - rewrite Nat.add_0_r. reflexivity.
  - destruct s as [|c s]; [simpl in H; lia|].
    cbn [matches_from skipn]. rewrite IH by (simpl in H; lia).
    f_equal. lia.
Qed.

Lemma replace_from_skip (r : re) (rep : str) (k i : nat) (s : str) :
  k <= length s ->
  replace_from r rep i k s = replace_from r rep (i + k) 0 (skipn k s).
Proof.
  revert i s. induction k as [|k IH]; intros i s H.
  - rewrite Nat.add_0_r. reflexivity.
  - destruct s as [|c s]; [simpl in H; lia|].
    cbn [replace_from skipn]. rewrite IH by (simpl in H; lia).
    f_equal. lia.
Qed.

(** The step of the search with the [g] flag at an index where a match of
    [n] characters, [n] not zero, starts. *)
Lemma matches_from_hit (r : re) (i n : nat) (caps : list str) (s : str) :
  exec_at r i s = Some (S n, caps) -> S n <= length s ->
  matches_from r i 0 s
  = firstn (S n) s :: matches_from r (i + S n) 0 (skipn (S n) s).
Proof.
  intros E L. destruct s as [|c s]; [simpl in L; lia|].
  cbn [matches_from]. rewrite E. f_equal.
  replace (S n - 1) with n by lia.
  rewrite matches_from_skip by (simpl in L; lia).
  cbn [skipn]. f_equal. lia.
Qed.

Lemma matches_from_miss (r : re) (i : nat) (c : char) (s : str) :
  exec_at r i (c :: s) = None ->
  matches_from r i 0 (c :: s) = matches_from r (S i) 0 s.
Proof. intros E. cbn [matches_from]. rewrite E. reflexivity. Qed.

Lemma exec_exact_capture (i : nat) (s : str) :
  exec_at re_exact_capture i s
  = match quoted_at s with
    | Some v => Some (S (S (length v)), [v])
    | None => None
    end.
Proof.
  unfold exec_at, re_exact_capture, quoted_at.
  destruct s as [|q [|c t]]; cbn [run strip_prefix].
  - reflexivity.
  - destruct (ch_eqb c_quote q); reflexivity.
  - destruct (ch_eqb c_quote q); [|reflexivity]. cbn [andb].
    destruct (not_quote c) eqn:C; [|reflexivity].
    rewrite more_blocked.
    + cbn [run]. destruct (drop_while not_quote t) as [|x r] eqn:D.
      * reflexivity.
      * cbn [strip_prefix]. pose proof (drop_while_head _ _ D) as X.
        unfold not_quote in X. apply negb_false_iff in X.
        apply ch_eqb_eq in X. subst x. rewrite ch_eqb_refl.
        apply f_equal. apply f_equal2.
        -- cbn [length]. lia.
        -- cbn [app]. f_equal.
           replace (S (i + length [c_quote]) + length (take_while not_quote t)
                    - (i + length [c_quote]))
             with (S (length (take_while not_quote t))) by lia.
           cbn [firstn]. rewrite firstn_take_while. reflexivity.
    + intros j x u X. cbn [run strip_prefix].
      unfold not_quote in X. apply negb_true_iff in X.
      replace (ch_eqb c_quote x) with false; [reflexivity|].
      symmetry. apply ch_eqb_neq. apply ch_eqb_neq in X. congruence.
Qed.

(** ** The quoted spans *)

Lemma firstn_len_app (A : Type) (a b : list A) : firstn (length a) (a ++ b) = a.
Proof. induction a as [|x a IH]; simpl; [destruct b|rewrite IH]; reflexivity. Qed.

Lemma skipn_len_app (A : Type) (a b : list A) : skipn (length a) (a ++ b) = b.
Proof. induction a as [|x a IH]; simpl; [|rewrite IH]; reflexivity. Qed.

Lemma drop_while_nil_all (p : char -> bool) (s : str) :
  drop_while p s = [] -> forallb p s = true.
Proof.
  induction s as [|c s IH]; simpl; [reflexivity|].
  destruct (p c); [exact IH|discriminate].
Qed.

Lemma quoted_at_some (s v : str) :
  quoted_at s = Some v ->
  exists rest,
    s = c_quote :: v ++ c_quote :: rest /\
    v <> [] /\ forallb not_quote v = true.
Proof.
  unfold quoted_at. destruct s as [|q [|c t]]; try discriminate.
  destruct (ch_eqb c_quote q) eqn:Q; [|discriminate]. cbn [andb].
  destruct (not_quote c) eqn:C; [|discriminate].
  destruct (drop_while not_quote t) as [|x r] eqn:D; [discriminate|].
  intros H. injection H as <-. exists r.
  apply ch_eqb_eq in Q. subst q.
  pose proof (drop_while_head _ _ D) as X.
  unfold not_quote in X. apply negb_false_iff in X. apply ch_eqb_eq in X.
  subst x. split; [|split].
  - cbn [app]. do 2 f_equal. rewrite <- D. symmetry. apply take_drop_while.
  - discriminate.
  - cbn [forallb]. rewrite C. apply take_while_all.
Qed.

Lemma not_quote_neq (c : char) : not_quote c = true -> ch_eqb c_quote c = false.
Proof.
  unfold not_quote. intros H. apply negb_true_iff in H.
  apply ch_eqb_neq. apply ch_eqb_neq in H. congruence.
Qed.

Lemma spans_no_quote (s : str) (o : option str) :
  forallb not_quote s = true -> spans o s = [].
Proof.
  revert o. induction s as [|c s IH]; intros o; [reflexivity|].
  cbn [forallb spans]. intros H. apply andb_true_iff in H.
  destruct H as [H1 H2]. rewrite (not_quote_neq _ H1).
  destruct o; apply IH; exact H2.
Qed.

Lemma spans_open_run (v a r : str) :
  forallb not_quote v = true ->
  spans (Some a) (v ++ c_quote :: r)
  = match a ++ v with
    | [] => spans (Some []) r
    | x :: w => (x :: w) :: spans None r
    end.
Proof.
  revert a. induction v as [|c v IH]; intros a H.
  - rewrite app_nil_r. cbn [app spans]. rewrite ch_eqb_refl. reflexivity.
  - cbn [forallb] in H. apply andb_true_iff in H. destruct H as [H1 H2].
    cbn [app spans]. rewrite (not_quote_neq _ H1). rewrite IH by exact H2.
    rewrite <- app_assoc. reflexivity.
Qed.

Lemma unquote_span (v : str) :
  forallb not_quote v = true ->
  js_replace_all re_quote [] (c_quote :: v ++ [c_quote]) = v.
Proof.
  intros H. unfold js_replace_all, re_quote. rewrite replace_char_flat_map.
  cbn [flat_map]. rewrite ch_eqb_refl. cbn [app].
  induction v as [|c v IH]; cbn [app flat_map].
  - rewrite ch_eqb_refl. reflexivity.
  - cbn [forallb] in H. apply andb_true_iff in H. destruct H as [H1 H2].
    rewrite (not_quote_neq _ H1). cbn [app]. f_equal. apply IH. exact H2.
Qed.

(** The matches of the quoted span pattern, their double quotes removed, are
    the quoted spans. *)
Lemma matches_exact_spans (n : nat) :
  forall (s : str) (i : nat),
    length s <= n ->
    map (js_replace_all re_quote []) (matches_from re_exact_capture i 0 s)
    = spans None s.
Proof.
  induction n as [|n IH]; intros s i L.
  - destruct s; [|simpl in L; lia]. reflexivity.
  - destruct s as [|c s]; [reflexivity|].
    destruct (quoted_at (c :: s)) as [v|] eqn:Q.
    + destruct (quoted_at_some _ Q) as (rest & S1 & V1 & V2).
      assert (Ln : S (S (length v)) <= length (c :: s)).
      { rewrite S1. cbn [length]. rewrite length_app. cbn [length]. lia. }
      rewrite (@matches_from_hit _ _ (S (length v)) [v])
        by (rewrite ?exec_exact_capture, ?Q; auto).
      cbn [map]. rewrite S1.
      assert (A : c_quote :: v ++ c_quote :: rest
                  = (c_quote :: v ++ [c_quote]) ++ rest).
      { cbn [app]. rewrite <- app_assoc. reflexivity. }
      assert (B : S (S (length v)) = length (c_quote :: v ++ [c_quote])).
      { cbn [length]. rewrite length_app. cbn [length]. lia. }
      rewrite A, B, firstn_len_app, skipn_len_app. rewrite <- A.
      rewrite unquote_span by exact V2. rewrite IH.
      2:{ rewrite S1 in L. cbn [length] in L. rewrite length_app in L.
          cbn [length] in L. lia. }
      cbn [spans]. rewrite ch_eqb_refl. rewrite spans_open_run by exact V2.
      cbn [app]. destruct v; [contradiction|reflexivity].
    + rewrite matches_from_miss by (rewrite exec_exact_capture, Q; reflexivity).
      rewrite IH by (simpl in L; lia).
      cbn [spans]. destruct (ch_eqb c_quote c) eqn:C; [|reflexivity].
      destruct s as [|d t]; [reflexivity|].
      cbn [spans]. destruct (ch_eqb c_quote d) eqn:D; [reflexivity|].
      unfold quoted_at in Q. rewrite C in Q. cbn [andb] in Q.
      assert (ND : not_quote d = true).
      { unfold not_quote. apply negb_true_iff. apply ch_eqb_neq.
        apply ch_eqb_neq in D. congruence. }
      rewrite ND in Q.
      destruct (drop_while not_quote t) eqn:W; [|discriminate].
      apply drop_while_nil_all in W.
      rewrite !spans_no_quote by exact W. reflexivity.
Qed.

Lemma spans_nonempty (s : str) (o : option str) (v : str) :
  In v (spans o s) -> v <> [].
Proof.
  revert o. induction s as [|c s IH]; intros o; [intros []|].
  cbn [spans]. destruct (ch_eqb c_quote c).
  - destruct o as [[|x w]|]; try apply IH.
    intros [<-|H]; [discriminate|]. revert H. apply IH.
  - destruct o; apply IH.
Qed.

(** ** The dash words *)

Lemma exec_exclude_capture (i : nat) (s : str) :
  exec_at re_exclude_capture i s
  = match (if Nat.eqb i 0 then op_at [c_dash] s else None) with
    | Some w => Some (1 + length w, [w])
    | None =>
        match s with
        | c :: s' =>
            if is_space c then
              match op_at [c_dash] s' with
              | Some w => Some (2 + length w, [w])
              | None => None
              end
            else None
        | [] => None
        end
    end.
Proof.
  change (exec_at re_exclude_capture i s)
    with (match (if Nat.eqb i 0 then
                   run (re_op_capture [c_dash]) i s []
                     (fun e _ caps => Some (e - i, caps))
                 else None) with
          | Some x => Some x
          | None =>
              match s with
              | [] => None
              | c :: s' =>
                  if is_space c then
                    run (re_op_capture [c_dash]) (S i) s' []
                      (fun e _ caps => Some (e - i, caps))
                  else None
              end
          end).
  assert (Second :
    match s with
    | [] => None
    | c :: s' =>
        if is_space c then
          run (re_op_capture [c_dash]) (S i) s' []
            (fun e _ caps => Some (e - i, caps))
        else None
    end
    = match s with
      | c :: s' =>
          if is_space c then
            match op_at [c_dash] s' with
            | Some w => Some (2 + length w, [w])
            | None => None
            end
          else None
      | [] => None
      end).
  { destruct s as [|c s']; [reflexivity|].
    destruct (is_space c); [|reflexivity].
    rewrite run_op_capture. destruct (op_at [c_dash] s'); [|reflexivity].
    cbn [app length]. apply f_equal. apply f_equal2; [lia|reflexivity]. }
  rewrite Second. destruct (Nat.eqb i 0) eqn:Z; [|reflexivity].
  rewrite run_op_capture. destruct (op_at [c_dash] s) as [w|]; [|reflexivity].
  cbn [app length]. apply f_equal. apply f_equal2; [lia|reflexivity].
Qed.

Lemma trimEnd_id (s : str) : last_ok s = true -> trimEnd s = s.
Proof.
  induction s as [|c s IH]; [discriminate|].
  intros H. rewrite trimEnd_cons. destruct s as [|d s].
  - simpl in H. apply not_space_true in H. rewrite H. reflexivity.
  - rewrite last_ok_cons in H by discriminate. rewrite IH by exact H.
    destruct (is_space c); reflexivity.
Qed.

Lemma trim_id (s : str) : head_ok s = true -> last_ok s = true -> trim s = s.
Proof.
  intros H L. unfold trim, trimStart. destruct s as [|c s]; [discriminate|].
  simpl in H. apply not_space_true in H. cbn [drop_while]. rewrite H.
  apply trimEnd_id. exact L.
Qed.

Lemma exclude_word_dash (w : str) :
  w <> [] -> forallb not_space w = true -> exclude_word (c_dash :: w) = w.
Proof.
  intros N A. unfold exclude_word. rewrite trim_id.
  - unfold js_replace, re_leading_dash. cbn [replace_first_from].
    unfold exec_at. cbn [run Nat.eqb strip_prefix]. rewrite ch_eqb_refl.
    reflexivity.
  - reflexivity.
  - rewrite last_ok_cons by exact N. apply forallb_last_ok; assumption.
Qed.

Lemma exclude_word_space_dash (c : char) (w : str) :
  is_space c = true -> w <> [] -> forallb not_space w = true ->
  exclude_word (c :: c_dash :: w) = w.
Proof.
  intros C N A. rewrite <- (exclude_word_dash N A) at 2.
  unfold exclude_word, trim, trimStart. cbn [drop_while]. rewrite C.
  reflexivity.
Qed.

Lemma dash_words_skip_word (w r : str) :
  forallb not_space w = true ->
  dash_words_from false (w ++ r) = dash_words_from false r.
Proof.
  induction w as [|c w IH]; [reflexivity|]. cbn [forallb]. intros H.
  apply andb_true_iff in H. destruct H as [H1 H2].
  cbn [app dash_words_from andb]. apply not_space_true in H1. rewrite H1.
  apply IH. exact H2.
Qed.

Lemma op_at_dash (s : str) :
  op_at [c_dash] s
  = match s with
    | c :: s' =>
        if ch_eqb c_dash c && head_ok s' then Some (take_while not_space s')
        else None
    | [] => None
    end.
Proof.
  unfold op_at. destruct s as [|c s']; [reflexivity|]. cbn [strip_prefix].
  destruct (ch_eqb c_dash c); [|reflexivity]. cbn [andb].
  destruct s' as [|d t]; [reflexivity|]. cbn [head_ok take_while].
  destruct (not_space d); reflexivity.
Qed.

Lemma dash_words_boundary (s : str) :
  op_at [c_dash] s = None -> dash_words_from true s = dash_words_from false s.
Proof.
  rewrite op_at_dash. destruct s as [|c s']; [reflexivity|].
  cbn [dash_words_from andb].
  destruct (ch_eqb c_dash c && head_ok s'); [discriminate|reflexivity].
Qed.

Lemma dash_words_hit (s w : str) :
  op_at [c_dash] s = Some w ->
  dash_words_from true s
  = w :: dash_words_from false (skipn (1 + length w) s)
  /\ firstn (1 + length w) s = c_dash :: w
  /\ 1 + length w <= length s
  /\ w <> [] /\ forallb not_space w = true.
Proof.
  intros H. destruct (op_at_some _ _ H) as (V1 & V2 & _ & _ & F).
  cbn [length app] in F. rewrite op_at_dash in H.
  destruct s as [|c s']; [discriminate|].
  destruct (ch_eqb c_dash c && head_ok s') eqn:C; [|discriminate].
  injection H as <-. repeat split; try assumption.
  - cbn [dash_words_from andb]. rewrite C. f_equal.
    replace (1 + length (take_while not_space s')) with
      (S (length (take_while not_space s'))) by lia.
    cbn [skipn]. rewrite skipn_take_while.
    rewrite <- (take_drop_while not_space s') at 1.
    apply dash_words_skip_word. apply take_while_all.
  - cbn [length].
    pose proof (f_equal (@length char) (take_drop_while not_space s')) as L.
    rewrite length_app in L. lia.
Qed.

(** Past the start of the string, or at the start when no dash word begins
    there, the words of the matches are the dash words read from a place
    that is no boundary. *)
Lemma matches_exclude_inner (n : nat) :
  forall (s : str) (i : nat),
    length s <= n ->
    (i = 0 -> op_at [c_dash] s = None) ->
    map exclude_word (matches_from re_exclude_capture i 0 s)
    = dash_words_from false s.
Proof.
  induction n as [|n IH]; intros s i L Z.
  - destruct s; [|simpl in L; lia]. cbn [matches_from].
    rewrite exec_exclude_capture. destruct (Nat.eqb i 0) eqn:E.
    + apply Nat.eqb_eq in E. rewrite (Z E). reflexivity.
    + reflexivity.
  - destruct s as [|c s'].
    + cbn [matches_from]. rewrite exec_exclude_capture.
      destruct (Nat.eqb i 0) eqn:E.
      * apply Nat.eqb_eq in E. rewrite (Z E). reflexivity.
      * reflexivity.
    + assert (X : exec_at re_exclude_capture i (c :: s')
                  = if is_space c then
                      match op_at [c_dash] s' with
                      | Some w => Some (2 + length w, [w])
                      | None => None
                      end
                    else None).
      { rewrite exec_exclude_capture. destruct (Nat.eqb i 0) eqn:E.
        - apply Nat.eqb_eq in E. rewrite (Z E). reflexivity.
        - reflexivity. }
      cbn [dash_words_from andb].
      destruct (is_space c) eqn:C.
      * destruct (op_at [c_dash] s') as [w|] eqn:O.
        -- destruct (dash_words_hit _ O) as (D & F & B & W1 & W2).
           rewrite (@matches_from_hit _ _ (S (length w)) [w]).
           ++ change (1 + length w) with (S (length w)) in D, F, B.
              change (firstn (S (S (length w))) (c :: s'))
                with (c :: firstn (S (length w)) s').
              change (skipn (S (S (length w))) (c :: s'))
                with (skipn (S (length w)) s').
              cbn [map]. rewrite D, F.
              rewrite exclude_word_space_dash by assumption.
              f_equal. apply IH.
              ** rewrite length_skipn. simpl in L. lia.
              ** intros K. lia.
           ++ rewrite X. reflexivity.
           ++ cbn [length]. lia.
        -- rewrite matches_from_miss by exact X.
           rewrite (dash_words_boundary _ O). apply IH.
           ++ simpl in L. lia.
           ++ intros K. lia.
      * rewrite matches_from_miss by exact X. apply IH.
        -- simpl in L. lia.
        -- intros K. lia.
Qed.

(** The words of the matches of the exclude pattern are the dash words. *)
Lemma matches_exclude_words (s : str) :
  map exclude_word (matches_from re_exclude_capture 0 0 s) = dash_words s.
Proof.
  unfold dash_words. destruct (op_at [c_dash] s) as [w|] eqn:O.
  - destruct (dash_words_hit _ O) as (D & F & B & W1 & W2).
    rewrite (@matches_from_hit _ _ (length w) [w]).
    + change (1 + length w) with (S (length w)) in D, F, B.
      cbn [map]. rewrite D, F.
      rewrite exclude_word_dash by assumption. f_equal.
      apply matches_exclude_inner with (n := length s).
      * rewrite length_skipn. lia.
      * intros K. lia.
    + rewrite exec_exclude_capture. cbn [Nat.eqb]. rewrite O. reflexivity.
    + lia.
  - rewrite (dash_words_boundary _ O).
    apply matches_exclude_inner with (n := length s); [lia|]. intros _. exact O.
Qed.

Lemma dash_words_nonempty (s : str) (b : bool) (w : str) :
  In w (dash_words_from b s) -> w <> [] /\ forallb not_space w = true.
Proof.
  revert b. induction s as [|c s IH]; intros b; [intros []|].
  cbn [dash_words_from]. destruct (b && ch_eqb c_dash c && head_ok s) eqn:E.
  - intros [<-|H]; [|revert H; apply IH].
    apply andb_true_iff in E. destruct E as [_ E].
    destruct s as [|d t]; [discriminate|]. cbn [head_ok] in E.
    cbn [take_while]. rewrite E. split; [discriminate|].
    cbn [forallb]. rewrite E. apply take_while_all.
  - apply IH.
Qed.

(** ** The shape of the parser's result *)

Lemma parse_exact_part (q : str) (filters : list ActiveTextFilter) :
  match js_match_all re_exact_capture q with
  | Some exactMatches =>
      fold_left
        (fun filters m =>
           filters ++
           [ {| id := lit "exact"; value := js_replace_all re_quote [] m |} ])
        exactMatches filters
  | None => filters
  end
  = filters ++ map exact_entry (quoted_spans q).
Proof.
  unfold quoted_spans.
  rewrite <- (@matches_exact_spans (length q) q 0) by lia.
  unfold js_match_all.
  destruct (matches_from re_exact_capture 0 0 q) as [|m ms].
  - cbn [map]. rewrite app_nil_r. reflexivity.
  - rewrite (fold_left_push
               (fun m => {| id := lit "exact";
                            value := js_replace_all re_quote [] m |})).
    rewrite map_map. reflexivity.
Qed.

Lemma parse_exclude_part (q : str) (filters : list ActiveTextFilter) :
  match js_match_all re_exclude_capture q with
  | Some excludeMatches =>
      let words := map exclude_word excludeMatches in
      if Nat.eqb (length words) 0 then filters
      else filters ++ [ {| id := lit "exclude";
                           value := join (lit " ") words |} ]
  | None => filters
  end
  = filters ++ exclude_entry (dash_words q).
Proof.
  rewrite <- matches_exclude_words. unfold js_match_all.
  destruct (matches_from re_exclude_capture 0 0 q) as [|m ms].
  - cbn [map exclude_entry]. rewrite app_nil_r. reflexivity.
  - reflexivity.
Qed.

(** The result of the parser, piece by piece. *)
Lemma parse_shape (q : str) :
  parseQueryFilters q
  = entry_of (lit "after") (find_op (lit "after:") q)
    ++ entry_of (lit "before") (find_op (lit "before:") q)
    ++ entry_of (lit "intitle") (find_op (lit "intitle:") q)
    ++ map exact_entry (quoted_spans q)
    ++ exclude_entry (dash_words q)
    ++ entry_of (lit "channel") (find_op (lit "channel:") q)
    ++ entry_of (lit "hashtag") (find_op (lit "#") q).
Proof.
  unfold parseQueryFilters. cbv zeta.
  rewrite !push_match_op, parse_exact_part, parse_exclude_part.
  rewrite ?push_match_op. cbn [app]. rewrite <- ?app_assoc. reflexivity.
Qed.

(** ** The entries of the parser's result *)

Ltac id_clash :=
  match goal with
  | H : {| id := ?a; value := _ |} = {| id := ?b; value := _ |} |- _ =>
      let K := fresh "K" in
      pose proof (f_equal id H) as K; cbn [id] in K;
      vm_compute in K; discriminate K
  end.

Lemma in_entry_of (f : ActiveTextFilter) (ident : str) (o : option str) :
  In f (entry_of ident o) <-> exists v, o = Some v /\ f = mk_filter ident v.
Proof.
  destruct o as [x|]; simpl; split.
  - intros [<-|[]]. exists x. split; reflexivity.
  - intros (v & E & ->). injection E as ->. left. reflexivity.
  - intros [].
  - intros (v & E & _). discriminate.
Qed.

Lemma in_exclude_entry (f : ActiveTextFilter) (ws : list str) :
  In f (exclude_entry ws) ->
  ws <> [] /\ f = mk_filter (lit "exclude") (join [c_sp] ws).
Proof.
  destruct ws; simpl; [intros []|]. intros [<-|[]].
  split; [discriminate|reflexivity].
Qed.

(** The entry of an operator with a token of its own is in the result exactly
    when [find_op] finds its value. *)
Lemma in_parse_op (ident op q v : str) :
  In (ident, op)
     [ (lit "after", lit "after:"); (lit "before", lit "before:");
       (lit "intitle", lit "intitle:"); (lit "channel", lit "channel:");
       (lit "hashtag", lit "#") ] ->
  In (mk_filter ident v) (parseQueryFilters q) <-> find_op op q = Some v.
Proof.
  intros K. rewrite parse_shape. rewrite !in_app_iff, !in_entry_of, in_map_iff.
  unfold mk_filter, exact_entry.
  cbn [In] in K.
  destruct K as [K|[K|[K|[K|[K|[]]]]]]; injection K as <- <-; split;
    try (intros H;
         repeat match goal with
                | H : _ \/ _ |- _ => destruct H as [H|H]
                | H : exists _, _ |- _ => destruct H as (? & ? & ?)
                | H : In _ (exclude_entry _) |- _ =>
                    apply in_exclude_entry in H; destruct H as [? ?];
                    unfold mk_filter in *
                end;
         try id_clash;
         match goal with
         | H : {| id := _; value := _ |} = {| id := _; value := _ |} |- _ =>
             let V := fresh "V" in
             pose proof (f_equal value H) as V; cbn [value] in V; subst;
             assumption
         end).
  - intros H. left. exists v. split; [exact H|reflexivity].
  - intros H. right. left. exists v. split; [exact H|reflexivity].
  - intros H. do 2 right. left. exists v. split; [exact H|reflexivity].
  - intros H. do 5 right. left. exists v. split; [exact H|reflexivity].
  - intros H. do 6 right. exists v. split; [exact H|reflexivity].
Qed.

Lemma find_op_occurs (op q : str) :
  (exists v, find_op op q = Some v) <-> occurs_with_run op q.
Proof.
  split.
  - intros [v H]. destruct (find_op_some _ _ H) as (pre & post & S1 & V1 & _).
    destruct v as [|c v]; [contradiction|].
    exists pre, c, (v ++ post). split; [exact S1|].
    destruct (find_op_some _ _ H) as (_ & _ & _ & _ & V2 & _).
    simpl in V2. apply andb_true_iff in V2. tauto.
  - intros (pre & c & post & S1 & C).
    destruct (find_op op q) as [v|] eqn:F; [exists v; reflexivity|].
    rewrite (@find_op_none op q F pre c post S1) in C. discriminate.
Qed.

Lemma op_rule_holds (ident op q : str) :
  In (ident, op)
     [ (lit "after", lit "after:"); (lit "before", lit "before:");
       (lit "intitle", lit "intitle:"); (lit "channel", lit "channel:");
       (lit "hashtag", lit "#") ] ->
  op_rule ident op q.
Proof.
  intros K. split.
  - rewrite <- find_op_occurs. split; intros [v H]; exists v;
      apply (in_parse_op q v K); exact H.
  - intros v H. apply (in_parse_op q v K) in H.
    apply find_op_some. exact H.
Qed.

(** C6, the claim as it is written, refuted: the operator token inside the
    longer token of the claim's own example gives an entry. *)
Lemma parse_embedded_operator :
  parseQueryFilters (lit "grafter:2024-01-01")
  = [ {| id := lit "after"; value := lit "2024-01-01" |} ].
Proof. vm_compute. reflexivity. Qed.

(** C6, amended: for each of after:, before:, intitle: and channel:, the
    parser gives an entry exactly when the operator token occurs somewhere in
    the query, at the start of a token or inside one, with a character that is
    not whitespace right after it; the value of the entry is the whole run of
    such characters after the leftmost such occurrence, as it stands. *)
Theorem parse_operator_anywhere :
  forall q : str,
    op_rule (lit "after") (lit "after:") q /\
    op_rule (lit "before") (lit "before:") q /\
    op_rule (lit "intitle") (lit "intitle:") q /\
    op_rule (lit "channel") (lit "channel:") q.
Proof.
  intros q. split; [|split; [|split]]; apply op_rule_holds; simpl; tauto.
Qed.

(** ** Values are never empty *)

Lemma find_op_nonempty (op q v : str) : find_op op q = Some v -> v <> [].
Proof.
  intros H. destruct (find_op_some _ _ H) as (_ & _ & _ & V & _). exact V.
Qed.

Lemma join_nonempty (sep : str) (l : list str) :
  l <> [] -> (forall w, In w l -> w <> []) -> join sep l <> [].
Proof.
  destruct l as [|x l]; [contradiction|]. intros _ H.
  assert (X : x <> []) by (apply H; left; reflexivity).
  cbn [join]. destruct l; [exact X|].
  destruct x; [contradiction|discriminate].
Qed.

Lemma parse_values_nonempty (q : str) (f : ActiveTextFilter) :
  In f (parseQueryFilters q) -> value f <> [].
Proof.
  rewrite parse_shape. rewrite !in_app_iff, !in_entry_of, in_map_iff.
  intros H.
  repeat match goal with
         | H : _ \/ _ |- _ => destruct H as [H|H]
         | H : exists _, _ |- _ => destruct H as (? & ? & ?)
         end;
    subst; cbn [value mk_filter exact_entry];
    try (eapply find_op_nonempty; eassumption).
  - eapply spans_nonempty. eassumption.
  - apply in_exclude_entry in H. destruct H as [N ->]. cbn [value mk_filter].
    apply join_nonempty; [exact N|]. intros w W.
    apply (dash_words_nonempty _ _ _ W).
Qed.

(** C10: no entry of the result of parseQueryFilters has the empty string as
    its value, whatever the query. *)
Theorem parseQueryFilters_values_nonempty :
  forall q : str,
    forallb (fun f => truthy (value f)) (parseQueryFilters q) = true.
Proof.
  intros q. apply forallb_forall. intros f H.
  apply parse_values_nonempty in H. destruct (value f); [contradiction|].
  reflexivity.
Qed.

(** ** The exclude entry *)

Lemma filter_nothing (A : Type) (p : A -> bool) (l : list A) :
  (forall x, In x l -> p x = false) -> filter p l = [].
Proof.
  induction l as [|x l IH]; [reflexivity|]. intros H. simpl.
  rewrite (H x) by (left; reflexivity). apply IH.
  intros y Y. apply H. right. exact Y.
Qed.

Lemma filter_exclude_entry_of (ident : str) (o : option str) :
  str_eqb (lit "exclude") ident = false ->
  filter (fun f => str_eqb (lit "exclude") (id f)) (entry_of ident o) = [].
Proof.
  intros H. destruct o; cbn [entry_of filter id]; [rewrite H|]; reflexivity.
Qed.

(** C5: the exclude entries of the result of parseQueryFilters.  The words
    taken are those after each dash that stands at the start of the query or
    after a whitespace character and has a character that is not whitespace
    right after it; a dash inside a longer token, as in re-watch, gives no
    word.  The words found make one entry, their join with single spaces in
    the order of the query, and no word makes no entry. *)
Theorem parse_exclude_rule :
  (forall q : str,
     filter (fun f => str_eqb (lit "exclude") (id f)) (parseQueryFilters q)
     = match dash_words q with
       | [] => []
       | w :: ws =>
           [ {| id := lit "exclude"; value := join [c_sp] (w :: ws) |} ]
       end) /\
  parseQueryFilters (lit "re-watch") = [] /\
  parseQueryFilters (lit "-spam re-watch   -ads") =
    [ {| id := lit "exclude"; value := lit "spam ads" |} ].
Proof.
  split; [|split; vm_compute; reflexivity].
  intros q. rewrite parse_shape. rewrite !filter_app.
  rewrite !filter_exclude_entry_of by (vm_compute; reflexivity).
  rewrite (@filter_nothing _ _ (map exact_entry (quoted_spans q))).
  - cbn [app]. rewrite app_nil_r. destruct (dash_words q); reflexivity.
  - intros f F. apply in_map_iff in F. destruct F as (v & <- & _).
    vm_compute. reflexivity.
Qed.

(** ** The order of the entries *)

Lemma sorted_app (A : Type) (R : A -> A -> Prop) (l1 l2 : list A) :
  StronglySorted R l1 -> StronglySorted R l2 ->
  (forall a b, In a l1 -> In b l2 -> R a b) ->
  StronglySorted R (l1 ++ l2).
Proof.
  intros S1 S2 C. induction S1 as [|x l1 S1 IH F]; [exact S2|].
  simpl. constructor.
  - apply IH. intros a b Ha Hb. apply C; [right; exact Ha|exact Hb].
  - apply Forall_app. split; [exact F|].
    apply Forall_forall. intros b Hb. apply C; [left; reflexivity|exact Hb].
Qed.

Lemma entry_of_rank (ident : str) (o : option str) (f : ActiveTextFilter) :
  In f (entry_of ident o) -> rank (id f) = rank ident.
Proof. destruct o; simpl; [intros [<-|[]]; reflexivity|intros []]. Qed.

Lemma exact_rank (l : list str) (f : ActiveTextFilter) :
  In f (map exact_entry l) -> rank (id f) = 3.
Proof. intros H. apply in_map_iff in H. destruct H as (v & <- & _). reflexivity. Qed.

Lemma exclude_rank (ws : list str) (f : ActiveTextFilter) :
  In f (exclude_entry ws) -> rank (id f) = 4.
Proof. destruct ws; simpl; [intros []|intros [<-|[]]; reflexivity]. Qed.

Lemma sorted_entry_of (ident : str) (o : option str) :
  StronglySorted rank_order (entry_of ident o).
Proof. destruct o; simpl; repeat constructor. Qed.

Lemma sorted_exact (l : list str) :
  StronglySorted rank_order (map exact_entry l).
Proof.
  induction l as [|v l IH]; simpl; constructor; [exact IH|].
  apply Forall_forall. intros f F. right. split; [reflexivity|].
  apply (exact_rank l). exact F.
Qed.

Lemma sorted_exclude (ws : list str) :
  StronglySorted rank_order (exclude_entry ws).
Proof. destruct ws; simpl; repeat constructor. Qed.

Ltac piece_rank H :=
  repeat (apply in_app_iff in H; destruct H as [H|H]);
  first [ apply entry_of_rank in H | apply exact_rank in H
        | apply exclude_rank in H ].

Lemma parse_sorted (q : str) : StronglySorted rank_order (parseQueryFilters q).
Proof.
  rewrite parse_shape.
  repeat (apply sorted_app;
          [first [apply sorted_entry_of|apply sorted_exact
                 |apply sorted_exclude] | |
           let a := fresh "a" in let b := fresh "b" in
           let Ha := fresh "Ha" in let Hb := fresh "Hb" in
           intros a b Ha Hb; left; piece_rank Ha; piece_rank Hb;
           rewrite Ha, Hb; vm_compute; lia]).
  apply sorted_entry_of.
Qed.

Lemma filter_id_entry_of (k ident : str) (o : option str) :
  filter (fun f => str_eqb k (id f)) (entry_of ident o)
  = if str_eqb k ident then entry_of ident o else [].
Proof.
  destruct o; simpl; [|destruct (str_eqb k ident); reflexivity].
  destruct (str_eqb k ident); reflexivity.
Qed.

Lemma filter_id_exact (k : str) (l : list str) :
  filter (fun f => str_eqb k (id f)) (map exact_entry l)
  = if str_eqb k (lit "exact") then map exact_entry l else [].
Proof.
  induction l as [|v l IH]; simpl.
  - destruct (str_eqb k (lit "exact")); reflexivity.
  - rewrite IH. destruct (str_eqb k (lit "exact")); reflexivity.
Qed.

Lemma filter_id_exclude (k : str) (ws : list str) :
  filter (fun f => str_eqb k (id f)) (exclude_entry ws)
  = if str_eqb k (lit "exclude") then exclude_entry ws else [].
Proof.
  destruct ws; simpl; destruct (str_eqb k (lit "exclude")); reflexivity.
Qed.

(** The entries with the id [k], for each of the seven ids. *)
Lemma parse_by_id (q k : str) :
  filter (fun f => str_eqb k (id f)) (parseQueryFilters q)
  = (if str_eqb k (lit "after") then
       entry_of (lit "after") (find_op (lit "after:") q) else [])
    ++ (if str_eqb k (lit "before") then
          entry_of (lit "before") (find_op (lit "before:") q) else [])
    ++ (if str_eqb k (lit "intitle") then
          entry_of (lit "intitle") (find_op (lit "intitle:") q) else [])
    ++ (if str_eqb k (lit "exact") then
          map exact_entry (quoted_spans q) else [])
    ++ (if str_eqb k (lit "exclude") then
          exclude_entry (dash_words q) else [])
    ++ (if str_eqb k (lit "channel") then
          entry_of (lit "channel") (find_op (lit "channel:") q) else [])
    ++ (if str_eqb k (lit "hashtag") then
          entry_of (lit "hashtag") (find_op (lit "#") q) else []).
Proof.
  rewrite parse_shape. rewrite !filter_app, !filter_id_entry_of,
    filter_id_exact, filter_id_exclude. reflexivity.
Qed.

(** C3: the result of parseQueryFilters is in the order after, before,
    intitle, exact, exclude, channel, hashtag of the ids, whatever the order
    of the operators in the query: the ranks of the ids rise strictly along
    the result, but for the exact entries, one for each quoted span, which
    follow each other.  Each of after, before, intitle, channel and hashtag
    has at most one entry, and its value is the run found at the leftmost
    occurrence of the operator token that has a run. *)
Theorem parse_fixed_order :
  forall q : str,
    StronglySorted rank_order (parseQueryFilters q) /\
    (forall f, In f (parseQueryFilters q) -> rank (id f) < 7) /\
    filter (fun f => str_eqb (lit "after") (id f)) (parseQueryFilters q)
    = entry_of (lit "after") (find_op (lit "after:") q) /\
    filter (fun f => str_eqb (lit "before") (id f)) (parseQueryFilters q)
    = entry_of (lit "before") (find_op (lit "before:") q) /\
    filter (fun f => str_eqb (lit "intitle") (id f)) (parseQueryFilters q)
    = entry_of (lit "intitle") (find_op (lit "intitle:") q) /\
    filter (fun f => str_eqb (lit "exact") (id f)) (parseQueryFilters q)
    = map exact_entry (quoted_spans q) /\
    filter (fun f => str_eqb (lit "exclude") (id f)) (parseQueryFilters q)
    = exclude_entry (dash_words q) /\
    filter (fun f => str_eqb (lit "channel") (id f)) (parseQueryFilters q)
    = entry_of (lit "channel") (find_op (lit "channel:") q) /\
    filter (fun f => str_eqb (lit "hashtag") (id f)) (parseQueryFilters q)
    = entry_of (lit "hashtag") (find_op (lit "#") q) /\
    (forall op v, find_op op q = Some v -> leftmost_run op q v).
Proof.
  intros q. split; [apply parse_sorted|]. split.
  - intros f F. rewrite parse_shape in F. piece_rank F; rewrite F;
      vm_compute; lia.
  - repeat split;
      try (rewrite parse_by_id; eval_ids; cbn [app];
           rewrite ?app_nil_r; reflexivity).
    intros op v. apply find_op_some.
Qed.

(** ** Build, then parse *)

Lemma find_op_at_start (op v : str) :
  v <> [] -> forallb not_space v = true -> find_op op (op ++ v) = Some v.
Proof.
  intros N A. destruct v as [|c t]; [contradiction|].
  cbn [forallb] in A. apply andb_true_iff in A. destruct A as [A1 A2].
  assert (O : op_at op (op ++ c :: t) = Some (c :: t)).
  { unfold op_at. rewrite strip_prefix_app, A1, take_while_id by exact A2.
    reflexivity. }
  destruct op as [|o op']; cbn [app find_op]; cbn [app] in O; rewrite O;
    reflexivity.
Qed.

Lemma dash_words_of_tokens (ws : list str) :
  ws <> [] ->
  (forall w, In w ws -> w <> [] /\ forallb not_space w = true) ->
  dash_words (join [c_sp] (map (fun w => c_dash :: w) ws)) = ws.
Proof.
  unfold dash_words. induction ws as [|w ws IH]; [contradiction|].
  intros _ H. destruct (H w (or_introl eq_refl)) as [W1 W2].
  assert (Hd : head_ok w = true).
  { destruct w as [|c t]; [contradiction|]. simpl in W2.
    apply andb_true_iff in W2. apply W2. }
  destruct ws as [|w' ws].
  - cbn [map join dash_words_from andb]. rewrite ch_eqb_refl, Hd. cbn [andb].
    rewrite take_while_id by exact W2. f_equal.
    rewrite <- (app_nil_r w). apply dash_words_skip_word. exact W2.
  - change (join [c_sp] (map (fun w => c_dash :: w) (w :: w' :: ws)))
      with (c_dash :: w ++ c_sp ::
            join [c_sp] (map (fun w => c_dash :: w) (w' :: ws))).
    cbn [dash_words_from andb]. rewrite ch_eqb_refl. cbn [andb].
    replace (head_ok (w ++ c_sp :: join [c_sp]
                      (map (fun w => c_dash :: w) (w' :: ws)))) with true
      by (destruct w; [contradiction|symmetry; exact Hd]).
    rewrite take_while_app_stop by (exact W2 || reflexivity). f_equal.
    rewrite dash_words_skip_word by exact W2.
    cbn [dash_words_from andb]. change (is_space c_sp) with true.
    apply IH; [discriminate|]. intros x X. apply H. right. exact X.
Qed.

Lemma forallb_ends (v : str) :
  v <> [] -> forallb not_space v = true ->
  head_ok v = true /\ last_ok v = true.
Proof.
  intros N A. split; [|apply forallb_last_ok; assumption].
  destruct v; [contradiction|]. simpl in A. apply andb_true_iff in A. apply A.
Qed.

Lemma buildQueryString_one (f : ActiveTextFilter) :
  buildQueryString [f] = join [c_sp] (tokens_of f).
Proof.
  rewrite buildQueryString_tokens. cbn [flat_map]. rewrite app_nil_r.
  reflexivity.
Qed.

Lemma truthy_nonempty (s : str) : truthy s = true -> s <> [].
Proof. destruct s; [discriminate|discriminate]. Qed.

Ltac safe_run S v ident op :=
  let T := fresh "T" in let A := fresh "A" in
  let H := fresh "H" in let L := fresh "L" in
  apply andb_true_iff in S; destruct S as [T A];
  apply truthy_nonempty in T; destruct (forallb_ends T A) as [H L];
  rewrite (trim_id _ H L); destruct v; [contradiction|];
  cbn [truthy negb join];
  apply (@in_parse_op ident op); [simpl; tauto|];
  apply (@find_op_at_start op); assumption.

Lemma roundtrip_holds (f : ActiveTextFilter) :
  roundtrip_safe f = true ->
  In (roundtrip_image f) (parseQueryFilters (buildQueryString [f])).
Proof.
  destruct f as [i v]. rewrite buildQueryString_one.
  unfold roundtrip_safe, roundtrip_image, tokens_of, inert, known_id,
    catalog_ids.
  cbn [id value existsb].
  repeat id_case i; eval_ids; cbn [orb negb andb];
    try rewrite E, E0, E1, E2, E3, E4, E5; cbn [orb negb andb];
    try discriminate; intros S.
  - (* exact *)
    apply andb_true_iff in S. destruct S as [S Q].
    apply andb_true_iff in S. destruct S as [H L].
    rewrite (trim_id _ H L). destruct v as [|c t]; [discriminate|].
    cbn [truthy negb join]. rewrite parse_shape, !in_app_iff.
    do 3 right. left. apply in_map_iff. exists (c :: t).
    split; [reflexivity|]. unfold quoted_spans. cbn [spans].
    rewrite ch_eqb_refl.
    change (c :: t ++ [c_quote]) with ((c :: t) ++ [c_quote]).
    rewrite spans_open_run by exact Q. left. reflexivity.
  - (* exclude *)
    rewrite S. cbn [negb]. rewrite words_trim.
    assert (W : words v <> []).
    { rewrite <- words_trim.
      destruct (trim_ends v) as [X|[X _]]; [rewrite X in S; discriminate|].
      apply words_of_head_ok. exact X. }
    rewrite parse_shape, !in_app_iff. do 4 right. left.
    rewrite dash_words_of_tokens; [|exact W|intros w; apply words_run].
    destruct (words v); [contradiction|]. left. reflexivity.
  - safe_run S v (lit "after") (lit "after:").
  - safe_run S v (lit "before") (lit "before:").
  - safe_run S v (lit "intitle") (lit "intitle:").
  - safe_run S v (lit "channel") (lit "channel:").
  - safe_run S v (lit "hashtag") (lit "#").
Qed.

(** C1, the claim as it is written, refuted: an intitle entry with a value of
    two words comes back with the first word only. *)
Lemma roundtrip_two_words :
  parseQueryFilters
    (buildQueryString [ {| id := lit "intitle"; value := lit "a b" |} ])
  = [ {| id := lit "intitle"; value := lit "a" |} ]
  /\ ~ In {| id := lit "intitle"; value := lit "a b" |}
          (parseQueryFilters
             (buildQueryString
                [ {| id := lit "intitle"; value := lit "a b" |} ])).
Proof.
  split; [vm_compute; reflexivity|].
  vm_compute. intros [H|[]]. discriminate H.
Qed.

(** C1, amended: an entry with an id of the catalog whose value can go
    through a query string comes back from the parse of the string built from
    it alone.  Such a value is, for after, before, intitle, channel and
    hashtag, one run of characters that are not whitespace; for exact, a
    phrase without double quote that neither starts nor ends with whitespace;
    for exclude, any value that is not blank, and the entry that comes back
    then has the words of the value joined by single spaces. *)
Theorem build_parse_roundtrip :
  forall f : ActiveTextFilter,
    roundtrip_safe f = true ->
    In (roundtrip_image f) (parseQueryFilters (buildQueryString [f])).
Proof. exact roundtrip_holds. Qed.

Lemma build_parse_roundtrip_witness :
  (roundtrip_safe {| id := lit "after"; value := lit "X" |} = true /\
   In (roundtrip_image {| id := lit "after"; value := lit "X" |})
      (parseQueryFilters
         (buildQueryString [ {| id := lit "after"; value := lit "X" |} ]))) /\
  (roundtrip_safe {| id := lit "hashtag"; value := lit "X" |} = true /\
   In (roundtrip_image {| id := lit "hashtag"; value := lit "X" |})
      (parseQueryFilters
         (buildQueryString [ {| id := lit "hashtag"; value := lit "X" |} ]))) /\
  (roundtrip_safe {| id := lit "exact"; value := lit "hello world" |} = true /\
   In (roundtrip_image {| id := lit "exact"; value := lit "hello world" |})
      (parseQueryFilters
         (buildQueryString
            [ {| id := lit "exact"; value := lit "hello world" |} ]))) /\
  (roundtrip_safe {| id := lit "exclude"; value := lit " spam   ads " |} = true /\
   In (roundtrip_image {| id := lit "exclude"; value := lit " spam   ads " |})
      (parseQueryFilters
         (buildQueryString
            [ {| id := lit "exclude"; value := lit " spam   ads " |} ]))).
Proof.
  repeat match goal with
         | |- _ /\ _ => split
         | |- _ = true => vm_compute; reflexivity
         | |- In _ _ => apply build_parse_roundtrip; vm_compute; reflexivity
         end.
Defined.

(** ** Replacement with the [g] flag *)

Unset Implicit Arguments.

Lemma replace_from_hit (r : re) (rep : str) (i n : nat) (caps : list str)
  (s : str) :
  exec_at r i s = Some (S n, caps) -> S n <= length s ->
  replace_from r rep i 0 s
  = rep ++ replace_from r rep (i + S n) 0 (skipn (S n) s).
Proof.
  intros E L. destruct s as [|c s]; [simpl in L; lia|].
  cbn [replace_from]. rewrite E. f_equal.
  rewrite replace_from_skip by (simpl in L; lia).
  cbn [skipn]. f_equal. lia.
Qed.

Lemma replace_from_miss (r : re) (rep : str) (i : nat) (c : char) (s : str) :
  exec_at r i (c :: s) = None ->
  replace_from r rep i 0 (c :: s) = c :: replace_from r rep (S i) 0 s.
Proof. intros E. cbn [replace_from]. rewrite E. reflexivity. Qed.

Lemma replace_from_nil (r : re) (rep : str) (i : nat) :
  exec_at r i [] = None -> replace_from r rep i 0 [] = [].
Proof. intros E. cbn [replace_from]. rewrite E. reflexivity. Qed.

(** Where the pattern matches nowhere, the replacement changes nothing. *)
Lemma replace_no_match (r : re) (rep : str) (s : str) (i : nat) :
  (forall pre t, s = pre ++ t -> exec_at r (i + length pre) t = None) ->
  replace_from r rep i 0 s = s.
Proof.
  revert i. induction s as [|c s IH]; intros i H.
  - apply replace_from_nil. rewrite <- (Nat.add_0_r i). apply (H [] []).
    reflexivity.
  - rewrite replace_from_miss.
    + f_equal. apply IH. intros pre t E.
      replace (S i + length pre) with (i + length (c :: pre)) by (simpl; lia).
      apply H. rewrite E. reflexivity.
    + rewrite <- (Nat.add_0_r i). apply (H [] (c :: s)). reflexivity.
Qed.

Lemma matches_nil_no_exec (r : re) (s : str) (i : nat) :
  matches_from r i 0 s = [] ->
  forall pre t, s = pre ++ t -> exec_at r (i + length pre) t = None.
Proof.
  revert i. induction s as [|c s IH]; intros i M pre t E.
  - destruct pre; [|discriminate]. simpl in E. subst t.
    cbn [matches_from] in M. cbn [length]. rewrite Nat.add_0_r.
    destruct (exec_at r i []) as [[n caps]|]; [discriminate|reflexivity].
  - cbn [matches_from] in M.
    destruct (exec_at r i (c :: s)) as [[n caps]|] eqn:X; [discriminate|].
    destruct pre as [|x pre].
    + simpl in E. subst t. cbn [length]. rewrite Nat.add_0_r. exact X.
    + simpl in E. injection E as E1 E2. subst x.
      replace (i + length (c :: pre)) with (S i + length pre) by (simpl; lia).
      apply IH; assumption.
Qed.

(** Every character of the result comes from the string or from the
    replacement. *)
Lemma replace_from_chars (r : re) (rep : str) (s : str) (i k : nat) (x : char) :
  In x (replace_from r rep i k s) -> In x s \/ In x rep.
Proof.
  revert i k. induction s as [|c s IH]; intros i k.
  - destruct k; cbn [replace_from]; [|intros []].
    destruct (exec_at r i []) as [[n caps]|]; [|intros []].
    rewrite app_nil_r. intros H. right. exact H.
  - destruct k as [|k]; cbn [replace_from].
    + destruct (exec_at r i (c :: s)) as [[n caps]|].
      * intros H. apply in_app_iff in H. destruct H as [H|H]; [right; exact H|].
        destruct n.
        -- destruct H as [<-|H]; [left; left; reflexivity|].
           apply IH in H. destruct H; [left; right|right]; assumption.
        -- apply IH in H. destruct H; [left; right|right]; assumption.
      * intros [<-|H]; [left; left; reflexivity|].
        apply IH in H. destruct H; [left; right|right]; assumption.
    + intros H. apply IH in H. destruct H; [left; right|right]; assumption.
Qed.

(** ** Operator tokens and tokens of the string *)

Lemma op_at_split (op s v : str) :
  op_at op s = Some v ->
  exists rest,
    s = op ++ v ++ rest /\ v <> [] /\ forallb not_space v = true /\
    head_ok rest = false.
Proof.
  unfold op_at. destruct (strip_prefix op s) as [[|c t]|] eqn:E; try discriminate.
  destruct (not_space c) eqn:C; [|discriminate]. intros H. injection H as <-.
  apply strip_prefix_some in E. exists (drop_while not_space t).
  split; [|split; [|split]].
  - rewrite E. cbn [app]. rewrite take_drop_while. reflexivity.
  - discriminate.
  - cbn [forallb]. rewrite C. apply take_while_all.
  - destruct (drop_while not_space t) as [|x r] eqn:D; [reflexivity|].
    simpl. apply (drop_while_head _ _ D).
Qed.

Lemma op_at_app (op s : str) (c : char) :
  not_space c = true ->
  op_at op (op ++ c :: s) = Some (c :: take_while not_space s).
Proof. intros C. unfold op_at. rewrite strip_prefix_app, C. reflexivity. Qed.

Lemma take_while_app_all (p : char -> bool) (a b : str) :
  forallb p a = true -> take_while p (a ++ b) = a ++ take_while p b.
Proof.
  induction a as [|x a IH]; [reflexivity|]. cbn [forallb]. intros H.
  apply andb_true_iff in H. destruct H as [H1 H2].
  cbn [app take_while]. rewrite H1, IH by exact H2. reflexivity.
Qed.

Lemma op_ok_parts (op : str) :
  op_ok op = true -> op <> [] /\ forallb not_space op = true.
Proof.
  unfold op_ok. intros H. apply andb_true_iff in H. destruct H as [H1 H2].
  split; [apply truthy_nonempty; exact H1|exact H2].
Qed.

(** Whether an operator occurs at the start of a string is decided in the
    first token of the string, and stays so when the token grows. *)
Lemma op_at_none_shorter (op s t x : str) :
  op_ok op = true ->
  take_while not_space s = take_while not_space t ++ x ->
  op_at op s = None -> op_at op t = None.
Proof.
  intros K T N. destruct (op_ok_parts _ K) as [_ A].
  destruct (op_at op t) as [v|] eqn:O; [|reflexivity]. exfalso.
  destruct (op_at_split _ _ _ O) as (rest & E & V1 & V2 & _).
  destruct v as [|c u]; [contradiction|]. cbn [forallb] in V2.
  apply andb_true_iff in V2. destruct V2 as [C U].
  assert (Tt : take_while not_space t
               = op ++ c :: u ++ take_while not_space rest).
  { rewrite E. rewrite take_while_app_all by exact A.
    change ((c :: u) ++ rest) with (c :: u ++ rest).
    cbn [take_while]. rewrite C, take_while_app_all by exact U. reflexivity. }
  rewrite Tt in T.
  rewrite <- (take_drop_while not_space s) in N. rewrite T in N.
  rewrite <- !app_assoc in N. cbn [app] in N.
  rewrite op_at_app in N by exact C. discriminate.
Qed.

Lemma find_op_none_cons (op : str) (c : char) (s : str) :
  find_op op (c :: s) = None <->
  op_at op (c :: s) = None /\ find_op op s = None.
Proof.
  cbn [find_op]. destruct (op_at op (c :: s)); split.
  - discriminate.
  - intros [H _]. discriminate.
  - intros H. split; [reflexivity|exact H].
  - intros [_ H]. exact H.
Qed.

Lemma find_op_none_suffix (op pre s : str) :
  find_op op (pre ++ s) = None -> find_op op s = None.
Proof.
  induction pre as [|c pre IH]; [trivial|]. cbn [app]. intros H.
  apply find_op_none_cons in H. apply IH. apply H.
Qed.

Lemma find_op_none_at (op pre s : str) :
  find_op op (pre ++ s) = None -> op_at op s = None.
Proof.
  intros H. apply find_op_none_suffix in H. destruct s as [|c s].
  - cbn [find_op] in H. destruct (op_at op []); [discriminate|reflexivity].
  - apply find_op_none_cons in H. apply H.
Qed.

Lemma op_at_space (op : str) (c : char) (s : str) :
  op_ok op = true -> is_space c = true -> op_at op (c :: s) = None.
Proof.
  intros K C. destruct (op_ok_parts _ K) as [N A].
  destruct op as [|o op]; [contradiction|]. cbn [forallb] in A.
  apply andb_true_iff in A. destruct A as [O _].
  unfold op_at. cbn [strip_prefix].
  replace (ch_eqb o c) with false; [reflexivity|].
  symmetry. apply ch_eqb_neq. intros ->.
  apply not_space_true in O. congruence.
Qed.

Lemma op_at_head (op s : str) :
  op_ok op = true -> head_ok s = false -> op_at op s = None.
Proof.
  intros K H. destruct s as [|c s].
  - destruct (op_ok_parts _ K) as [N _]. destruct op; [contradiction|].
    reflexivity.
  - apply op_at_space; [exact K|]. simpl in H. apply not_space_false. exact H.
Qed.

(** ** What a reduction keeps *)

Lemma reduces_head (s t : str) :
  reduces s t -> head_ok s = false -> head_ok t = false.
Proof.
  intros R. induction R as [|c s t R IH|pre rest t N H R IH|pre rest t N A R IH];
    intros Hs.
  - reflexivity.
  - exact Hs.
  - apply IH. exact H.
  - reflexivity.
Qed.

Lemma reduces_token (s t : str) :
  reduces s t ->
  exists x, take_while not_space s = take_while not_space t ++ x.
Proof.
  intros R. induction R as [|c s t R IH|pre rest t N H R IH|pre rest t N A R IH].
  - exists []. reflexivity.
  - destruct IH as [x IH]. cbn [take_while]. destruct (not_space c).
    + exists x. rewrite IH. reflexivity.
    + exists []. reflexivity.
  - pose proof (reduces_head _ _ R H) as Ht.
    exists (take_while not_space (pre ++ rest)).
    destruct t as [|d t]; [reflexivity|]. simpl in Ht. cbn [take_while].
    rewrite Ht. reflexivity.
  - exists (take_while not_space (pre ++ rest)). reflexivity.
Qed.

(** A reduction brings in no occurrence of an operator. *)
Lemma reduces_free (op s t : str) :
  op_ok op = true -> reduces s t ->
  find_op op s = None -> find_op op t = None.
Proof.
  intros K R. induction R as [|c s t R IH|pre rest t N H R IH|pre rest t N A R IH];
    intros F.
  - exact F.
  - apply find_op_none_cons in F. destruct F as [F1 F2].
    apply find_op_none_cons. split; [|apply IH; exact F2].
    destruct (reduces_token _ _ (rd_keep c R)) as [x X].
    apply (op_at_none_shorter op _ _ x K X F1).
  - apply IH. apply (find_op_none_suffix _ _ _ F).
  - apply find_op_none_cons. split.
    + apply op_at_space; [exact K|reflexivity].
    + apply IH. apply (find_op_none_suffix _ _ _ F).
Qed.

Lemma reduces_no_quote (s t : str) :
  reduces s t -> no_quote s = true -> no_quote t = true.
Proof.
  unfold no_quote.
  intros R. induction R as [|c s t R IH|pre rest t N H R IH|pre rest t N A R IH];
    intros Q.
  - reflexivity.
  - cbn [forallb] in *. apply andb_true_iff in Q. destruct Q as [Q1 Q2].
    rewrite Q1, IH by exact Q2. reflexivity.
  - rewrite forallb_app in Q. apply andb_true_iff in Q. apply IH. apply Q.
  - rewrite forallb_app in Q. apply andb_true_iff in Q. cbn [forallb].
    rewrite IH by apply Q. reflexivity.
Qed.

Lemma dash_words_head (s : str) (b b' : bool) :
  head_ok s = false -> dash_words_from b s = dash_words_from b' s.
Proof.
  destruct s as [|c s]; [reflexivity|]. cbn [head_ok]. intros H.
  apply not_space_false in H. cbn [dash_words_from].
  replace (ch_eqb c_dash c) with false.
  - rewrite !andb_false_r. reflexivity.
  - symmetry. apply ch_eqb_neq. intros <-. discriminate H.
Qed.

Lemma dash_words_nil_app (pre s : str) (b : bool) :
  dash_words_from b (pre ++ s) = [] -> exists b', dash_words_from b' s = [].
Proof.
  revert b. induction pre as [|c pre IH]; intros b H.
  - exists b. exact H.
  - cbn [app dash_words_from] in H.
    destruct (b && ch_eqb c_dash c && head_ok (pre ++ s)); [discriminate|].
    apply (IH _ H).
Qed.

Lemma dash_words_spaces (pre s : str) (b : bool) :
  pre <> [] -> forallb is_space pre = true ->
  dash_words_from b (pre ++ s) = dash_words_from true s.
Proof.
  revert b. induction pre as [|c pre IH]; intros b N A; [contradiction|].
  cbn [forallb] in A. apply andb_true_iff in A. destruct A as [C A].
  cbn [app dash_words_from].
  replace (ch_eqb c_dash c) with false.
  - rewrite andb_false_r. cbn [andb]. rewrite C. destruct pre as [|d pre].
    + reflexivity.
    + apply IH; [discriminate|exact A].
  - symmetry. apply ch_eqb_neq. intros <-. discriminate C.
Qed.

(** A reduction of a string without dash word has no dash word. *)
Lemma reduces_no_dash (s t : str) :
  reduces s t ->
  forall b, dash_words_from b s = [] -> dash_words_from b t = [].
Proof.
  intros R. induction R as [|c s t R IH|pre rest t N H R IH|pre rest t N A R IH];
    intros b D.
  - reflexivity.
  - cbn [dash_words_from] in *.
    destruct (b && ch_eqb c_dash c && head_ok s) eqn:E; [discriminate|].
    replace (b && ch_eqb c_dash c && head_ok t) with false; [apply IH; exact D|].
    symmetry. destruct (head_ok t) eqn:Ht; [|apply andb_false_r].
    destruct (head_ok s) eqn:Hs; [exact E|].
    rewrite (reduces_head _ _ R Hs) in Ht. discriminate.
  - destruct (dash_words_nil_app _ _ _ D) as [b' D'].
    rewrite (dash_words_head _ b b' (reduces_head _ _ R H)). apply IH.
    exact D'.
  - rewrite dash_words_spaces in D by assumption.
    change (c_sp :: t) with ([c_sp] ++ t).
    rewrite dash_words_spaces by (reflexivity || discriminate).
    apply IH. exact D.
Qed.

(** ** The removal of one operator *)

Lemma run_op (op : str) (i j : nat) (s : str) (caps : list str) :
  run (re_op op) j s caps (fun e _ caps' => Some (e - i, caps'))
  = match op_at op s with
    | Some v => Some (j + length op + length v - i, caps)
    | None => None
    end.
Proof.
  unfold re_op, op_at. simpl.
  destruct (strip_prefix op s) as [[|c t]|]; try reflexivity.
  destruct (not_space c); [|reflexivity].
  erewrite more_first; [reflexivity|]. simpl.
  apply f_equal. apply f_equal2; [simpl; lia|reflexivity].
Qed.

Lemma strip_op_hit (op s v rest rep : str) (i : nat) :
  op_at op s = Some v -> s = op ++ v ++ rest -> v <> [] ->
  replace_from (re_op op) rep i 0 s
  = rep ++ replace_from (re_op op) rep (i + (length op + length v)) 0 rest.
Proof.
  intros O E N.
  assert (L : length op + length v = S (length op + length v - 1)).
  { destruct v; [contradiction|]. simpl. lia. }
  rewrite (replace_from_hit _ rep i (length op + length v - 1) []).
  - rewrite <- L. f_equal. f_equal. rewrite E, app_assoc.
    rewrite <- length_app. apply skipn_len_app.
  - rewrite exec_op, O, <- L. reflexivity.
  - rewrite <- L, E, !length_app. lia.
Qed.

Lemma strip_op_miss (op rep : str) (c : char) (s : str) (i : nat) :
  op_at op (c :: s) = None ->
  replace_from (re_op op) rep i 0 (c :: s)
  = c :: replace_from (re_op op) rep (S i) 0 s.
Proof. intros O. apply replace_from_miss. rewrite exec_op, O. reflexivity. Qed.

Lemma strip_op_nil (op rep : str) (i : nat) :
  replace_from (re_op op) rep i 0 [] = [].
Proof.
  apply replace_from_nil. rewrite exec_op. unfold op_at.
  destruct (strip_prefix op []) as [[|c t]|] eqn:E; try reflexivity.
  apply strip_prefix_some in E. destruct op; discriminate.
Qed.

(** The removal of an operator is a reduction. *)
Lemma reduces_strip_op (op : str) (n : nat) :
  forall (s : str) (i : nat),
    length s <= n -> reduces s (replace_from (re_op op) [] i 0 s).
Proof.
  induction n as [|n IH]; intros s i L.
  - destruct s; [|simpl in L; lia]. rewrite strip_op_nil. constructor.
  - destruct s as [|c s]; [rewrite strip_op_nil; constructor|].
    destruct (op_at op (c :: s)) as [v|] eqn:O.
    + destruct (op_at_split _ _ _ O) as (rest & E & V1 & _ & H).
      rewrite (strip_op_hit op _ v rest [] i O E V1). cbn [app].
      rewrite E, app_assoc. apply rd_drop.
      * destruct op; [destruct v; [contradiction|discriminate]|discriminate].
      * exact H.
      * apply IH. apply (f_equal (@length char)) in E.
        rewrite !length_app in E. destruct v; [contradiction|].
        simpl in E, L. lia.
    + rewrite strip_op_miss by exact O. apply rd_keep. apply IH.
      simpl in L. lia.
Qed.

(** After its removal an operator occurs nowhere. *)
Lemma strip_op_complete (op : str) (n : nat) :
  op_ok op = true ->
  forall (s : str) (i : nat),
    length s <= n -> find_op op (replace_from (re_op op) [] i 0 s) = None.
Proof.
  intros K. induction n as [|n IH]; intros s i L.
  - destruct s; [|simpl in L; lia]. rewrite strip_op_nil.
    cbn [find_op]. rewrite op_at_head; [reflexivity|exact K|reflexivity].
  - destruct s as [|c s].
    + rewrite strip_op_nil. cbn [find_op].
      rewrite op_at_head; [reflexivity|exact K|reflexivity].
    + destruct (op_at op (c :: s)) as [v|] eqn:O.
      * destruct (op_at_split _ _ _ O) as (rest & E & V1 & _ & H).
        rewrite (strip_op_hit op _ v rest [] i O E V1). cbn [app].
        apply IH. apply (f_equal (@length char)) in E.
        rewrite !length_app in E. destruct v; [contradiction|].
        simpl in E, L. lia.
      * rewrite strip_op_miss by exact O. apply find_op_none_cons. split.
        -- assert (R : reduces (c :: s)
                         (c :: replace_from (re_op op) [] (S i) 0 s)).
           { apply rd_keep. apply (reduces_strip_op op (length s)). lia. }
           destruct (reduces_token _ _ R) as [x X].
           apply (op_at_none_shorter op _ _ x K X O).
        -- apply IH. simpl in L. lia.
Qed.

(** ** The removal of the dash words *)

Lemma exec_exclude (i : nat) (s : str) :
  exec_at re_exclude i s
  = match (if Nat.eqb i 0 then op_at [c_dash] s else None) with
    | Some w => Some (1 + length w, [])
    | None =>
        match s with
        | c :: s' =>
            if is_space c then
              match op_at [c_dash] s' with
              | Some w => Some (2 + length w, [])
              | None => None
              end
            else None
        | [] => None
        end
    end.
Proof.
  change (exec_at re_exclude i s)
    with (match (if Nat.eqb i 0 then
                   run (re_op [c_dash]) i s []
                     (fun e _ caps => Some (e - i, caps))
                 else None) with
          | Some x => Some x
          | None =>
              match s with
              | [] => None
              | c :: s' =>
                  if is_space c then
                    run (re_op [c_dash]) (S i) s' []
                      (fun e _ caps => Some (e - i, caps))
                  else None
              end
          end).
  assert (Second :
    match s with
    | [] => None
    | c :: s' =>
        if is_space c then
          run (re_op [c_dash]) (S i) s' []
            (fun e _ caps => Some (e - i, caps))
        else None
    end
    = match s with
      | c :: s' =>
          if is_space c then
            match op_at [c_dash] s' with
            | Some w => Some (2 + length w, [])
            | None => None
            end
          else None
      | [] => None
      end).
  { destruct s as [|c s']; [reflexivity|].
    destruct (is_space c); [|reflexivity].
    rewrite run_op. destruct (op_at [c_dash] s'); [|reflexivity].
    cbn [length]. apply f_equal. apply f_equal2; [lia|reflexivity]. }
  rewrite Second. destruct (Nat.eqb i 0) eqn:Z; [|reflexivity].
  rewrite run_op. destruct (op_at [c_dash] s) as [w|]; [|reflexivity].
  cbn [length]. apply f_equal. apply f_equal2; [lia|reflexivity].
Qed.

(** The two ways in which the pattern of the dash words matches, and the
    way in which it does not. *)
Lemma strip_exclude_start (s w rest : str) :
  op_at [c_dash] s = Some w -> s = c_dash :: w ++ rest ->
  replace_from re_exclude [] 0 0 s
  = replace_from re_exclude [] (S (length w)) 0 rest.
Proof.
  intros O E.
  rewrite (replace_from_hit _ [] 0 (length w) []).
  - cbn [app]. f_equal. rewrite E. cbn [skipn]. apply skipn_len_app.
  - rewrite exec_exclude. cbn [Nat.eqb]. rewrite O. reflexivity.
  - rewrite E. cbn [length]. rewrite length_app. lia.
Qed.

Lemma strip_exclude_space (c : char) (s w rest : str) (i : nat) :
  (i = 0 -> op_at [c_dash] (c :: s) = None) ->
  is_space c = true -> op_at [c_dash] s = Some w -> s = c_dash :: w ++ rest ->
  replace_from re_exclude [] i 0 (c :: s)
  = replace_from re_exclude [] (i + S (S (length w))) 0 rest.
Proof.
  intros Z C O E.
  rewrite (replace_from_hit _ [] i (S (length w)) []).
  - cbn [app]. f_equal. rewrite E. cbn [skipn]. apply skipn_len_app.
  - rewrite exec_exclude. destruct (Nat.eqb i 0) eqn:I.
    + apply Nat.eqb_eq in I. rewrite (Z I), C, O. reflexivity.
    + rewrite C, O. reflexivity.
  - rewrite E. cbn [length]. rewrite length_app. lia.
Qed.

Lemma strip_exclude_miss (c : char) (s : str) (i : nat) :
  (i = 0 -> op_at [c_dash] (c :: s) = None) ->
  is_space c = false \/ op_at [c_dash] s = None ->
  replace_from re_exclude [] i 0 (c :: s)
  = c :: replace_from re_exclude [] (S i) 0 s.
Proof.
  intros Z M. apply replace_from_miss. rewrite exec_exclude.
  assert (F : (if Nat.eqb i 0 then op_at [c_dash] (c :: s) else None) = None).
  { destruct (Nat.eqb i 0) eqn:I; [|reflexivity].
    apply Nat.eqb_eq in I. apply (Z I). }
  rewrite F. destruct M as [M|M]; rewrite M; [reflexivity|].
  destruct (is_space c); reflexivity.
Qed.

Lemma strip_exclude_nil (i : nat) : replace_from re_exclude [] i 0 [] = [].
Proof.
  apply replace_from_nil. rewrite exec_exclude.
  destruct (Nat.eqb i 0); reflexivity.
Qed.

Lemma dash_split (s w : str) :
  op_at [c_dash] s = Some w ->
  exists rest,
    s = c_dash :: w ++ rest /\ w <> [] /\ head_ok rest = false.
Proof.
  intros O. destruct (op_at_split _ _ _ O) as (rest & E & V1 & _ & H).
  exists rest. split; [exact E|split; assumption].
Qed.

(** Past the start of the string the removal of the dash words is a
    reduction that leaves no dash word. *)
Lemma strip_exclude_inner (n : nat) :
  forall (s : str) (i : nat),
    length s <= n ->
    (i = 0 -> op_at [c_dash] s = None) ->
    reduces s (replace_from re_exclude [] i 0 s) /\
    dash_words_from false (replace_from re_exclude [] i 0 s) = [] /\
    (op_at [c_dash] s = None ->
     dash_words_from true (replace_from re_exclude [] i 0 s) = []).
Proof.
  induction n as [|n IH]; intros s i L Z.
  - destruct s; [|simpl in L; lia]. rewrite strip_exclude_nil.
    split; [constructor|split; reflexivity].
  - destruct s as [|c s].
    { rewrite strip_exclude_nil. split; [constructor|split; reflexivity]. }
    destruct (is_space c) eqn:C.
    + destruct (op_at [c_dash] s) as [w|] eqn:O.
      * destruct (dash_split _ _ O) as (rest & E & W & H).
        rewrite (strip_exclude_space c s w rest i Z C O E).
        assert (Lr : length rest <= n).
        { apply (f_equal (@length char)) in E. cbn [length] in E.
          rewrite length_app in E. simpl in L. lia. }
        assert (Or : op_at [c_dash] rest = None)
          by (apply op_at_head; [reflexivity|exact H]).
        destruct (IH rest (i + S (S (length w))) Lr) as (R & D1 & D2);
          [intros; lia|].
        split; [|split; [exact D1|intros _; apply D2; exact Or]].
        rewrite E.
        change (c :: c_dash :: w ++ rest) with ((c :: c_dash :: w) ++ rest).
        apply rd_drop; [discriminate|exact H|exact R].
      * rewrite strip_exclude_miss by (exact Z || (right; exact O)).
        destruct (IH s (S i)) as (R & D1 & D2);
          [simpl in L; lia|intros; lia|].
        split; [apply rd_keep; exact R|].
        assert (X : forall b,
                  dash_words_from b
                    (c :: replace_from re_exclude [] (S i) 0 s) = []).
        { intros b. cbn [dash_words_from].
          replace (ch_eqb c_dash c) with false.
          - rewrite andb_false_r. cbn [andb]. rewrite C. apply D2. exact O.
          - symmetry. apply ch_eqb_neq. intros <-. discriminate C. }
        split; [apply X|intros _; apply X].
    + rewrite strip_exclude_miss by (exact Z || (left; exact C)).
      destruct (IH s (S i)) as (R & D1 & D2);
        [simpl in L; lia|intros; lia|].
      split; [apply rd_keep; exact R|].
      split.
      * cbn [dash_words_from andb]. rewrite C. exact D1.
      * intros O. cbn [dash_words_from andb]. rewrite C.
        replace (ch_eqb c_dash c
                 && head_ok (replace_from re_exclude [] (S i) 0 s))
          with false; [exact D1|].
        symmetry. rewrite op_at_dash in O.
        destruct (ch_eqb c_dash c); [|reflexivity]. cbn [andb] in *.
        destruct (head_ok s) eqn:Hs; [discriminate|].
        apply (reduces_head _ _ R Hs).
Qed.

Lemma strip_exclude_spec (s : str) :
  reduces s (js_replace_all re_exclude [] s) /\
  dash_words (js_replace_all re_exclude [] s) = [].
Proof.
  unfold js_replace_all, dash_words.
  destruct (op_at [c_dash] s) as [w|] eqn:O.
  - destruct (dash_split _ _ O) as (rest & E & W & H).
    rewrite (strip_exclude_start s w rest O E).
    assert (Or : op_at [c_dash] rest = None)
      by (apply op_at_head; [reflexivity|exact H]).
    destruct (strip_exclude_inner (length rest) rest (S (length w)))
      as (R & D1 & D2); [lia|intros; lia|].
    split; [|apply D2; exact Or].
    rewrite E. change (c_dash :: w ++ rest) with ((c_dash :: w) ++ rest).
    apply rd_drop; [discriminate|exact H|exact R].
  - destruct (strip_exclude_inner (length s) s 0) as (R & D1 & D2);
      [lia|intros _; exact O|].
    split; [exact R|apply D2; exact O].
Qed.

(** ** The removal of the quoted spans *)

Lemma exec_exact (i : nat) (s : str) :
  exec_at re_exact i s
  = match quoted_at s with
    | Some v => Some (S (S (length v)), [])
    | None => None
    end.
Proof.
  unfold exec_at, re_exact, quoted_at.
  destruct s as [|q [|c t]]; cbn [run strip_prefix].
  - reflexivity.
  - destruct (ch_eqb c_quote q); reflexivity.
  - destruct (ch_eqb c_quote q); [|reflexivity]. cbn [andb].
    destruct (not_quote c) eqn:C; [|reflexivity].
    rewrite more_blocked.
    + cbn [run]. destruct (drop_while not_quote t) as [|x r] eqn:D.
      * reflexivity.
      * cbn [strip_prefix]. pose proof (drop_while_head _ _ D) as X.
        unfold not_quote in X. apply negb_false_iff in X.
        apply ch_eqb_eq in X. subst x. rewrite ch_eqb_refl.
        apply f_equal. apply f_equal2; [cbn [length]; lia|reflexivity].
    + intros j x u X. cbn [run strip_prefix].
      rewrite (not_quote_neq _ X). reflexivity.
Qed.

Lemma quoted_at_no_quote (s : str) : no_quote s = true -> quoted_at s = None.
Proof.
  unfold no_quote, quoted_at. destruct s as [|q [|c t]]; try reflexivity.
  cbn [forallb]. intros H. apply andb_true_iff in H. destruct H as [Q _].
  rewrite (not_quote_neq _ Q). reflexivity.
Qed.

Lemma no_quote_suffix (pre s : str) :
  no_quote (pre ++ s) = true -> no_quote s = true.
Proof.
  unfold no_quote. rewrite forallb_app. intros H.
  apply andb_true_iff in H. apply H.
Qed.

(** Without double quote there is no quoted span to remove. *)
Lemma strip_exact_no_quote (s : str) :
  no_quote s = true -> js_replace_all re_exact [] s = s.
Proof.
  intros Q. apply replace_no_match. intros pre t E.
  rewrite exec_exact, quoted_at_no_quote; [reflexivity|].
  rewrite E in Q. apply (no_quote_suffix _ _ Q).
Qed.

(** ** The runs of whitespace *)

Lemma collapse_space (rep : str) (c : char) (s : str) (i : nat) :
  is_space c = true ->
  replace_from re_spaces rep i 0 (c :: s)
  = rep ++ replace_from re_spaces rep
             (i + S (length (take_while is_space s))) 0
             (drop_while is_space s).
Proof.
  intros C.
  rewrite (replace_from_hit _ rep i (length (take_while is_space s)) []).
  - f_equal. f_equal. cbn [skipn]. apply skipn_take_while.
  - rewrite exec_spaces, C. reflexivity.
  - cbn [length].
    pose proof (f_equal (@length char) (take_drop_while is_space s)) as L.
    rewrite length_app in L. lia.
Qed.

Lemma collapse_other (rep : str) (c : char) (s : str) (i : nat) :
  is_space c = false ->
  replace_from re_spaces rep i 0 (c :: s)
  = c :: replace_from re_spaces rep (S i) 0 s.
Proof.
  intros C. apply replace_from_miss. rewrite exec_spaces, C. reflexivity.
Qed.

Lemma collapse_nil (rep : str) (i : nat) :
  replace_from re_spaces rep i 0 [] = [].
Proof. apply replace_from_nil. apply exec_spaces. Qed.

Lemma length_drop_while (p : char -> bool) (s : str) :
  length (drop_while p s) <= length s.
Proof.
  induction s as [|c s IH]; simpl; [lia|]. destruct (p c); simpl; lia.
Qed.

(** Making each run of whitespace one space is a reduction, and leaves
    single spaces. *)
Lemma collapse_spec (n : nat) :
  forall (s : str) (i : nat),
    length s <= n ->
    reduces s (replace_from re_spaces [c_sp] i 0 s) /\
    single_spaces (replace_from re_spaces [c_sp] i 0 s) = true /\
    head_ok (replace_from re_spaces [c_sp] i 0 s) = head_ok s.
Proof.
  induction n as [|n IH]; intros s i L.
  - destruct s; [|simpl in L; lia]. rewrite collapse_nil.
    split; [constructor|split; reflexivity].
  - destruct s as [|c s].
    { rewrite collapse_nil. split; [constructor|split; reflexivity]. }
    destruct (is_space c) eqn:C.
    + rewrite collapse_space by exact C. cbn [app].
      pose proof (length_drop_while is_space s) as Ld.
      destruct (IH (drop_while is_space s)
                  (i + S (length (take_while is_space s))))
        as (R & S1 & H); [simpl in L; lia|].
      split; [|split].
      * rewrite <- (take_drop_while is_space s).
        change (c :: take_while is_space s ++ drop_while is_space s)
          with ((c :: take_while is_space s) ++ drop_while is_space s).
        rewrite take_drop_while. apply rd_space; [discriminate| |exact R].
        cbn [forallb]. rewrite C. apply take_while_all.
      * cbn [single_spaces]. change (is_space c_sp) with true.
        rewrite ch_eqb_refl, S1. cbn [andb].
        destruct (replace_from re_spaces [c_sp] _ 0 (drop_while is_space s))
          as [|d u] eqn:X; [reflexivity|].
        rewrite andb_true_r. change (not_space d) with (head_ok (d :: u)).
        rewrite H. destruct (drop_while is_space s) as [|e v] eqn:D.
        -- rewrite collapse_nil in X. discriminate.
        -- simpl. apply not_space_true. apply (drop_while_head _ _ D).
      * simpl. unfold not_space. rewrite C. reflexivity.
    + rewrite collapse_other by exact C.
      destruct (IH s (S i)) as (R & S1 & H); [simpl in L; lia|].
      split; [apply rd_keep; exact R|split].
      * cbn [single_spaces]. rewrite C, S1. reflexivity.
      * reflexivity.
Qed.

(** ** Trimming *)

Lemma reduces_refl (s : str) : reduces s s.
Proof. induction s; constructor; assumption. Qed.

Lemma reduces_trimEnd (s : str) : reduces s (trimEnd s).
Proof.
  induction s as [|c s IH]; [constructor|]. rewrite trimEnd_cons.
  destruct (is_space c) eqn:C.
  - destruct (trimEnd s) eqn:T.
    + rewrite <- (app_nil_r (c :: s)). apply rd_drop;
        [discriminate|reflexivity|constructor].
    + apply rd_keep. exact IH.
  - apply rd_keep. exact IH.
Qed.

Lemma trimStart_split (s : str) :
  s = take_while is_space s ++ trimStart s.
Proof. symmetry. apply take_drop_while. Qed.

Lemma trim_free (op s : str) :
  op_ok op = true -> find_op op s = None -> find_op op (trim s) = None.
Proof.
  intros K F. unfold trim.
  apply (reduces_free op _ _ K (reduces_trimEnd _)).
  rewrite (trimStart_split s) in F. apply (find_op_none_suffix _ _ _ F).
Qed.

Lemma trim_no_quote (s : str) : no_quote s = true -> no_quote (trim s) = true.
Proof.
  intros Q. unfold trim. apply (reduces_no_quote _ _ (reduces_trimEnd _)).
  rewrite (trimStart_split s) in Q. apply (no_quote_suffix _ _ Q).
Qed.

Lemma trim_no_dash (s : str) : dash_words s = [] -> dash_words (trim s) = [].
Proof.
  unfold dash_words, trim. intros D.
  apply (reduces_no_dash _ _ (reduces_trimEnd _)).
  rewrite (trimStart_split s) in D.
  destruct (take_while is_space s) as [|c u] eqn:T; [exact D|].
  rewrite dash_words_spaces in D; [exact D|discriminate|].
  rewrite <- T. apply take_while_all.
Qed.

Lemma single_spaces_suffix (pre s : str) :
  single_spaces (pre ++ s) = true -> single_spaces s = true.
Proof.
  induction pre as [|c pre IH]; [trivial|]. cbn [app single_spaces].
  intros H. apply andb_true_iff in H. apply IH. apply H.
Qed.

Lemma trimEnd_nil_head (s : str) (c : char) (t : str) :
  trimEnd s = c :: t -> exists u, s = c :: u.
Proof.
  destruct s as [|d s]; [discriminate|]. rewrite trimEnd_cons.
  destruct (is_space d); [destruct (trimEnd s); [discriminate|]|];
    intros H; injection H as <- _; exists s; reflexivity.
Qed.

Lemma single_spaces_trimEnd (s : str) :
  single_spaces s = true -> single_spaces (trimEnd s) = true.
Proof.
  induction s as [|c s IH]; [trivial|]. cbn [single_spaces]. intros H.
  apply andb_true_iff in H. destruct H as [H1 H2]. rewrite trimEnd_cons.
  assert (X : single_spaces (c :: trimEnd s) = true).
  { cbn [single_spaces]. rewrite (IH H2), andb_true_r.
    destruct (is_space c); [|reflexivity].
    apply andb_true_iff in H1. destruct H1 as [H1 H3]. rewrite H1. cbn [andb].
    destruct (trimEnd s) as [|d t] eqn:T; [reflexivity|].
    destruct (trimEnd_nil_head _ _ _ T) as [u ->]. exact H3. }
  destruct (is_space c); [destruct (trimEnd s); [reflexivity|]|]; exact X.
Qed.

Lemma single_spaces_ends (s : str) :
  single_spaces s = true -> s = [] \/ last_ok s = true -> spaced_ok s = true.
Proof.
  induction s as [|c s IH]; [reflexivity|]. cbn [single_spaces spaced_ok].
  intros H L. apply andb_true_iff in H. destruct H as [H1 H2].
  destruct L as [L|L]; [discriminate|].
  destruct s as [|d s].
  - simpl in L. apply not_space_true in L. rewrite L. reflexivity.
  - rewrite last_ok_cons in L by discriminate.
    rewrite (IH H2) by (right; exact L). rewrite andb_true_r.
    destruct (is_space c); [|reflexivity]. exact H1.
Qed.

(** What trimming makes of a string with single spaces. *)
Lemma trim_normalized (s : str) :
  single_spaces s = true -> normalized (trim s) = true.
Proof.
  intros S1. unfold normalized.
  assert (S2 : single_spaces (trim s) = true).
  { unfold trim. apply single_spaces_trimEnd.
    rewrite (trimStart_split s) in S1. apply (single_spaces_suffix _ _ S1). }
  destruct (trim_ends s) as [E|[H L]].
  - rewrite E. reflexivity.
  - rewrite H, orb_true_r. cbn [andb].
    apply single_spaces_ends; [exact S2|right; exact L].
Qed.

(** ** The stripper as a whole *)

Lemma strip_op_reduces (op s : str) : reduces s (js_replace_all (re_op op) [] s).
Proof. apply (reduces_strip_op op (length s)). lia. Qed.

Lemma strip_op_gone (op s : str) :
  op_ok op = true -> find_op op (js_replace_all (re_op op) [] s) = None.
Proof. intros K. apply (strip_op_complete op (length s) K). lia. Qed.

Lemma collapse_reduces (s : str) :
  reduces s (js_replace_all re_spaces [c_sp] s) /\
  single_spaces (js_replace_all re_spaces [c_sp] s) = true.
Proof.
  destruct (collapse_spec (length s) s 0) as (R & S1 & _); [lia|].
  split; assumption.
Qed.

(** The result of the stripper is in normal form. *)
Lemma strip_normalized (s : str) : normalized (stripOperators s) = true.
Proof.
  unfold stripOperators. apply trim_normalized.
  change (lit " ") with [c_sp]. apply collapse_reduces.
Qed.

(** What the stripper leaves of a string without double quote. *)
Lemma strip_quote_free (s op : str) :
  no_quote s = true ->
  In op [lit "after:"; lit "before:"; lit "intitle:"; lit "channel:"; lit "#"] ->
  find_op op (stripOperators s) = None /\
  no_quote (stripOperators s) = true /\
  dash_words (stripOperators s) = [].
Proof.
  intros Q0 I. unfold stripOperators. change (lit " ") with [c_sp].
  set (s1 := js_replace_all (re_op (lit "after:")) [] s).
  set (s2 := js_replace_all (re_op (lit "before:")) [] s1).
  set (s3 := js_replace_all (re_op (lit "intitle:")) [] s2).
  pose proof (strip_op_reduces (lit "after:") s) as R1. fold s1 in R1.
  pose proof (strip_op_reduces (lit "before:") s1) as R2. fold s2 in R2.
  pose proof (strip_op_reduces (lit "intitle:") s2) as R3. fold s3 in R3.
  pose proof (reduces_no_quote _ _ R1 Q0) as Q1.
  pose proof (reduces_no_quote _ _ R2 Q1) as Q2.
  pose proof (reduces_no_quote _ _ R3 Q2) as Q3.
  rewrite (strip_exact_no_quote s3 Q3).
  set (s5 := js_replace_all (re_op (lit "channel:")) [] s3).
  set (s6 := js_replace_all (re_op (lit "#")) [] s5).
  set (s7 := js_replace_all re_exclude [] s6).
  set (s8 := js_replace_all re_spaces [c_sp] s7).
  pose proof (strip_op_reduces (lit "channel:") s3) as R5. fold s5 in R5.
  pose proof (strip_op_reduces (lit "#") s5) as R6. fold s6 in R6.
  destruct (strip_exclude_spec s6) as [R7 D7]. fold s7 in R7, D7.
  destruct (collapse_reduces s7) as [R8 _]. fold s8 in R8.
  pose proof (reduces_no_quote _ _ R5 Q3) as Q5.
  pose proof (reduces_no_quote _ _ R6 Q5) as Q6.
  pose proof (reduces_no_quote _ _ R7 Q6) as Q7.
  pose proof (reduces_no_quote _ _ R8 Q7) as Q8.
  split; [|split].
  - assert (K : op_ok op = true).
    { cbn [In] in I.
      destruct I as [<-|[<-|[<-|[<-|[<-|[]]]]]]; vm_compute; reflexivity. }
    apply (trim_free op s8 K).
    apply (reduces_free op _ _ K R8). apply (reduces_free op _ _ K R7).
    cbn [In] in I. destruct I as [<-|[<-|[<-|[<-|[<-|[]]]]]].
    + apply (reduces_free _ _ _ K R6). apply (reduces_free _ _ _ K R5).
      apply (reduces_free _ _ _ K R3). apply (reduces_free _ _ _ K R2).
      apply (strip_op_gone _ s K).
    + apply (reduces_free _ _ _ K R6). apply (reduces_free _ _ _ K R5).
      apply (reduces_free _ _ _ K R3). apply (strip_op_gone _ s1 K).
    + apply (reduces_free _ _ _ K R6). apply (reduces_free _ _ _ K R5).
      apply (strip_op_gone _ s2 K).
    + apply (reduces_free _ _ _ K R6). apply (strip_op_gone _ s3 K).
    + apply (strip_op_gone _ s5 K).
  - apply trim_no_quote. exact Q8.
  - apply trim_no_dash. apply (reduces_no_dash _ _ R8 true). exact D7.
Qed.

Lemma parse_nil_iff (q : str) :
  parseQueryFilters q = [] <->
  find_op (lit "after:") q = None /\ find_op (lit "before:") q = None /\
  find_op (lit "intitle:") q = None /\ quoted_spans q = [] /\
  dash_words q = [] /\ find_op (lit "channel:") q = None /\
  find_op (lit "#") q = None.
Proof.
  rewrite parse_shape. split.
  - intros H.
    repeat (apply app_eq_nil in H; destruct H as [? H]).
    repeat match goal with
           | X : entry_of _ ?o = [] |- _ =>
               destruct o; [discriminate X|clear X]
           | X : map _ _ = [] |- _ => apply map_eq_nil in X
           | X : exclude_entry ?w = [] |- _ =>
               destruct w; [clear X|discriminate X]
           end.
    repeat split; try reflexivity; assumption.
  - intros (A & B & C & D & E & F & G).
    rewrite A, B, C, D, E, F, G. reflexivity.
Qed.

Lemma strip_op_id (op s : str) :
  find_op op s = None -> js_replace_all (re_op op) [] s = s.
Proof.
  intros F. apply replace_no_match. intros pre t E. rewrite exec_op.
  rewrite E in F. rewrite (find_op_none_at _ _ _ F). reflexivity.
Qed.

Lemma strip_exact_id (s : str) :
  quoted_spans s = [] -> js_replace_all re_exact [] s = s.
Proof.
  intros Q. apply replace_no_match. intros pre t E.
  unfold quoted_spans in Q.
  rewrite <- (matches_exact_spans (n := length s) s 0) in Q by lia.
  apply map_eq_nil in Q.
  pose proof (matches_nil_no_exec _ _ _ Q pre t E) as X.
  rewrite exec_exact_capture in X. rewrite exec_exact.
  destruct (quoted_at t); [discriminate X|reflexivity].
Qed.

Lemma strip_exclude_id (s : str) :
  dash_words s = [] -> js_replace_all re_exclude [] s = s.
Proof.
  intros D. apply replace_no_match. intros pre t E.
  rewrite <- matches_exclude_words in D. apply map_eq_nil in D.
  pose proof (matches_nil_no_exec _ _ _ D pre t E) as X.
  rewrite exec_exclude_capture in X. rewrite exec_exclude.
  destruct (if Nat.eqb (0 + length pre) 0 then op_at [c_dash] t else None);
    [discriminate X|].
  destruct t as [|c t]; [reflexivity|].
  destruct (is_space c); [|reflexivity].
  destruct (op_at [c_dash] t); [discriminate X|reflexivity].
Qed.

Lemma collapse_id (s : str) (i : nat) :
  spaced_ok s = true -> replace_from re_spaces [c_sp] i 0 s = s.
Proof.
  revert i. induction s as [|c s IH]; intros i H; [apply collapse_nil|].
  cbn [spaced_ok] in H. apply andb_true_iff in H. destruct H as [H1 H2].
  destruct (is_space c) eqn:C.
  - apply andb_true_iff in H1. destruct H1 as [E Hs].
    apply ch_eqb_eq in E. subst c. rewrite collapse_space by exact C.
    destruct s as [|d s]; [discriminate|]. simpl in Hs.
    apply not_space_true in Hs. cbn [take_while drop_while]. rewrite Hs.
    cbn [app]. f_equal. apply IH. exact H2.
  - rewrite collapse_other by exact C. f_equal. apply IH. exact H2.
Qed.

Lemma spaced_ok_last (s : str) :
  s <> [] -> spaced_ok s = true -> last_ok s = true.
Proof.
  induction s as [|c s IH]; [contradiction|]. intros _ H.
  cbn [spaced_ok] in H. apply andb_true_iff in H. destruct H as [H1 H2].
  destruct s as [|d s].
  - simpl. destruct (is_space c) eqn:C.
    + apply andb_true_iff in H1. destruct H1 as [_ X]. discriminate X.
    + apply not_space_true. exact C.
  - rewrite last_ok_cons by discriminate. apply IH; [discriminate|exact H2].
Qed.

Lemma trim_normal_id (s : str) : normalized s = true -> trim s = s.
Proof.
  unfold normalized. intros H. apply andb_true_iff in H. destruct H as [H1 H2].
  destruct s as [|c s]; [reflexivity|]. cbn [truthy negb orb] in H1.
  apply trim_id; [exact H1|]. apply spaced_ok_last; [discriminate|exact H2].
Qed.

(** A string in normal form in which the parser finds nothing is left as it
    is. *)
Lemma strip_fixed (s : str) :
  parseQueryFilters s = [] -> normalized s = true -> stripOperators s = s.
Proof.
  intros P N. apply parse_nil_iff in P.
  destruct P as (A & B & C & D & E & F & G).
  unfold stripOperators. change (lit " ") with [c_sp].
  rewrite (strip_op_id _ _ A), (strip_op_id _ _ B), (strip_op_id _ _ C).
  rewrite (strip_exact_id _ D).
  rewrite (strip_op_id _ _ F), (strip_op_id _ _ G), (strip_exclude_id _ E).
  unfold js_replace_all. rewrite collapse_id.
  - apply trim_normal_id. exact N.
  - unfold normalized in N. apply andb_true_iff in N. apply N.
Qed.

Lemma strip_parses_empty (s : str) :
  no_quote s = true -> parseQueryFilters (stripOperators s) = [].
Proof.
  intros Q. apply parse_nil_iff.
  destruct (strip_quote_free s (lit "after:") Q) as (A & NQ & D);
    [simpl; tauto|].
  destruct (strip_quote_free s (lit "before:") Q) as (B & _);
    [simpl; tauto|].
  destruct (strip_quote_free s (lit "intitle:") Q) as (C & _);
    [simpl; tauto|].
  destruct (strip_quote_free s (lit "channel:") Q) as (F & _);
    [simpl; tauto|].
  destruct (strip_quote_free s (lit "#") Q) as (G & _); [simpl; tauto|].
  repeat split; try assumption.
  apply spans_no_quote. exact NQ.
Qed.

(** ** Properties of the stripper *)

(** A double quote may join what it separates: the removal of the quoted
    span of this string makes an operator that the stripper has already
    passed, so that a second run removes more. *)
Example strip_twice_differs :
  stripOperators (lit "af" ++ [c_quote] ++ lit "x" ++ [c_quote] ++ lit "ter:y")
  = lit "after:y"
  /\ stripOperators (lit "after:y") = [].
Proof. split; vm_compute; reflexivity. Qed.

(** X1: the result of stripOperators is in normal form, whatever the query:
    it is empty or starts with a character that is not whitespace, and each
    whitespace character in it is one space with a character that is not
    whitespace after it. *)
Theorem stripOperators_normal_form :
  forall s : str, normalized (stripOperators s) = true.
Proof. exact strip_normalized. Qed.

(** X2: from a query without double quote the stripper removes every
    operator: the parser finds no filter in the result. *)
Theorem stripOperators_leaves_no_filter :
  forall s : str,
    no_quote s = true -> parseQueryFilters (stripOperators s) = [].
Proof. exact strip_parses_empty. Qed.

Lemma stripOperators_leaves_no_filter_witness :
  no_quote (lit "react hooks after:2024-01-01 -beginner #webdev x-y") = true /\
  parseQueryFilters
    (stripOperators (lit "react hooks after:2024-01-01 -beginner #webdev x-y"))
  = [].
Proof.
  split; [vm_compute; reflexivity|].
  apply stripOperators_leaves_no_filter. vm_compute. reflexivity.
Defined.

(** X3: a query in normal form in which the parser finds no filter is left
    as it is by the stripper. *)
Theorem stripOperators_fixed_point :
  forall s : str,
    parseQueryFilters s = [] -> normalized s = true -> stripOperators s = s.
Proof. exact strip_fixed. Qed.

Lemma stripOperators_fixed_point_witness :
  parseQueryFilters (lit "python re-watch tutorial") = [] /\
  normalized (lit "python re-watch tutorial") = true /\
  stripOperators (lit "python re-watch tutorial")
  = lit "python re-watch tutorial".
Proof.
  split; [vm_compute; reflexivity|]. split; [vm_compute; reflexivity|].
  apply stripOperators_fixed_point; vm_compute; reflexivity.
Defined.

(** X4: on the queries without double quote the stripper is idempotent. *)
Theorem stripOperators_idempotent_without_quote :
  forall s : str,
    no_quote s = true ->
    stripOperators (stripOperators s) = stripOperators s.
Proof.
  intros s Q. apply strip_fixed.
  - apply strip_parses_empty. exact Q.
  - apply strip_normalized.
Qed.

Lemma stripOperators_idempotent_without_quote_witness :
  no_quote (lit "  python   after:2024-01-01 -x  tutorial ") = true /\
  stripOperators
    (stripOperators (lit "  python   after:2024-01-01 -x  tutorial "))
  = stripOperators (lit "  python   after:2024-01-01 -x  tutorial ").
Proof.
  split; [vm_compute; reflexivity|].
  apply stripOperators_idempotent_without_quote. vm_compute. reflexivity.
Defined.

(** ** Queries without operator *)

Lemma find_op_chars (op q v : str) (c : char) :
  find_op op q = Some v -> In c op -> In c q.
Proof.
  intros F I. destruct (find_op_some _ _ F) as (pre & post & E & _).
  rewrite E. apply in_or_app. right. apply in_or_app. left. exact I.
Qed.

Lemma plain_find_op (op q : str) (c : char) :
  forallb (fun x => negb (operator_char x)) q = true ->
  In c op -> operator_char c = true -> find_op op q = None.
Proof.
  intros P I O. destruct (find_op op q) as [v|] eqn:F; [|reflexivity].
  pose proof (find_op_chars _ _ _ c F I) as Q.
  rewrite forallb_forall in P. apply P in Q. rewrite O in Q. discriminate.
Qed.

Lemma plain_no_quote (q : str) :
  forallb (fun x => negb (operator_char x)) q = true -> no_quote q = true.
Proof.
  unfold no_quote. intros P. apply forallb_forall. intros x X.
  rewrite forallb_forall in P. apply P in X. unfold operator_char in X.
  unfold not_quote. destruct (ch_eqb x c_quote) eqn:E; [|reflexivity].
  apply ch_eqb_eq in E. subst x. rewrite ch_eqb_refl in X.
  rewrite !orb_true_r in X. discriminate.
Qed.

Lemma plain_no_dash (q : str) (b : bool) :
  forallb (fun x => negb (operator_char x)) q = true ->
  dash_words_from b q = [].
Proof.
  revert b. induction q as [|c q IH]; intros b P; [reflexivity|].
  cbn [forallb] in P. apply andb_true_iff in P. destruct P as [P1 P2].
  cbn [dash_words_from]. unfold operator_char in P1.
  destruct (ch_eqb c_dash c).
  - rewrite !orb_true_r in P1. discriminate.
  - rewrite andb_false_r. apply IH. exact P2.
Qed.

Lemma plain_parse_nil (q : str) :
  forallb (fun x => negb (operator_char x)) q = true ->
  parseQueryFilters q = [].
Proof.
  intros P. apply parse_nil_iff.
  assert (Colon : forall op, In 58%N op -> find_op op q = None).
  { intros op I. apply (plain_find_op op q 58%N P I). reflexivity. }
  repeat split.
  - apply Colon. vm_compute. tauto.
  - apply Colon. vm_compute. tauto.
  - apply Colon. vm_compute. tauto.
  - apply spans_no_quote. apply plain_no_quote. exact P.
  - apply plain_no_dash. exact P.
  - apply Colon. vm_compute. tauto.
  - apply (plain_find_op (lit "#") q c_hash P); [left|]; reflexivity.
Qed.

(** Making each run of whitespace one space changes no word. *)
Lemma words_collapse (n : nat) :
  forall (s cur : str) (i : nat),
    length s <= n ->
    words_acc cur (replace_from re_spaces [c_sp] i 0 s) = words_acc cur s.
Proof.
  induction n as [|n IH]; intros s cur i L.
  - destruct s; [|simpl in L; lia]. rewrite collapse_nil. reflexivity.
  - destruct s as [|c s]; [rewrite collapse_nil; reflexivity|].
    destruct (is_space c) eqn:C.
    + rewrite collapse_space by exact C. cbn [app words_acc].
      change (is_space c_sp) with true. rewrite C.
      pose proof (length_drop_while is_space s) as Ld.
      rewrite IH by (simpl in L; lia).
      change (words_acc [] (drop_while is_space s))
        with (words (trimStart s)).
      rewrite words_trimStart. reflexivity.
    + rewrite collapse_other by exact C. cbn [words_acc]. rewrite C.
      apply IH. simpl in L. lia.
Qed.

Lemma words_acc_head (s : str) : head_ok s = true -> words_acc [] s <> [].
Proof. apply words_of_head_ok. Qed.

(** A string in normal form is the join of its words. *)
Lemma join_words_acc (s cur : str) :
  spaced_ok s = true -> cur <> [] \/ s = [] \/ head_ok s = true ->
  join [c_sp] (words_acc cur s) = cur ++ s.
Proof.
  revert cur. induction s as [|c s IH]; intros cur S1 H.
  - cbn [words_acc]. destruct cur; [reflexivity|].
    cbn [join]. rewrite app_nil_r. reflexivity.
  - cbn [spaced_ok] in S1. apply andb_true_iff in S1. destruct S1 as [A B].
    cbn [words_acc]. destruct (is_space c) eqn:C.
    + apply andb_true_iff in A. destruct A as [E Hs].
      apply ch_eqb_eq in E. subst c.
      destruct cur as [|x cur].
      * destruct H as [H|[H|H]]; [contradiction|discriminate|].
        simpl in H. discriminate H.
      * pose proof (words_acc_head s Hs) as W.
        pose proof (IH [] B (or_intror (or_intror Hs))) as J.
        destruct (words_acc [] s) as [|w ws]; [contradiction|].
        change (join [c_sp] ((x :: cur) :: w :: ws))
          with ((x :: cur) ++ [c_sp] ++ join [c_sp] (w :: ws)).
        rewrite J. reflexivity.
    + rewrite IH; [rewrite <- app_assoc; reflexivity|exact B|].
      left. destruct cur; discriminate.
Qed.

Lemma join_words_normalized (s : str) :
  normalized s = true -> join [c_sp] (words s) = s.
Proof.
  unfold normalized. intros N. apply andb_true_iff in N. destruct N as [H S1].
  unfold words. rewrite join_words_acc; [reflexivity|exact S1|].
  right. destruct s as [|c s]; [left; reflexivity|right; exact H].
Qed.

(** The two steps on whitespace give the words joined by single spaces. *)
Lemma trim_collapse_words (s : str) :
  trim (js_replace_all re_spaces [c_sp] s) = join [c_sp] (words s).
Proof.
  assert (N : normalized (trim (js_replace_all re_spaces [c_sp] s)) = true).
  { apply trim_normalized. apply collapse_reduces. }
  rewrite <- (join_words_normalized _ N). f_equal.
  rewrite words_trim. unfold words, js_replace_all.
  apply (words_collapse (length s)). lia.
Qed.

Lemma plain_strip (q : str) :
  forallb (fun x => negb (operator_char x)) q = true ->
  stripOperators q = join [c_sp] (words q).
Proof.
  intros P. pose proof (plain_parse_nil q P) as N. apply parse_nil_iff in N.
  destruct N as (A & B & C & D & E & F & G).
  unfold stripOperators. change (lit " ") with [c_sp].
  rewrite (strip_op_id _ _ A), (strip_op_id _ _ B), (strip_op_id _ _ C).
  rewrite (strip_exact_id _ D).
  rewrite (strip_op_id _ _ F), (strip_op_id _ _ G), (strip_exclude_id _ E).
  apply trim_collapse_words.
Qed.

(** X5: in a query without colon, number sign, double quote and dash the
    parser finds no filter, and the stripper only puts the whitespace in
    order: its result is the words of the query joined by single spaces. *)
Theorem plain_query_untouched :
  forall q : str,
    forallb (fun c => negb (operator_char c)) q = true ->
    parseQueryFilters q = [] /\
    stripOperators q = join [c_sp] (words q).
Proof.
  intros q P. split; [apply plain_parse_nil|apply plain_strip]; exact P.
Qed.

Lemma plain_query_untouched_witness :
  forallb (fun c => negb (operator_char c)) (lit " python   tutorial") = true /\
  parseQueryFilters (lit " python   tutorial") = [] /\
  stripOperators (lit " python   tutorial") = lit "python tutorial".
Proof.
  split; [vm_compute; reflexivity|].
  apply (plain_query_untouched (lit " python   tutorial")).
  vm_compute. reflexivity.
Defined.

(** ** The CSV export *)

Lemma csvEscape_cases (v : str) :
  csvEscape v
  = if existsb csv_special v then c_quote :: double_quotes v ++ [c_quote]
    else v.
Proof.
  unfold csvEscape, js_replace_all, re_quote, double_quotes.
  change (lit ",") with [c_comma].
  rewrite !includes_char, replace_char_flat_map.
  assert (E : existsb (ch_eqb c_comma) v || existsb (ch_eqb c_quote) v
              || existsb (ch_eqb c_lf) v || existsb (ch_eqb c_cr) v
              = existsb csv_special v).
  { induction v as [|c v IH]; cbn [existsb]; [reflexivity|].
    rewrite <- IH. unfold csv_special.
    destruct (ch_eqb c_comma c), (ch_eqb c_quote c), (ch_eqb c_lf c),
      (ch_eqb c_cr c), (existsb (ch_eqb c_comma) v),
      (existsb (ch_eqb c_quote) v), (existsb (ch_eqb c_lf) v); reflexivity. }
  rewrite E. reflexivity.
Qed.

Lemma double_quotes_inj (a b : str) :
  double_quotes a = double_quotes b -> a = b.
Proof.
  unfold double_quotes. revert b.
  induction a as [|x a IH]; intros [|y b]; cbn [flat_map].
  - reflexivity.
  - destruct (ch_eqb c_quote y); discriminate.
  - destruct (ch_eqb c_quote x); discriminate.
  - destruct (ch_eqb c_quote x) eqn:X, (ch_eqb c_quote y) eqn:Y; cbn [app];
      intros H.
    + apply ch_eqb_eq in X, Y. subst x y. injection H as H.
      f_equal. apply IH. exact H.
    + injection H as H1 H2. subst y. rewrite ch_eqb_refl in Y. discriminate.
    + injection H as H1 H2. subst x. rewrite ch_eqb_refl in X. discriminate.
    + injection H as H1 H2. subst y. f_equal. apply IH. exact H2.
Qed.

Lemma special_quote (v : str) : In c_quote v -> existsb csv_special v = true.
Proof.
  intros I. apply existsb_exists. exists c_quote. split; [exact I|].
  reflexivity.
Qed.

Lemma csvEscape_inj (a b : str) : csvEscape a = csvEscape b -> a = b.
Proof.
  rewrite !csvEscape_cases.
  destruct (existsb csv_special a) eqn:A, (existsb csv_special b) eqn:B;
    intros H.
  - injection H as H. apply app_inj_tail in H. destruct H as [H _].
    apply double_quotes_inj. exact H.
  - rewrite <- H in B. rewrite special_quote in B; [discriminate|].
    left. reflexivity.
  - rewrite H in A. rewrite special_quote in A; [discriminate|].
    left. reflexivity.
  - exact H.
Qed.

(** X6: csvEscape is injective: two values with the same escaped text are
    the same value, so that no two values are mixed up in the export. *)
Theorem csvEscape_injective :
  forall a b : str, csvEscape a = csvEscape b -> a = b.
Proof. exact csvEscape_inj. Qed.

Lemma csvEscape_injective_witness :
  csvEscape (lit "a,b") = csvEscape (lit "a" ++ [c_comma] ++ lit "b") /\
  lit "a,b" = lit "a" ++ [c_comma] ++ lit "b".
Proof.
  split; [vm_compute; reflexivity|].
  apply (csvEscape_injective (lit "a,b") (lit "a" ++ [c_comma] ++ lit "b")).
  vm_compute. reflexivity.
Defined.

Lemma scan_app (p : char -> bool) (x y : str) (b : bool) :
  quote_state b (x ++ y) = quote_state (quote_state b x) y /\
  bare_count p b (x ++ y)
  = bare_count p b x + bare_count p (quote_state b x) y.
Proof.
  revert b. induction x as [|c x IH]; intros b; [split; reflexivity|].
  cbn [app quote_state bare_count]. destruct (ch_eqb c_quote c).
  - apply IH.
  - destruct (IH b) as [IH1 IH2]. split; [exact IH1|].
    rewrite IH2. lia.
Qed.

Lemma scan_plain (p : char -> bool) (v : str) (b : bool) :
  (forall c, p c = true -> csv_separator c = true) ->
  existsb csv_special v = false ->
  quote_state b v = b /\ bare_count p b v = 0.
Proof.
  intros P. induction v as [|c v IH]; intros E; [split; reflexivity|].
  cbn [existsb] in E. apply orb_false_iff in E. destruct E as [E1 E2].
  unfold csv_special in E1.
  destruct (ch_eqb c_quote c) eqn:Q; [rewrite !orb_true_r in E1; discriminate|].
  cbn [quote_state bare_count]. rewrite Q. destruct (IH E2) as [IH1 IH2].
  split; [exact IH1|]. rewrite IH2.
  destruct (p c) eqn:Pc; [|rewrite andb_false_r; reflexivity].
  apply P in Pc. unfold csv_separator in Pc.
  destruct (ch_eqb c_comma c), (ch_eqb c_lf c), (ch_eqb c_cr c);
    discriminate.
Qed.

Lemma scan_inside (p : char -> bool) (v : str) :
  quote_state true (double_quotes v) = true /\
  bare_count p true (double_quotes v) = 0.
Proof.
  unfold double_quotes. induction v as [|c v [IH1 IH2]]; [split; reflexivity|].
  cbn [flat_map]. destruct (ch_eqb c_quote c) eqn:Q.
  - cbn [app quote_state bare_count]. rewrite ch_eqb_refl. cbn [negb].
    split; assumption.
  - cbn [app quote_state bare_count]. rewrite Q. cbn [negb andb].
    split; assumption.
Qed.

(** An escaped value reads as one field: its separators are all inside its
    double quotes, which are closed at its end. *)
Lemma scan_field (p : char -> bool) (v : str) :
  (forall c, p c = true -> csv_separator c = true) ->
  quote_state false (csvEscape v) = false /\
  bare_count p false (csvEscape v) = 0.
Proof.
  intros P. rewrite csvEscape_cases.
  destruct (existsb csv_special v) eqn:E; [|apply scan_plain; assumption].
  cbn [quote_state bare_count]. rewrite ch_eqb_refl. cbn [negb].
  destruct (scan_app p (double_quotes v) [c_quote] true) as [A B].
  destruct (scan_inside p v) as [C D].
  rewrite A, B, C, D. cbn [quote_state bare_count]. rewrite ch_eqb_refl.
  split; reflexivity.
Qed.

(** X7: the text that csvEscape gives reads as one field: read from outside
    double quotes, it ends outside double quotes, and no comma, line feed or
    carriage return of it stands outside double quotes. *)
Theorem csvEscape_one_field :
  forall v : str,
    quote_state false (csvEscape v) = false /\
    bare_count csv_separator false (csvEscape v) = 0.
Proof. intros v. apply scan_field. trivial. Qed.

Lemma scan_join (p : char -> bool) (d : char) (l : list str) :
  ch_eqb c_quote d = false ->
  (forall x, In x l -> quote_state false x = false) ->
  quote_state false (join [d] l) = false /\
  bare_count p false (join [d] l)
  = list_sum (map (bare_count p false) l)
    + (if p d then length l - 1 else 0).
Proof.
  intros D. induction l as [|x l IH]; intros H.
  - split; [reflexivity|]. cbn. destruct (p d); reflexivity.
  - assert (Hx : quote_state false x = false) by (apply H; left; reflexivity).
    destruct l as [|y l].
    + cbn [join map length]. unfold list_sum. cbn [fold_right].
      split; [exact Hx|]. destruct (p d); lia.
    + change (join [d] (x :: y :: l)) with (x ++ d :: join [d] (y :: l)).
      destruct IH as [IH1 IH2]; [intros z Z; apply H; right; exact Z|].
      destruct (scan_app p x (d :: join [d] (y :: l)) false) as [A B].
      rewrite A, B, Hx. cbn [quote_state bare_count]. rewrite D.
      split; [exact IH1|]. rewrite IH2. cbn [map length negb andb].
      unfold list_sum. cbn [fold_right]. destruct (p d); lia.
Qed.

Lemma list_sum_zero (l : list nat) :
  (forall n, In n l -> n = 0) -> list_sum l = 0.
Proof.
  induction l as [|a l IH]; intros H; [reflexivity|].
  change (list_sum (a :: l)) with (a + list_sum l).
  rewrite (H a) by (left; reflexivity). apply IH.
  intros n N. apply H. right. exact N.
Qed.

Lemma list_sum_const (l : list nat) (k : nat) :
  (forall n, In n l -> n = k) -> list_sum l = length l * k.
Proof.
  induction l as [|a l IH]; intros H; [reflexivity|].
  change (list_sum (a :: l)) with (a + list_sum l). cbn [length].
  rewrite (H a) by (left; reflexivity). rewrite IH; [lia|].
  intros n N. apply H. right. exact N.
Qed.

(** A line of escaped fields: as many commas outside double quotes as
    fields but one, and no line feed outside double quotes. *)
Lemma scan_line (fields : list str) :
  fields <> [] ->
  quote_state false (join [c_comma] (map csvEscape fields)) = false /\
  bare_count (ch_eqb c_comma) false (join [c_comma] (map csvEscape fields))
  = length fields - 1 /\
  bare_count (ch_eqb c_lf) false (join [c_comma] (map csvEscape fields)) = 0.
Proof.
  intros N.
  assert (Q : forall x, In x (map csvEscape fields) ->
                        quote_state false x = false).
  { intros x X. apply in_map_iff in X. destruct X as (v & <- & _).
    apply (scan_field (fun _ => false)). discriminate. }
  assert (Z : forall p, (forall c, p c = true -> csv_separator c = true) ->
                list_sum (map (bare_count p false) (map csvEscape fields)) = 0).
  { intros p P. apply list_sum_zero. intros n I. apply in_map_iff in I.
    destruct I as (x & <- & X). apply in_map_iff in X.
    destruct X as (v & <- & _). apply (scan_field p v P). }
  destruct (scan_join (ch_eqb c_comma) c_comma (map csvEscape fields)
              eq_refl Q) as [A B].
  destruct (scan_join (ch_eqb c_lf) c_comma (map csvEscape fields)
              eq_refl Q) as [_ C].
  split; [exact A|split].
  - rewrite B, Z, length_map, ch_eqb_refl; [reflexivity|].
    intros c E. apply ch_eqb_eq in E. subst c. reflexivity.
  - rewrite C, Z; [reflexivity|].
    intros c E. apply ch_eqb_eq in E. subst c. reflexivity.
Qed.

Lemma generateCSV_shape (selectedFields : FieldSet)
  (results : list VideoResult) (query exportDate : str) :
  let columns :=
    length (filter (fun f => set_mem FieldKey_eq_dec (ef_key f) selectedFields)
              EXPORT_FIELDS) + 2 in
  exists content,
    generateCSV selectedFields results query exportDate = c_bom :: content /\
    quote_state false content = false /\
    bare_count (ch_eqb c_lf) false content = length results /\
    bare_count (ch_eqb c_comma) false content
    = (1 + length results) * (columns - 1).
Proof.
  intros columns. unfold generateCSV. cbv zeta.
  set (active := filter _ EXPORT_FIELDS) in *.
  change (lit ",") with [c_comma].
  match goal with
  | |- exists content, [c_bom] ++ ?c = _ /\ _ => exists c
  end.
  split; [reflexivity|].
  set (header := map ef_label active ++ [lit "Search Query"; lit "Export Date"]).
  set (row := fun r : VideoResult =>
                map (fun f => field_of r (ef_key f)) active
                ++ [query; exportDate]).
  assert (Rows :
    map (join [c_comma])
      (map (fun r =>
              map (fun f => csvEscape (field_of r (ef_key f))) active
              ++ [csvEscape query; csvEscape exportDate]) results)
    = map (fun r => join [c_comma] (map csvEscape (row r))) results).
  { rewrite map_map. apply map_ext. intros r. unfold row.
    rewrite map_app, map_map. reflexivity. }
  rewrite Rows.
  set (lines := join [c_comma] (map csvEscape header)
                :: map (fun r => join [c_comma] (map csvEscape (row r)))
                     results).
  assert (Len : forall fields,
            fields = header \/ (exists r, fields = row r) ->
            length fields = columns /\ fields <> []).
  { intros fields [->|[r ->]]; unfold header, row, columns;
      rewrite length_app, length_map; cbn [length];
      (split; [lia|]); intros E; apply (f_equal (@length str)) in E;
      rewrite length_app in E; simpl in E; lia. }
  assert (Line : forall x, In x lines ->
            quote_state false x = false /\
            bare_count (ch_eqb c_comma) false x = columns - 1 /\
            bare_count (ch_eqb c_lf) false x = 0).
  { intros x [<-|X].
    - destruct (Len header (or_introl eq_refl)) as [L N].
      destruct (scan_line header N) as (A & B & C). rewrite <- L.
      split; [exact A|split; assumption].
    - apply in_map_iff in X. destruct X as (r & <- & _).
      destruct (Len (row r) (or_intror (ex_intro _ r eq_refl))) as [L N].
      destruct (scan_line (row r) N) as (A & B & C). rewrite <- L.
      split; [exact A|split; assumption]. }
  assert (Q : forall x, In x lines -> quote_state false x = false)
    by (intros x X; apply (Line x X)).
  destruct (scan_join (ch_eqb c_lf) c_lf lines eq_refl Q) as [A B].
  destruct (scan_join (ch_eqb c_comma) c_lf lines eq_refl Q) as [_ C].
  assert (LL : length lines = 1 + length results)
    by (unfold lines; cbn [length]; rewrite length_map; reflexivity).
  split; [exact A|split].
  - rewrite B, ch_eqb_refl, LL. rewrite list_sum_zero; [lia|].
    intros n I. apply in_map_iff in I. destruct I as (x & <- & X).
    apply (Line x X).
  - rewrite C. change (ch_eqb c_comma c_lf) with false.
    rewrite (list_sum_const _ (columns - 1)).
    + rewrite length_map, LL. lia.
    + intros n I. apply in_map_iff in I. destruct I as (x & <- & X).
      apply (Line x X).
Qed.


(** ** The selected fields *)

Lemma length_set_remove (k : FieldKey) (s : FieldSet) :
  length s <= S (length (set_remove FieldKey_eq_dec k s)).
Proof.
  induction s as [|x s IH]; [simpl; lia|]. cbn [set_remove].
  destruct (FieldKey_eq_dec k x); simpl; lia.
Qed.

Lemma toggle_field_nonempty (key : FieldKey) (checked : bool) (s : FieldSet) :
  s <> [] -> toggle_field key checked s <> [].
Proof.
  intros N. unfold toggle_field. destruct checked.
  - apply set_add_not_empty.
  - destruct (Nat.ltb 1 (length s)) eqn:L; [|exact N].
    apply Nat.ltb_lt in L. pose proof (length_set_remove key s) as R.
    intros E. rewrite E in R. simpl in R. lia.
Qed.

Lemma selected_column (s : FieldSet) :
  s <> [] ->
  filter (fun f => set_mem FieldKey_eq_dec (ef_key f) s) EXPORT_FIELDS <> [].
Proof.
  intros N. destruct s as [|k s]; [contradiction|].
  assert (M : set_mem FieldKey_eq_dec k (k :: s) = true).
  { apply set_mem_correct2. left. reflexivity. }
  intros E.
  assert (F : forall f, In f EXPORT_FIELDS -> ef_key f = k -> False).
  { intros f I K.
    assert (X : In f (filter (fun f => set_mem FieldKey_eq_dec (ef_key f)
                                         (k :: s)) EXPORT_FIELDS)).
    { apply filter_In. split; [exact I|]. rewrite K. exact M. }
    rewrite E in X. exact X. }
  destruct k;
    [ apply (F (nth 0 EXPORT_FIELDS (Build_ExportField KTitle [] true)))
    | apply (F (nth 1 EXPORT_FIELDS (Build_ExportField KTitle [] true)))
    | apply (F (nth 2 EXPORT_FIELDS (Build_ExportField KTitle [] true)))
    | apply (F (nth 3 EXPORT_FIELDS (Build_ExportField KTitle [] true)))
    | apply (F (nth 4 EXPORT_FIELDS (Build_ExportField KTitle [] true)))
    | apply (F (nth 5 EXPORT_FIELDS (Build_ExportField KTitle [] true))) ];
    try reflexivity; simpl; tauto.
Qed.

(** X9: the handler of the field checkboxes never empties the set of the
    selected fields, and a set that is not empty selects at least one column
    of the export. *)
Theorem toggle_field_keeps_one :
  forall (key : FieldKey) (checked : bool) (selectedFields : FieldSet),
    selectedFields <> [] ->
    toggle_field key checked selectedFields <> [] /\
    filter (fun f => set_mem FieldKey_eq_dec (ef_key f)
                       (toggle_field key checked selectedFields))
      EXPORT_FIELDS <> [].
Proof.
  intros key checked s N.
  pose proof (toggle_field_nonempty key checked s N) as T.
  split; [exact T|apply selected_column; exact T].
Qed.

Lemma toggle_field_keeps_one_witness :
  default_fields <> [] /\
  toggle_field KTitle false
    (toggle_field KUrl false (toggle_field KChannel false default_fields))
  <> [].
Proof.
  split; [vm_compute; discriminate|].
  apply (toggle_field_keeps_one KTitle false).
  apply (toggle_field_keeps_one KUrl false).
  apply (toggle_field_keeps_one KChannel false).
  vm_compute. discriminate.
Defined.

(** ** Joining query strings *)

Lemma join_app_both (sep : str) (l1 l2 : list str) :
  l1 <> [] -> l2 <> [] ->
  join sep (l1 ++ l2) = join sep l1 ++ sep ++ join sep l2.
Proof.
  intros N1 N2. induction l1 as [|x l1 IH]; [contradiction|].
  destruct l1 as [|y l1].
  - cbn [app]. destruct l2 as [|z l2]; [contradiction|]. reflexivity.
  - change (join sep ((x :: y :: l1) ++ l2))
      with (x ++ sep ++ join sep ((y :: l1) ++ l2)).
    rewrite IH by discriminate.
    change (join sep (x :: y :: l1)) with (x ++ sep ++ join sep (y :: l1)).
    rewrite <- !app_assoc. reflexivity.
Qed.

Lemma join_nil_iff (sep : str) (l : list str) :
  (forall x, In x l -> x <> []) -> (join sep l = [] <-> l = []).
Proof.
  intros H. split; [|intros ->; reflexivity].
  destruct l as [|x l]; [reflexivity|]. intros E. exfalso.
  apply (H x (or_introl eq_refl)). cbn [join] in E.
  destruct l; [exact E|]. apply app_eq_nil in E. apply E.
Qed.

Lemma join_two (sep : str) (l1 l2 : list str) :
  (forall x, In x (l1 ++ l2) -> x <> []) ->
  join sep (l1 ++ l2)
  = join sep (filter truthy [join sep l1; join sep l2]).
Proof.
  intros H. destruct l1 as [|x l1].
  - cbn [app join filter truthy]. destruct (join sep l2) eqn:E; reflexivity.
  - destruct l2 as [|y l2].
    + rewrite app_nil_r. cbn [filter]. change (join sep []) with (@nil char).
      cbn [truthy]. destruct (join sep (x :: l1)) eqn:E; reflexivity.
    + rewrite join_app_both by discriminate. cbn [filter].
      assert (A : join sep (x :: l1) <> []).
      { intros E. apply join_nil_iff in E; [discriminate|].
        intros z Z. apply H. apply in_or_app. left. exact Z. }
      assert (B : join sep (y :: l2) <> []).
      { intros E. apply join_nil_iff in E; [discriminate|].
        intros z Z. apply H. apply in_or_app. right. exact Z. }
      destruct (join sep (x :: l1)); [contradiction|].
      destruct (join sep (y :: l2)); [contradiction|]. reflexivity.
Qed.

Lemma tokens_nonempty (fs : list ActiveTextFilter) (t : str) :
  In t (flat_map tokens_of fs) -> t <> [].
Proof.
  intros I. apply in_flat_map in I. destruct I as (f & _ & T).
  apply head_ok_nonempty. apply (tokens_of_ends f t T).
Qed.

Lemma buildQueryString_app_both (a b : list ActiveTextFilter) :
  buildQueryString (a ++ b)
  = join [c_sp] (filter truthy [buildQueryString a; buildQueryString b]).
Proof.
  rewrite !buildQueryString_tokens, flat_map_app. apply join_two.
  rewrite <- flat_map_app. apply tokens_nonempty.
Qed.

(** X10: the query string of two lists of filters put together is the query
    strings of the two lists joined by one space, and the one that is not
    empty when the other is empty. *)
Theorem buildQueryString_app :
  forall a b : list ActiveTextFilter,
    buildQueryString (a ++ b)
    = join [c_sp] (filter truthy [buildQueryString a; buildQueryString b]).
Proof. exact buildQueryString_app_both. Qed.

(** ** The preview and the query string *)

Lemma tokens_of_one (f : ActiveTextFilter) :
  inert f = false -> str_eqb (lit "exclude") (id f) = false ->
  length (tokens_of f) = 1.
Proof.
  intros I E. unfold tokens_of. rewrite I, E.
  repeat match goal with
         | |- context [if ?b then _ else _] => destruct b
         end; reflexivity.
Qed.

Lemma connectors_tokens (fs : list ActiveTextFilter) (first : bool) :
  length (connectors_of first fs) = length (flat_map tokens_of fs).
Proof.
  revert first. induction fs as [|f fs IH]; intros first; [reflexivity|].
  cbn [connectors_of flat_map]. rewrite length_app.
  destruct (inert f) eqn:I.
  - unfold tokens_of. rewrite I. apply IH.
  - destruct (str_eqb (lit "exclude") (id f)) eqn:E.
    + rewrite length_app, length_map, IH. f_equal.
      unfold tokens_of. rewrite I, E.
      destruct (str_eqb (lit "exact") (id f)) eqn:X.
      * apply str_eqb_eq in X, E. rewrite <- X in E. vm_compute in E.
        discriminate E.
      * rewrite length_map, words_trim. reflexivity.
    + cbn [length]. rewrite IH, (tokens_of_one f I E). reflexivity.
Qed.

(** X11: the preview has one line for each token of the query string that
    buildQueryString gives for the same filters, and one more for the
    excludeShorts option. *)
Theorem preview_lines_match_tokens :
  forall (fs : list ActiveTextFilter) (o : option PreviewOptions),
    length (buildPreviewLines fs o)
    = length (flat_map tokens_of fs) + (if shorts_on o then 1 else 0)
    /\ buildQueryString fs = join [c_sp] (flat_map tokens_of fs).
Proof.
  intros fs o. split; [|apply buildQueryString_tokens].
  rewrite <- (length_map connector), buildPreviewLines_connectors.
  rewrite length_app, connectors_tokens. destruct (shorts_on o); reflexivity.
Qed.

(** ** The filter panel *)

Lemma trim_idem (v : str) : trim (trim v) = trim v.
Proof.
  destruct (trim_ends v) as [E|[H L]]; [rewrite E; reflexivity|].
  apply trim_id; assumption.
Qed.

Lemma getFilters_flat (textInputs : list (str * str)) :
  getFiltersFromInputs textInputs = flat_map input_entry textInputs.
Proof.
  unfold getFiltersFromInputs.
  rewrite (fold_left_appending _ input_entry); [reflexivity|].
  intros acc [i v]. unfold input_entry. cbn [fst snd].
  destruct (truthy (trim v)); [reflexivity|]. rewrite app_nil_r. reflexivity.
Qed.

Lemma summary_count_length (textInputs : list (str * str)) (es : bool) :
  summary_count textInputs es
  = length (getFiltersFromInputs textInputs) + (if es then 1 else 0).
Proof.
  unfold summary_count. rewrite getFilters_flat.
  assert (F : forall l n,
            fold_left
              (fun (count : nat) (entry : str * str) =>
                 if truthy (trim (snd entry)) then S count else count) l n
            = n + length (flat_map input_entry l)).
  { induction l as [|e l IH]; intros n; cbn [fold_left flat_map].
    - simpl. lia.
    - rewrite IH, length_app. unfold input_entry at 2.
      destruct (truthy (trim (snd e))); simpl; lia. }
  rewrite F. destruct es; lia.
Qed.

Lemma getFilters_not_inert (textInputs : list (str * str)) :
  forallb (fun e => known_id (fst e)) textInputs = true ->
  forall f, In f (getFiltersFromInputs textInputs) -> inert f = false.
Proof.
  intros K f I. rewrite getFilters_flat in I. apply in_flat_map in I.
  destruct I as ([i v] & E & F). unfold input_entry in F. cbn [fst snd] in F.
  destruct (truthy (trim v)) eqn:T; [|destruct F].
  destruct F as [<-|[]]. unfold inert. cbn [id value].
  rewrite forallb_forall in K. rewrite (K (i, v) E : known_id i = true).
  rewrite trim_idem, T. reflexivity.
Qed.

Lemma preview_nil_iff (fs : list ActiveTextFilter) (o : option PreviewOptions) :
  buildPreviewLines fs o = []
  <-> forallb inert fs = true /\ shorts_on o = false.
Proof.
  split.
  - intros H. apply (f_equal (map connector)) in H.
    rewrite buildPreviewLines_connectors in H. cbn [map] in H.
    apply app_eq_nil in H. destruct H as [H1 H2].
    apply connectors_of_nil in H1. split; [exact H1|].
    destruct (shorts_on o); [discriminate|reflexivity].
  - intros [H1 H2]. apply map_eq_nil with (f := connector).
    rewrite buildPreviewLines_connectors, H2, app_nil_r.
    apply connectors_of_nil. exact H1.
Qed.

Lemma panel_preview_summary (textInputs : list (str * str)) (es : bool) :
  forallb (fun e => known_id (fst e)) textInputs = true ->
  preview_lines textInputs es = [] <-> summary_count textInputs es = 0.
Proof.
  intros K. unfold preview_lines. rewrite preview_nil_iff, summary_count_length.
  cbn [shorts_on].
  pose proof (getFilters_not_inert textInputs K) as NI.
  destruct (getFiltersFromInputs textInputs) as [|f fs].
  - cbn [forallb length].
    destruct es; split; try lia; try tauto;
      try (intros [_ X]; discriminate X).
  - cbn [forallb length]. rewrite (NI f (or_introl eq_refl)). cbn [andb].
    split; [intros [X _]; discriminate X|lia].
Qed.

(** X12: in the filter panel, whose inputs are keyed by ids of the catalog,
    the preview section is hidden (no preview line) exactly when the summary
    counts no active filter. *)
Theorem panel_preview_hidden_iff_no_active :
  forall (textInputs : list (str * str)) (excludeShorts : bool),
    forallb (fun e => known_id (fst e)) textInputs = true ->
    (preview_lines textInputs excludeShorts = []
     <-> summary_count textInputs excludeShorts = 0).
Proof. exact panel_preview_summary. Qed.

Lemma panel_preview_hidden_iff_no_active_witness :
  forallb (fun e => known_id (fst e))
    [(lit "after", lit "  "); (lit "exclude", [])] = true /\
  (preview_lines [(lit "after", lit "  "); (lit "exclude", [])] false = []
   <-> summary_count [(lit "after", lit "  "); (lit "exclude", [])] false = 0).
Proof.
  split; [vm_compute; reflexivity|].
  apply panel_preview_hidden_iff_no_active. vm_compute. reflexivity.
Defined.

Lemma tokens_of_trimmed (i v : str) :
  flat_map tokens_of (input_entry (i, v))
  = tokens_of {| id := i; value := v |}.
Proof.
  unfold input_entry. cbn [fst snd].
  destruct (truthy (trim v)) eqn:T.
  - cbn [flat_map]. rewrite app_nil_r. unfold tokens_of, inert.
    cbn [id value]. rewrite trim_idem. reflexivity.
  - cbn [flat_map]. unfold tokens_of, inert. cbn [id value]. rewrite T.
    rewrite orb_true_r. reflexivity.
Qed.

Lemma build_saved_filters (textInputs : list (str * str)) :
  buildQueryString (getFiltersFromInputs textInputs)
  = buildQueryString
      (map (fun e => {| id := fst e; value := snd e |}) textInputs).
Proof.
  rewrite !buildQueryString_tokens, getFilters_flat. f_equal.
  induction textInputs as [|[i v] l IH]; [reflexivity|].
  cbn [flat_map map fst snd]. rewrite flat_map_app, IH, tokens_of_trimmed.
  reflexivity.
Qed.

(** X13: the filters that the panel saves, trimmed and without the blank
    inputs, give the same query string as the values of the inputs taken as
    they are. *)
Theorem saved_filters_same_query :
  forall textInputs : list (str * str),
    buildQueryString (getFiltersFromInputs textInputs)
    = buildQueryString
        (map (fun e => {| id := fst e; value := snd e |}) textInputs).
Proof. exact build_saved_filters. Qed.

(** ** The search trigger *)

Lemma build_ends (fs : list ActiveTextFilter) :
  buildQueryString fs = [] \/
  (head_ok (buildQueryString fs) = true /\ last_ok (buildQueryString fs) = true).
Proof.
  rewrite buildQueryString_tokens.
  destruct (flat_map tokens_of fs) as [|t l] eqn:E; [left; reflexivity|].
  right. apply join_ends; [discriminate|].
  intros t' Ht. rewrite <- E in Ht. apply in_flat_map in Ht.
  destruct Ht as [f [_ Hf]]. apply (tokens_of_ends f). exact Hf.
Qed.

Lemma normalized_ends (s : str) :
  normalized s = true -> s = [] \/ (head_ok s = true /\ last_ok s = true).
Proof.
  unfold normalized. intros N. apply andb_true_iff in N. destruct N as [H S1].
  destruct s as [|c s]; [left; reflexivity|]. right.
  split; [exact H|apply spaced_ok_last; [discriminate|exact S1]].
Qed.

Lemma fullQuery_join (fs : list ActiveTextFilter) (v : str) :
  fullQuery fs v
  = join [c_sp] (filter truthy [stripOperators v; buildQueryString fs]).
Proof.
  unfold fullQuery. cbv zeta. change (lit " ") with [c_sp].
  destruct fs; reflexivity.
Qed.

Lemma fullQuery_ends (fs : list ActiveTextFilter) (v : str) :
  fullQuery fs v = [] \/
  (head_ok (fullQuery fs v) = true /\ last_ok (fullQuery fs v) = true).
Proof.
  rewrite fullQuery_join.
  destruct (filter truthy [stripOperators v; buildQueryString fs])
    as [|x l] eqn:E; [left; reflexivity|].
  right. apply join_ends; [discriminate|]. rewrite <- E. intros t T.
  apply filter_In in T. destruct T as [T1 T2].
  destruct T1 as [<-|[<-|[]]].
  - destruct (normalized_ends _ (strip_normalized v)) as [Z|Z];
      [rewrite Z in T2; discriminate|exact Z].
  - destruct (build_ends fs) as [Z|Z];
      [rewrite Z in T2; discriminate|exact Z].
Qed.

Lemma fullQuery_nil (fs : list ActiveTextFilter) (v : str) :
  fullQuery fs v = [] <-> stripOperators v = [] /\ buildQueryString fs = [].
Proof.
  rewrite fullQuery_join. cbn [filter].
  destruct (stripOperators v) as [|a r], (buildQueryString fs) as [|b t];
    cbn [truthy join]; split; try tauto; try discriminate;
    try (intros [_ X]; discriminate X); try (intros [X _]; discriminate X).
Qed.

Lemma handleSearchTrigger_cases (fs : list ActiveTextFilter) (es : bool)
  (v : str) :
  handleSearchTrigger fs es (Some v)
  = if (negb (Nat.ltb 0 (length fs)) && negb es)
       || negb (truthy (fullQuery fs v))
    then Untouched
    else if es then Navigate (fullQuery fs v) SP_TYPE_VIDEO
    else Rewrite (fullQuery fs v).
Proof.
  unfold handleSearchTrigger. cbv zeta.
  assert (T : trim (fullQuery fs v) = fullQuery fs v).
  { destruct (fullQuery_ends fs v) as [E|[H L]]; [rewrite E; reflexivity|].
    apply trim_id; assumption. }
  rewrite T.
  destruct (negb (Nat.ltb 0 (length fs)) && negb es); reflexivity.
Qed.

Lemma nothing_saved (fs : list ActiveTextFilter) (es : bool) :
  negb (Nat.ltb 0 (length fs)) && negb es = true <-> fs = [] /\ es = false.
Proof.
  destruct fs, es; cbn; split; try tauto; try discriminate;
    intros [X Y]; discriminate.
Qed.

(** X14: handleSearchTrigger with the search input at hand.  It leaves the
    page untouched exactly when there is no saved filter and excludeShorts is
    off, or when both the stripped text of the input and the query string of
    the saved filters are empty.  Otherwise it submits one query, by a
    navigation with the sp parameter when excludeShorts is on and through the
    input when it is off: the stripped text and the query string of the
    filters, joined by one space when both are there; this query starts and
    ends with characters that are not whitespace. *)
Theorem handleSearchTrigger_outcome :
  forall (fs : list ActiveTextFilter) (es : bool) (v : str),
    let q := join [c_sp]
               (filter truthy [stripOperators v; buildQueryString fs]) in
    (handleSearchTrigger fs es (Some v) = Untouched
     <-> (fs = [] /\ es = false)
         \/ (stripOperators v = [] /\ buildQueryString fs = [])) /\
    (handleSearchTrigger fs es (Some v) = Untouched \/
     (handleSearchTrigger fs es (Some v)
      = (if es then Navigate q SP_TYPE_VIDEO else Rewrite q) /\
      head_ok q = true /\ last_ok q = true)) /\
    handleSearchTrigger fs es None = Untouched.
Proof.
  intros fs es v q. unfold q. rewrite <- fullQuery_join.
  rewrite handleSearchTrigger_cases.
  pose proof (fullQuery_nil fs v) as N.
  pose proof (fullQuery_ends fs v) as E.
  pose proof (nothing_saved fs es) as A.
  destruct (negb (Nat.ltb 0 (length fs)) && negb es) eqn:C1.
  - cbn [orb]. split; [|split].
    + split; [intros _; left; apply A; reflexivity|reflexivity].
    + left. reflexivity.
    + unfold handleSearchTrigger. cbv zeta. rewrite C1. reflexivity.
  - cbn [orb]. destruct (fullQuery fs v) as [|c r] eqn:Q.
    + cbn [truthy negb]. split; [|split].
      * split; [intros _; right; apply N; reflexivity|reflexivity].
      * left. reflexivity.
      * unfold handleSearchTrigger. cbv zeta. rewrite C1. reflexivity.
    + cbn [truthy negb]. split; [|split].
      * split.
        -- destruct es; discriminate.
        -- intros [H|H]; [apply A in H; discriminate H|].
           apply N in H. discriminate H.
      * right. split; [reflexivity|].
        destruct E as [E|E]; [discriminate E|exact E].
      * unfold handleSearchTrigger. cbv zeta. rewrite C1. reflexivity.
Qed.

(** ** The filters of the submitted query *)

Lemma take_while_before_space (a b : str) :
  take_while not_space (a ++ c_sp :: b) = take_while not_space a.
Proof.
  induction a as [|c a IH]; [reflexivity|]. cbn [app take_while].
  rewrite IH. reflexivity.
Qed.

Lemma find_op_app_space (op a b : str) :
  op_ok op = true -> find_op op a = None ->
  find_op op (a ++ c_sp :: b) = find_op op b.
Proof.
  intros K. induction a as [|c a IH]; intros F.
  - cbn [app find_op]. rewrite op_at_space by (exact K || reflexivity).
    reflexivity.
  - apply find_op_none_cons in F. destruct F as [F1 F2].
    cbn [app find_op].
    rewrite (op_at_none_shorter op (c :: a) (c :: a ++ c_sp :: b) [] K).
    + apply IH. exact F2.
    + rewrite app_nil_r. symmetry.
      apply (take_while_before_space (c :: a) b).
    + exact F1.
Qed.

Lemma head_ok_app_space (a b : str) :
  head_ok (a ++ c_sp :: b) = head_ok a.
Proof. destruct a; reflexivity. Qed.

Lemma dash_words_app_space (a b : str) (bnd : bool) :
  dash_words_from bnd a = [] ->
  dash_words_from bnd (a ++ c_sp :: b) = dash_words_from true b.
Proof.
  revert bnd. induction a as [|c a IH]; intros bnd D;
    [destruct bnd; reflexivity|].
  cbn [app dash_words_from] in *. rewrite head_ok_app_space.
  destruct (bnd && ch_eqb c_dash c && head_ok a); [discriminate|].
  apply IH. exact D.
Qed.

Lemma spans_app_space (a b : str) :
  no_quote a = true -> spans None (a ++ c_sp :: b) = spans None b.
Proof.
  unfold no_quote. induction a as [|c a IH]; intros Q; [reflexivity|].
  cbn [forallb] in Q. apply andb_true_iff in Q. destruct Q as [Q1 Q2].
  cbn [app spans]. rewrite (not_quote_neq _ Q1). apply IH. exact Q2.
Qed.

(** A text without filter and without double quote, put before a query with
    one space between them, changes no filter of the query. *)
Lemma parse_after_plain (a b : str) :
  parseQueryFilters a = [] -> no_quote a = true ->
  parseQueryFilters (a ++ c_sp :: b) = parseQueryFilters b.
Proof.
  intros P Q. apply parse_nil_iff in P.
  destruct P as (A & B & C & D & E & F & G).
  rewrite !parse_shape.
  rewrite !find_op_app_space by (assumption || reflexivity).
  unfold quoted_spans, dash_words.
  rewrite spans_app_space by exact Q.
  rewrite dash_words_app_space by exact E. reflexivity.
Qed.

Lemma fullQuery_filters (fs : list ActiveTextFilter) (v : str) :
  no_quote v = true ->
  parseQueryFilters (fullQuery fs v)
  = parseQueryFilters (buildQueryString fs).
Proof.
  intros Q. rewrite fullQuery_join.
  pose proof (strip_parses_empty v Q) as P.
  destruct (strip_quote_free v (lit "#") Q) as (_ & NQ & _); [simpl; tauto|].
  cbn [filter].
  destruct (stripOperators v) as [|a r] eqn:S1.
  - cbn [truthy]. destruct (buildQueryString fs); reflexivity.
  - cbn [truthy]. destruct (buildQueryString fs) as [|b t] eqn:S2.
    + cbn [truthy join]. rewrite P. reflexivity.
    + cbn [truthy].
      change (join [c_sp] [a :: r; b :: t]) with ((a :: r) ++ c_sp :: b :: t).
      apply parse_after_plain; assumption.
Qed.

(** X15: whatever operators the user has typed in the search input, short of
    a double quote, the query that the search trigger makes holds the
    filters of the saved filters and no other: the parser finds in it what it
    finds in the query string of the saved filters. *)
Theorem submitted_query_filters :
  forall (fs : list ActiveTextFilter) (v : str),
    no_quote v = true ->
    parseQueryFilters (fullQuery fs v)
    = parseQueryFilters (buildQueryString fs).
Proof. exact fullQuery_filters. Qed.

Lemma submitted_query_filters_witness :
  no_quote (lit "cats after:2020-01-01 -dogs") = true /\
  parseQueryFilters
    (fullQuery [ {| id := lit "after"; value := lit "2024-06-15" |} ]
       (lit "cats after:2020-01-01 -dogs"))
  = parseQueryFilters
      (buildQueryString [ {| id := lit "after"; value := lit "2024-06-15" |} ]).
Proof.
  split; [vm_compute; reflexivity|].
  apply submitted_query_filters. vm_compute. reflexivity.
Defined.

(** * The templates of the filter panel *)

Lemma existsb_str_In (k : str) (l : list str) :
  existsb (str_eqb k) l = true <-> In k l.
Proof.
  rewrite existsb_exists. split.
  - intros (x & I & E). apply str_eqb_eq in E. subst x. exact I.
  - intros I. exists k. split; [exact I|]. apply str_eqb_eq. reflexivity.
Qed.

Lemma existsb_str_not_In (k : str) (l : list str) :
  existsb (str_eqb k) l = false <-> ~ In k l.
Proof.
  rewrite <- existsb_str_In. destruct (existsb (str_eqb k) l); split;
    intros H; try reflexivity; try discriminate; try (intros K; discriminate).
  exfalso. apply H. reflexivity.
Qed.

Lemma str_eqb_sym (a b : str) : str_eqb a b = str_eqb b a.
Proof.
  destruct (str_eqb a b) eqn:E.
  - apply str_eqb_eq in E. subst b. symmetry. apply str_eqb_eq. reflexivity.
  - destruct (str_eqb b a) eqn:F; [|reflexivity].
    apply str_eqb_eq in F. subst b.
    assert (T : str_eqb a a = true) by (apply str_eqb_eq; reflexivity).
    congruence.
Qed.

Lemma set_input_absent (k v : str) (inputs : list (str * str)) :
  ~ In k (map fst inputs) -> set_input k v inputs = inputs.
Proof.
  unfold set_input. induction inputs as [|[k0 v0] r IH]; intros N.
  - reflexivity.
  - cbn [map fst] in *. destruct (str_eqb k0 k) eqn:E.
    + apply str_eqb_eq in E. exfalso. apply N. left. exact E.
    + f_equal. apply IH. intros I. apply N. right. exact I.
Qed.

Lemma populate_absent (fs : list ActiveTextFilter) :
  forall (k v0 : str) (rest : list (str * str)),
    ~ In k (map (@id) fs) ->
    populate fs ((k, v0) :: rest) = (k, v0) :: populate fs rest.
Proof.
  unfold populate. induction fs as [|f fs IH]; intros k v0 rest N.
  - reflexivity.
  - cbn [fold_left]. unfold set_input at 2. cbn [map fst].
    destruct (str_eqb k (id f)) eqn:E.
    + apply str_eqb_eq in E. exfalso. apply N. left. symmetry. exact E.
    + fold (set_input (id f) (value f) rest). apply IH.
      intros I. apply N. right. exact I.
Qed.

Lemma populate_cons (f : ActiveTextFilter) (fs : list ActiveTextFilter)
  (inputs : list (str * str)) :
  populate (f :: fs) inputs = populate fs (set_input (id f) (value f) inputs).
Proof. reflexivity. Qed.

Lemma set_input_head (k v v0 : str) (rest : list (str * str)) :
  set_input k v ((k, v0) :: rest) = (k, v) :: set_input k v rest.
Proof.
  unfold set_input. cbn [map fst].
  assert (R : str_eqb k k = true) by (apply str_eqb_eq; reflexivity).
  rewrite R. reflexivity.
Qed.

Lemma getFilters_cons (entry : str * str) (r : list (str * str)) :
  getFiltersFromInputs (entry :: r)
  = input_entry entry ++ getFiltersFromInputs r.
Proof. rewrite !getFilters_flat. reflexivity. Qed.

Lemma getFilters_ids (inputs : list (str * str)) :
  forall f, In f (getFiltersFromInputs inputs) -> In (id f) (map fst inputs).
Proof.
  rewrite getFilters_flat. induction inputs as [|[k v] r IH]; intros f I.
  - destruct I.
  - cbn [flat_map] in I. apply in_app_or in I. cbn [map fst].
    destruct I as [I|I]; [left|right; apply IH; exact I].
    unfold input_entry in I. cbn [fst snd] in I.
    destruct (truthy (trim v)); [|destruct I].
    destruct I as [I|[]]. subst f. reflexivity.
Qed.

Lemma getFilters_absent (k : str) (inputs : list (str * str)) :
  ~ In k (map fst inputs) ->
  ~ In k (map (@id) (getFiltersFromInputs inputs)).
Proof.
  intros N I. apply in_map_iff in I. destruct I as (f & E & I).
  apply getFilters_ids in I. rewrite E in I. exact (N I).
Qed.

Lemma map_fst_clear (inputs : list (str * str)) :
  map fst (clear_inputs inputs) = map fst inputs.
Proof.
  unfold clear_inputs. rewrite map_map. reflexivity.
Qed.

(** Populating the cleared inputs with the filters that were read from
    inputs with the same keys gives these filters back. *)
Lemma populate_getFilters (inputs : list (str * str)) :
  forall later : list (str * str),
    distinct (map fst inputs) = true ->
    map fst later = map fst inputs ->
    getFiltersFromInputs
      (populate (getFiltersFromInputs inputs) (clear_inputs later))
    = getFiltersFromInputs inputs.
Proof.
  induction inputs as [|[k v] r IH]; intros later D M.
  - destruct later; [reflexivity|discriminate].
  - destruct later as [|[k' v'] r']; [discriminate|].
    cbn [map fst] in M. injection M as -> M.
    cbn [map fst distinct] in D. apply andb_true_iff in D.
    destruct D as [D1 D2]. apply negb_true_iff in D1.
    apply existsb_str_not_In in D1.
    specialize (IH r' D2 M).
    assert (A : ~ In k (map (@id) (getFiltersFromInputs r)))
      by (apply getFilters_absent; exact D1).
    rewrite (getFilters_cons (k, v) r).
    change (clear_inputs ((k, v') :: r')) with ((k, []) :: clear_inputs r').
    unfold input_entry. cbn [fst snd].
    destruct (truthy (trim v)) eqn:T.
    + cbn [app]. rewrite populate_cons. cbn [id value].
      rewrite set_input_head.
      rewrite set_input_absent by (rewrite map_fst_clear, M; exact D1).
      rewrite populate_absent by exact A.
      rewrite getFilters_cons, IH. unfold input_entry. cbn [fst snd].
      rewrite trim_idem, T. reflexivity.
    + cbn [app]. rewrite populate_absent by exact A.
      rewrite getFilters_cons, IH. reflexivity.
Qed.

Lemma findIndex_some {A : Type} (p : A -> bool) (l : list A) :
  forall i, findIndex p l = Some i ->
    exists x, nth_error l i = Some x /\ p x = true.
Proof.
  induction l as [|x l IH]; intros i F; [discriminate|].
  cbn [findIndex] in F. destruct (p x) eqn:P.
  - injection F as <-. exists x. split; [reflexivity|exact P].
  - destruct (findIndex p l) as [j|]; [|discriminate].
    injection F as <-. apply IH. reflexivity.
Qed.

Lemma findIndex_none {A : Type} (p : A -> bool) (l : list A) :
  findIndex p l = None -> forallb (fun x => negb (p x)) l = true.
Proof.
  induction l as [|x l IH]; intros F; [reflexivity|].
  cbn [findIndex] in F. cbn [forallb]. destruct (p x); [discriminate|].
  destruct (findIndex p l); [discriminate|]. apply IH. reflexivity.
Qed.

Lemma findIndex_assign {A : Type} (p : A -> bool) (f : A -> A) (l : list A) :
  (forall x, p (f x) = p x) ->
  forall i, findIndex p l = Some i ->
    findIndex p (assign_at i f l) = Some i /\
    exists x, nth_error l i = Some x /\
              nth_error (assign_at i f l) i = Some (f x).
Proof.
  intros K. induction l as [|x l IH]; intros i F; [discriminate|].
  cbn [findIndex] in F. destruct (p x) eqn:P.
  - injection F as <-. cbn [assign_at findIndex]. rewrite K, P.
    split; [reflexivity|]. exists x. split; reflexivity.
  - destruct (findIndex p l) as [j|] eqn:G; [|discriminate].
    injection F as <-. destruct (IH j eq_refl) as (F' & y & N1 & N2).
    cbn [assign_at findIndex nth_error]. rewrite P, F'.
    split; [reflexivity|]. exists y. split; assumption.
Qed.

Lemma findIndex_push {A : Type} (p : A -> bool) (l : list A) (t : A) :
  findIndex p l = None -> p t = true ->
  findIndex p (l ++ [t]) = Some (length l) /\
  nth_error (l ++ [t]) (length l) = Some t.
Proof.
  intros F P. induction l as [|x l IH].
  - cbn [app findIndex length nth_error]. rewrite P. split; reflexivity.
  - cbn [findIndex] in F. destruct (p x) eqn:Q; [discriminate|].
    destruct (findIndex p l) eqn:G; [discriminate|].
    destruct (IH eq_refl) as [F' N].
    cbn [app findIndex length nth_error]. rewrite Q, F'.
    split; [reflexivity|exact N].
Qed.

(** What [saveTemplate] stores, when it stores: the first template of the
    given name holds the filters of the inputs and the state of
    excludeShorts. *)
Lemma saveTemplate_stored (raw : str) (p : PanelState) :
  truthy (trim raw) = true ->
  getFiltersFromInputs (textInputs p) <> [] ->
  exists index t,
    findIndex (fun t => str_eqb (name t) (trim raw))
      (templates (saveTemplate (Some raw) p)) = Some index /\
    nth_error (templates (saveTemplate (Some raw) p)) index = Some t /\
    name t = trim raw /\
    filters t = getFiltersFromInputs (textInputs p) /\
    match tpl_excludeShorts t with Some b => b | None => false end
    = panel_excludeShorts p.
Proof.
  intros T G. unfold saveTemplate. rewrite T. cbn [negb].
  destruct (getFiltersFromInputs (textInputs p)) as [|g gs] eqn:GE;
    [contradiction|].
  cbn [length Nat.eqb templates].
  destruct (findIndex (fun t => str_eqb (name t) (trim raw)) (templates p))
    as [i|] eqn:F.
  - destruct (findIndex_assign (fun t => str_eqb (name t) (trim raw))
                (fun t => {| name := name t; filters := g :: gs;
                             tpl_excludeShorts := Some (panel_excludeShorts p) |})
                (templates p) (fun x => eq_refl) i F) as (F' & x & N1 & N2).
    destruct (findIndex_some _ _ i F) as (y & N3 & P).
    rewrite N1 in N3. injection N3 as <-. apply str_eqb_eq in P.
    eexists. eexists. split; [exact F'|]. split; [exact N2|].
    cbn [name filters tpl_excludeShorts]. repeat split. exact P.
  - set (t := {| name := trim raw; filters := g :: gs;
                 tpl_excludeShorts :=
                   if panel_excludeShorts p then Some true else None |}).
    assert (P : (fun t => str_eqb (name t) (trim raw)) t = true)
      by (apply str_eqb_eq; reflexivity).
    destruct (findIndex_push _ (templates p) t F P) as [F' N].
    exists (length (templates p)), t. split; [exact F'|]. split; [exact N|].
    subst t. cbn [name filters tpl_excludeShorts]. repeat split.
    destruct (panel_excludeShorts p); reflexivity.
Qed.

(** ** The invariant of the stored templates *)

Lemma forallb_assign_at {A : Type} (q : A -> bool) (f : A -> A) (l : list A) :
  (forall x, q x = true -> q (f x) = true) ->
  forall i, forallb q l = true -> forallb q (assign_at i f l) = true.
Proof.
  intros K. induction l as [|x l IH]; intros i H; [reflexivity|].
  cbn [forallb] in H. apply andb_true_iff in H. destruct H as [H1 H2].
  destruct i as [|i]; cbn [assign_at forallb].
  - rewrite (K x H1), H2. reflexivity.
  - rewrite H1, (IH i H2). reflexivity.
Qed.

Lemma map_assign_at {A B : Type} (g : A -> B) (f : A -> A) (l : list A) :
  (forall x, g (f x) = g x) ->
  forall i, map g (assign_at i f l) = map g l.
Proof.
  intros K. induction l as [|x l IH]; intros i; [reflexivity|].
  destruct i as [|i]; cbn [assign_at map].
  - rewrite K. reflexivity.
  - rewrite IH. reflexivity.
Qed.

Lemma distinct_push (l : list str) (k : str) :
  distinct l = true -> ~ In k l -> distinct (l ++ [k]) = true.
Proof.
  induction l as [|x l IH]; intros D N; [reflexivity|].
  cbn [distinct] in D. apply andb_true_iff in D. destruct D as [D1 D2].
  cbn [app distinct]. rewrite IH; [|exact D2|intros I; apply N; right; exact I].
  rewrite andb_true_r. apply negb_true_iff. apply existsb_str_not_In.
  apply negb_true_iff in D1. apply existsb_str_not_In in D1.
  intros I. apply in_app_or in I. destruct I as [I|[I|[]]]; [exact (D1 I)|].
  apply N. left. symmetry. exact I.
Qed.

Lemma In_firstn {A : Type} (x : A) (i : nat) (l : list A) :
  In x (firstn i l) -> In x l.
Proof.
  intros I. rewrite <- (firstn_skipn i l). apply in_or_app. left. exact I.
Qed.

Lemma In_skipn {A : Type} (x : A) (i : nat) (l : list A) :
  In x (skipn i l) -> In x l.
Proof.
  intros I. rewrite <- (firstn_skipn i l). apply in_or_app. right. exact I.
Qed.

Lemma distinct_splice (l : list str) :
  forall i, distinct l = true -> distinct (firstn i l ++ skipn (S i) l) = true.
Proof.
  induction l as [|x l IH]; intros i D.
  - destruct i; reflexivity.
  - cbn [distinct] in D. apply andb_true_iff in D. destruct D as [D1 D2].
    destruct i as [|i].
    + cbn [firstn skipn app]. exact D2.
    + cbn [firstn app]. change (skipn (S (S i)) (x :: l)) with (skipn (S i) l).
      cbn [distinct]. rewrite (IH i D2), andb_true_r.
      apply negb_true_iff. apply existsb_str_not_In.
      apply negb_true_iff in D1. apply existsb_str_not_In in D1.
      intros I. apply D1. apply in_app_or in I.
      destruct I as [I|I];
        [exact (In_firstn _ i l I)|exact (In_skipn _ (S i) l I)].
Qed.

Lemma forallb_splice {A : Type} (q : A -> bool) (l : list A) (i : nat) :
  forallb q l = true -> forallb q (firstn i l ++ skipn (S i) l) = true.
Proof.
  intros H. rewrite forallb_forall in *. intros x I. apply H.
  apply in_app_or in I.
  destruct I as [I|I];
    [exact (In_firstn _ i l I)|exact (In_skipn _ (S i) l I)].
Qed.

Lemma saveTemplate_ok (nameInput : option str) (p : PanelState) :
  templates_ok (templates p) = true ->
  templates_ok (templates (saveTemplate nameInput p)) = true.
Proof.
  intros O. unfold saveTemplate. destruct nameInput as [raw|]; [|exact O].
  destruct (truthy (trim raw)) eqn:T; cbn [negb]; [|exact O].
  destruct (getFiltersFromInputs (textInputs p)) as [|g gs] eqn:GE;
    cbn [length Nat.eqb]; [exact O|]. cbn [templates].
  unfold templates_ok in *. apply andb_true_iff in O. destruct O as [O1 O2].
  destruct (findIndex (fun t => str_eqb (name t) (trim raw)) (templates p))
    as [i|] eqn:F.
  - rewrite map_assign_at by reflexivity. rewrite O2, andb_true_r.
    apply forallb_assign_at; [|exact O1].
    intros x X. unfold template_ok in *. cbn [name filters length].
    apply andb_true_iff in X. destruct X as [X _]. rewrite X. reflexivity.
  - rewrite forallb_app, O1, map_app. cbn [map name forallb andb].
    unfold template_ok at 1. cbn [name filters length].
    rewrite T, trim_idem.
    assert (R : str_eqb (trim raw) (trim raw) = true)
      by (apply str_eqb_eq; reflexivity).
    rewrite R. cbn [andb Nat.ltb Nat.leb].
    apply distinct_push; [exact O2|].
    intros I. apply in_map_iff in I. destruct I as (t & E & I).
    apply findIndex_none in F. rewrite forallb_forall in F.
    specialize (F t I). apply negb_true_iff in F.
    assert (R' : str_eqb (name t) (trim raw) = true)
      by (apply str_eqb_eq; exact E).
    congruence.
Qed.

Lemma deleteTemplate_ok (index : nat) (p : PanelState) :
  templates_ok (templates p) = true ->
  templates_ok (templates (deleteTemplate index p)) = true.
Proof.
  unfold templates_ok, deleteTemplate. cbn [templates]. intros O.
  apply andb_true_iff in O. destruct O as [O1 O2].
  rewrite forallb_splice by exact O1.
  rewrite map_app, <- firstn_map, <- skipn_map.
  rewrite distinct_splice by exact O2. reflexivity.
Qed.

(** X16: a template restores the filters it was saved from.  When
    saveTemplate stores the inputs of the panel under a name, the first
    template of this name is one that loadTemplate turns back, whatever the
    inputs hold by then, into inputs that give the same filters, with the
    same state of excludeShorts. *)
Theorem saved_template_restores :
  forall (raw : str) (p : PanelState),
    distinct (map fst (textInputs p)) = true ->
    truthy (trim raw) = true ->
    getFiltersFromInputs (textInputs p) <> [] ->
    exists index,
      findIndex (fun t => str_eqb (name t) (trim raw))
        (templates (saveTemplate (Some raw) p)) = Some index /\
      forall (later : list (str * str)) (es : bool),
        map fst later = map fst (textInputs p) ->
        let loaded :=
          loadTemplate index
            {| textInputs := later;
               panel_excludeShorts := es;
               templates := templates (saveTemplate (Some raw) p) |} in
        getFiltersFromInputs (textInputs loaded)
        = getFiltersFromInputs (textInputs p) /\
        panel_excludeShorts loaded = panel_excludeShorts p.
Proof.
  intros raw p D T G.
  destruct (saveTemplate_stored raw p T G) as (i & t & F & N & _ & Fs & Es).
  exists i. split; [exact F|]. intros later es M. cbn zeta.
  unfold loadTemplate. cbn [templates textInputs]. rewrite N.
  cbn [textInputs panel_excludeShorts]. split; [|exact Es].
  rewrite Fs. apply populate_getFilters; assumption.
Qed.

Lemma saved_template_restores_witness :
  let p := {| textInputs := [(lit "after", lit "2024-06-15");
                             (lit "exclude", lit " spam  ads ")];
              panel_excludeShorts := true;
              templates := [] |} in
  exists index,
    findIndex (fun t => str_eqb (name t) (lit "recent"))
      (templates (saveTemplate (Some (lit " recent ")) p)) = Some index /\
    getFiltersFromInputs
      (textInputs
         (loadTemplate index
            {| textInputs := [(lit "after", []);
                              (lit "exclude", lit "other")];
               panel_excludeShorts := false;
               templates :=
                 templates (saveTemplate (Some (lit " recent ")) p) |}))
    = getFiltersFromInputs (textInputs p).
Proof.
  intros p.
  destruct (saved_template_restores (lit " recent ") p) as (i & F & L).
  - vm_compute. reflexivity.
  - vm_compute. reflexivity.
  - vm_compute. discriminate.
  - exists i. split; [exact F|].
    apply (L [(lit "after", []); (lit "exclude", lit "other")] false).
    reflexivity.
Defined.

(** X17: the stored templates keep their shape.  When each template has a
    trimmed name that is not empty and at least one filter, and no two
    templates have the same name, this is still so after saveTemplate and
    after deleteTemplate, whatever the name input and the index. *)
Theorem templates_stay_ok :
  forall (nameInput : option str) (index : nat) (p : PanelState),
    templates_ok (templates p) = true ->
    templates_ok (templates (saveTemplate nameInput p)) = true /\
    templates_ok (templates (deleteTemplate index p)) = true.
Proof.
  intros nameInput index p O. split.
  - apply saveTemplate_ok. exact O.
  - apply deleteTemplate_ok. exact O.
Qed.

Lemma templates_stay_ok_witness :
  let p := {| textInputs := [(lit "after", lit "2024-06-15");
                             (lit "intitle", lit "review")];
              panel_excludeShorts := false;
              templates :=
                [ {| name := lit "recent";
                     filters := [ {| id := lit "after";
                                     value := lit "2024-01-01" |} ];
                     tpl_excludeShorts := None |} ] |} in
  templates_ok (templates (saveTemplate (Some (lit "recent")) p)) = true /\
  templates_ok (templates (deleteTemplate 0 p)) = true.
Proof.
  intros p. apply templates_stay_ok. vm_compute. reflexivity.
Defined.

(** * The stripper on a query made of parts *)

Lemma stripOperators_passes (s : str) :
  stripOperators s = strip_tail (js_replace_all re_exact [] (strip_head s)).
Proof. reflexivity. Qed.

(** ** The passes of the operators *)

(** The place of the string in the query does not matter to these passes. *)
Lemma strip_op_shift (op rep : str) (n : nat) :
  forall (s : str) (i j : nat),
    length s <= n ->
    replace_from (re_op op) rep i 0 s = replace_from (re_op op) rep j 0 s.
Proof.
  induction n as [|n IH]; intros s i j L.
  - destruct s; [|simpl in L; lia]. rewrite !strip_op_nil. reflexivity.
  - destruct s as [|c s]; [rewrite !strip_op_nil; reflexivity|].
    destruct (op_at op (c :: s)) as [v|] eqn:O.
    + destruct (op_at_split _ _ _ O) as (rest & E & V1 & _ & H).
      rewrite (strip_op_hit op _ v rest rep i O E V1).
      rewrite (strip_op_hit op _ v rest rep j O E V1).
      f_equal. apply IH. apply (f_equal (@length char)) in E.
      rewrite !length_app in E. destruct v; [contradiction|].
      simpl in E, L. lia.
    + rewrite !strip_op_miss by exact O. f_equal. apply IH.
      simpl in L. lia.
Qed.

(** ** The pass of the quoted spans *)

Lemma exact_shift (rep : str) (n : nat) :
  forall (s : str) (i j : nat),
    length s <= n ->
    replace_from re_exact rep i 0 s = replace_from re_exact rep j 0 s.
Proof.
  induction n as [|n IH]; intros s i j L.
  - destruct s; [|simpl in L; lia].
    rewrite !replace_from_nil by (rewrite exec_exact; reflexivity).
    reflexivity.
  - destruct s as [|c s].
    + rewrite !replace_from_nil by (rewrite exec_exact; reflexivity).
      reflexivity.
    + destruct (quoted_at (c :: s)) as [v|] eqn:Q.
      * assert (Len : S (S (length v)) <= length (c :: s)).
        { unfold quoted_at in Q. destruct s as [|d t]; [discriminate|].
          destruct (ch_eqb c_quote c && not_quote d); [|discriminate].
          destruct (drop_while not_quote t) eqn:D; [discriminate|].
          injection Q as <-. cbn [length].
          pose proof (f_equal (@length char) (take_drop_while not_quote t))
            as FT.
          rewrite length_app, D in FT. cbn [length] in FT. lia. }
        rewrite (replace_from_hit re_exact rep i (S (length v)) [])
          by (first [exact Len | rewrite exec_exact, Q; reflexivity]).
        rewrite (replace_from_hit re_exact rep j (S (length v)) [])
          by (first [exact Len | rewrite exec_exact, Q; reflexivity]).
        f_equal. apply IH. rewrite length_skipn. simpl in L |- *. lia.
      * rewrite !replace_from_miss by (rewrite exec_exact, Q; reflexivity).
        f_equal. apply IH. simpl in L. lia.
Qed.

Lemma not_quote_head (x : char) (s : str) :
  not_quote x = true -> quoted_at (x :: s) = None.
Proof.
  intros X. unfold quoted_at. destruct s as [|d t]; [reflexivity|].
  unfold not_quote in X. apply negb_true_iff in X.
  unfold ch_eqb in *. rewrite N.eqb_sym, X. reflexivity.
Qed.

(** The pass of the quoted spans leaves a part without double quote as it
    is, and goes on behind it. *)
Lemma exact_app_free (a b : str) (i j : nat) :
  no_quote a = true ->
  replace_from re_exact [] i 0 (a ++ b)
  = a ++ replace_from re_exact [] j 0 b.
Proof.
  revert i. induction a as [|x a IH]; intros i Q.
  - cbn [app]. apply (exact_shift [] (length b)). lia.
  - unfold no_quote in Q. cbn [forallb] in Q. apply andb_true_iff in Q.
    destruct Q as [X Q]. cbn [app].
    rewrite replace_from_miss
      by (rewrite exec_exact, not_quote_head by exact X; reflexivity).
    f_equal. apply IH. exact Q.
Qed.

Lemma drop_while_app_stop (p : char -> bool) (v : str) (c : char) (t : str) :
  forallb p v = true -> p c = false -> drop_while p (v ++ c :: t) = c :: t.
Proof.
  intros V C. induction v as [|x v IH]; cbn [app drop_while].
  - rewrite C. reflexivity.
  - cbn [forallb] in V. apply andb_true_iff in V. destruct V as [X V].
    rewrite X. apply IH. exact V.
Qed.

Lemma skipn_past (v : str) (c : char) (b : str) :
  skipn (S (length v)) (v ++ c :: b) = b.
Proof. induction v as [|x v IH]; [reflexivity|exact IH]. Qed.

Lemma not_quote_quote : not_quote c_quote = false.
Proof. reflexivity. Qed.

(** It removes a quoted span at the head of the string, and goes on behind
    it. *)
Lemma exact_token (val b : str) (i j : nat) :
  val <> [] -> no_quote val = true ->
  replace_from re_exact [] i 0 (c_quote :: val ++ c_quote :: b)
  = replace_from re_exact [] j 0 b.
Proof.
  intros N Q. destruct val as [|x v]; [contradiction|].
  unfold no_quote in Q. cbn [forallb] in Q. apply andb_true_iff in Q.
  destruct Q as [X Q].
  assert (QA : quoted_at (c_quote :: (x :: v) ++ c_quote :: b) = Some (x :: v)).
  { unfold quoted_at. cbn [app]. rewrite X. cbn [ch_eqb andb].
    change (N.eqb c_quote c_quote) with true. cbn [andb].
    rewrite (drop_while_app_stop not_quote v c_quote b Q not_quote_quote).
    rewrite (take_while_app_stop not_quote v c_quote b Q not_quote_quote).
    reflexivity. }
  rewrite (replace_from_hit re_exact [] i (S (length (x :: v))) []).
  - cbn [app]. 
    replace (skipn (S (S (length (x :: v))))
               (c_quote :: x :: v ++ c_quote :: b)) with b.
    + apply (exact_shift [] (length b)). lia.
    + cbn [length skipn]. symmetry. apply skipn_past.
  - rewrite exec_exact, QA. reflexivity.
  - cbn [length app]. rewrite length_app. cbn [length]. lia.
Qed.

(** ** The pass of the excluded words *)

Lemma exclude_shift (n : nat) :
  forall (s : str) (i j : nat),
    length s <= n ->
    (i = 0 -> op_at [c_dash] s = None) ->
    (j = 0 -> op_at [c_dash] s = None) ->
    replace_from re_exclude [] i 0 s = replace_from re_exclude [] j 0 s.
Proof.
  induction n as [|n IH]; intros s i j L Zi Zj.
  - destruct s; [|simpl in L; lia]. rewrite !strip_exclude_nil. reflexivity.
  - destruct s as [|c s]; [rewrite !strip_exclude_nil; reflexivity|].
    destruct (is_space c) eqn:C; [destruct (op_at [c_dash] s) as [w|] eqn:O|].
    + destruct (dash_split _ _ O) as (rest & E & W & H).
      rewrite (strip_exclude_space c s w rest i Zi C O E).
      rewrite (strip_exclude_space c s w rest j Zj C O E).
      apply IH; [|intros; lia|intros; lia].
      apply (f_equal (@length char)) in E. cbn [length] in E.
      rewrite length_app in E. simpl in L. lia.
    + rewrite !strip_exclude_miss by (assumption || (right; exact O)).
      f_equal. apply IH; [simpl in L; lia|intros; lia|intros; lia].
    + rewrite !strip_exclude_miss by (assumption || (left; exact C)).
      f_equal. apply IH; [simpl in L; lia|intros; lia|intros; lia].
Qed.

Lemma dash_ok : op_ok [c_dash] = true.
Proof. reflexivity. Qed.

Lemma space_not_quote (c : char) : is_space c = true -> not_quote c = true.
Proof.
  intros S. unfold not_quote. destruct (ch_eqb c c_quote) eqn:E;
    [|reflexivity].
  apply ch_eqb_eq in E. subst c. discriminate S.
Qed.

(** The parts of a query on the two sides of a whitespace character. *)
Section Separator.

Variable sep : char.
Hypothesis sep_space : is_space sep = true.

Lemma sep_not : not_space sep = false.
Proof. unfold not_space. rewrite sep_space. reflexivity. Qed.

Lemma take_while_before_sep (a b : str) :
  take_while not_space (a ++ sep :: b) = take_while not_space a.
Proof.
  induction a as [|c a IH]; [cbn [app take_while]; rewrite sep_not; reflexivity|].
  cbn [app take_while]. rewrite IH. reflexivity.
Qed.

Lemma op_at_before_space (op a b v : str) :
  op_at op a = Some v -> op_at op (a ++ sep :: b) = Some v.
Proof.
  intros O. destruct (op_at_split _ _ _ O) as (rest & E & V1 & V2 & H).
  destruct v as [|x v]; [contradiction|]. cbn [forallb] in V2.
  apply andb_true_iff in V2. destruct V2 as [X V2].
  rewrite E, <- !app_assoc. cbn [app]. rewrite op_at_app by exact X.
  f_equal. f_equal.
  destruct rest as [|r rest].
  - cbn [app]. apply take_while_app_stop; [exact V2|exact sep_not].
  - cbn [app]. apply take_while_app_stop; [exact V2|exact H].
Qed.

Lemma op_at_none_before_space (op a b : str) :
  op_ok op = true ->
  op_at op a = None -> op_at op (a ++ sep :: b) = None.
Proof.
  intros K O. apply (op_at_none_shorter op a (a ++ sep :: b) [] K);
    [|exact O].
  rewrite take_while_before_sep, app_nil_r. reflexivity.
Qed.

(** A pass of an operator works on the two sides of a space apart. *)
Lemma strip_op_app (op : str) (n : nat) :
  op_ok op = true ->
  forall (a b : str) (i j k : nat),
    length a <= n ->
    replace_from (re_op op) [] i 0 (a ++ sep :: b)
    = replace_from (re_op op) [] j 0 a
      ++ sep :: replace_from (re_op op) [] k 0 b.
Proof.
  intros K. induction n as [|n IH]; intros a b i j k L.
  - destruct a; [|simpl in L; lia]. rewrite strip_op_nil. cbn [app].
    rewrite strip_op_miss by (apply op_at_space; [exact K|exact sep_space]).
    f_equal. apply (strip_op_shift op [] (length b)). lia.
  - destruct a as [|c a].
    + rewrite strip_op_nil. cbn [app].
      rewrite strip_op_miss by (apply op_at_space; [exact K|exact sep_space]).
      f_equal. apply (strip_op_shift op [] (length b)). lia.
    + destruct (op_at op (c :: a)) as [v|] eqn:O.
      * destruct (op_at_split _ _ _ O) as (rest & E & V1 & _ & H).
        pose proof (op_at_before_space op (c :: a) b v O) as O'.
        rewrite (strip_op_hit op (c :: a) v rest [] j O E V1).
        assert (E' : (c :: a) ++ sep :: b = op ++ v ++ (rest ++ sep :: b))
          by (rewrite E, <- !app_assoc; reflexivity).
        rewrite (strip_op_hit op _ v (rest ++ sep :: b) [] i O' E' V1).
        cbn [app]. apply IH. apply (f_equal (@length char)) in E.
        rewrite !length_app in E. destruct v; [contradiction|].
        simpl in E, L. lia.
      * rewrite (strip_op_miss op [] c a j O).
        cbn [app]. rewrite strip_op_miss
          by (apply (op_at_none_before_space op (c :: a) b K O)).
        f_equal. apply IH. simpl in L. lia.
Qed.

Lemma strip_op_space (op a b : str) :
  op_ok op = true ->
  js_replace_all (re_op op) [] (a ++ sep :: b)
  = js_replace_all (re_op op) [] a ++ sep :: js_replace_all (re_op op) [] b.
Proof.
  intros K. unfold js_replace_all. apply (strip_op_app op (length a) K). lia.
Qed.

(** The pass works on the part before a space as on this part alone, and
    then goes on from the space. *)
Lemma exclude_app (n : nat) :
  forall (a b : str) (i : nat),
    length a <= n ->
    replace_from re_exclude [] i 0 (a ++ sep :: b)
    = replace_from re_exclude [] i 0 a
      ++ replace_from re_exclude [] 1 0 (sep :: b).
Proof.
  assert (SP : forall b i, 
            replace_from re_exclude [] i 0 (sep :: b)
            = replace_from re_exclude [] 1 0 (sep :: b)).
  { intros b i. apply (exclude_shift (length (sep :: b))); [lia| |].
    - intros _. apply op_at_space; [reflexivity|exact sep_space].
    - intros _. apply op_at_space; [reflexivity|exact sep_space]. }
  induction n as [|n IH]; intros a b i L.
  - destruct a; [|simpl in L; lia]. rewrite strip_exclude_nil. cbn [app].
    apply SP.
  - destruct a as [|c a].
    { rewrite strip_exclude_nil. cbn [app]. apply SP. }
    assert (Start : forall w, i = 0 -> op_at [c_dash] (c :: a) = Some w ->
              replace_from re_exclude [] i 0 ((c :: a) ++ sep :: b)
              = replace_from re_exclude [] i 0 (c :: a)
                ++ replace_from re_exclude [] 1 0 (sep :: b)).
    { intros w -> O. destruct (dash_split _ _ O) as (rest & E & W & H).
      rewrite (strip_exclude_start (c :: a) w rest O E).
      pose proof (op_at_before_space [c_dash] (c :: a) b w O) as O'.
      assert (E' : (c :: a) ++ sep :: b = c_dash :: w ++ (rest ++ sep :: b))
        by (rewrite E; cbn [app]; rewrite <- app_assoc; reflexivity).
      rewrite (strip_exclude_start _ w (rest ++ sep :: b) O' E').
      apply IH. apply (f_equal (@length char)) in E. cbn [length] in E.
      rewrite length_app in E. simpl in L. lia. }
    destruct (Nat.eq_dec i 0) as [I0|I0];
      [destruct (op_at [c_dash] (c :: a)) as [w0|] eqn:O0;
         [exact (Start w0 I0 eq_refl)|]|].
    all: assert (Z : i = 0 -> op_at [c_dash] (c :: a) = None)
           by (intros; first [assumption | lia]).
    all: assert (Z' : i = 0 -> op_at [c_dash] (c :: a ++ sep :: b) = None)
           by (intros Hi;
               apply (op_at_none_before_space [c_dash] (c :: a) b dash_ok);
               exact (Z Hi)).
    all: clear Start.
    all: cbn [app].
    all: destruct (is_space c) eqn:C;
           [destruct (op_at [c_dash] a) as [w|] eqn:O|].
    all: try (destruct (dash_split _ _ O) as (rest & E & W & H);
              rewrite (strip_exclude_space c a w rest i Z C O E);
              rewrite (strip_exclude_space c (a ++ sep :: b) w
                         (rest ++ sep :: b) i Z' C
                         (op_at_before_space [c_dash] a b w O))
                by (rewrite E; cbn [app]; rewrite <- app_assoc; reflexivity);
              apply IH; apply (f_equal (@length char)) in E;
              cbn [length] in E; rewrite length_app in E; simpl in L; lia).
    all: try (rewrite (strip_exclude_miss c a i Z) by (right; exact O);
              rewrite (strip_exclude_miss c (a ++ sep :: b) i Z')
                by (right;
                    apply (op_at_none_before_space [c_dash] a b dash_ok O));
              cbn [app]; f_equal; apply IH; simpl in L; lia).
    all: rewrite (strip_exclude_miss c a i Z) by (left; exact C);
         rewrite (strip_exclude_miss c (a ++ sep :: b) i Z')
           by (left; exact C);
         cbn [app]; f_equal; apply IH; simpl in L; lia.
Qed.

(** What the pass leaves of a space and the part after it: something that
    does not start a word, with the words of what the pass leaves of this
    part alone. *)
Lemma exclude_after_space (b : str) :
  head_ok (replace_from re_exclude [] 1 0 (sep :: b)) = false /\
  words (replace_from re_exclude [] 1 0 (sep :: b))
  = words (js_replace_all re_exclude [] b).
Proof.
  unfold js_replace_all.
  assert (Z : 1 = 0 -> op_at [c_dash] (sep :: b) = None) by (intros; lia).
  destruct (op_at [c_dash] b) as [w|] eqn:O.
  - destruct (dash_split _ _ O) as (rest & E & W & H).
    rewrite (strip_exclude_space sep b w rest 1 Z sep_space O E).
    rewrite (strip_exclude_start b w rest O E).
    split.
    + apply (reduces_head rest); [|exact H].
      apply (strip_exclude_inner (length rest)); [lia|intros; lia].
    + f_equal. apply (exclude_shift (length rest)); [lia| |]; intros; lia.
  - rewrite (strip_exclude_miss sep b 1 Z) by (right; exact O).
    split; [exact sep_not|].
    unfold words at 1. cbn [words_acc]. rewrite sep_space.
    fold (words (replace_from re_exclude [] 2 0 b)). f_equal. apply (exclude_shift (length b)); [lia|intros; lia|].
    intros _. exact O.
Qed.

Lemma words_acc_app (x y cur : str) :
  head_ok y = false ->
  words_acc cur (x ++ y) = words_acc cur x ++ words y.
Proof.
  intros H. revert cur. induction x as [|c x IH]; intros cur.
  - cbn [app]. destruct y as [|d y].
    + rewrite app_nil_r. reflexivity.
    + cbn [head_ok] in H. apply not_space_false in H.
      unfold words. cbn [words_acc]. rewrite H.
      destruct cur; reflexivity.
  - cbn [app words_acc]. destruct (is_space c).
    + destruct cur; [apply IH|]. cbn [app]. f_equal. apply IH.
    + apply IH.
Qed.

Lemma exclude_words (a b : str) :
  words (js_replace_all re_exclude [] (a ++ sep :: b))
  = words (js_replace_all re_exclude [] a)
    ++ words (js_replace_all re_exclude [] b).
Proof.
  unfold js_replace_all at 1. rewrite (exclude_app (length a)) by lia.
  destruct (exclude_after_space b) as [H W].
  unfold words at 1. rewrite words_acc_app by exact H.
  rewrite W. reflexivity.
Qed.

(** ** The passes after the one of the quoted spans *)

Lemma strip_tail_words (s : str) :
  strip_tail s
  = join [c_sp]
      (words (js_replace_all re_exclude []
                (js_replace_all (re_op (lit "#")) []
                   (js_replace_all (re_op (lit "channel:")) [] s)))).
Proof. unfold strip_tail. apply trim_collapse_words. Qed.

Lemma strip_tail_app (a b : str) :
  strip_tail (a ++ sep :: b)
  = join [c_sp] (filter truthy [strip_tail a; strip_tail b]).
Proof.
  rewrite !strip_tail_words.
  rewrite !strip_op_space by reflexivity.
  rewrite exclude_words. apply join_two.
  intros x I. apply in_app_or in I.
  destruct I as [I|I]; apply words_run in I; apply I.
Qed.

Lemma strip_head_app (a b : str) :
  strip_head (a ++ sep :: b) = strip_head a ++ sep :: strip_head b.
Proof.
  unfold strip_head. rewrite !strip_op_space by reflexivity. reflexivity.
Qed.

Lemma strip_head_no_quote (a : str) :
  no_quote a = true -> no_quote (strip_head a) = true.
Proof.
  intros Q. unfold strip_head.
  repeat (apply (reduces_no_quote _ _ (strip_op_reduces _ _))). exact Q.
Qed.

(** The stripper on two parts with a space between them, the first one
    without double quote. *)
Lemma strip_app_space (a b : str) :
  no_quote a = true ->
  stripOperators (a ++ sep :: b)
  = join [c_sp] (filter truthy [stripOperators a; stripOperators b]).
Proof.
  intros Q. rewrite !stripOperators_passes, strip_head_app.
  pose proof (strip_head_no_quote a Q) as Q'.
  unfold js_replace_all at 1.
  change (strip_head a ++ sep :: strip_head b)
    with (strip_head a ++ [sep] ++ strip_head b).
  rewrite app_assoc.
  rewrite (exact_app_free (strip_head a ++ [sep]) (strip_head b) 0 0).
  - rewrite <- app_assoc. cbn [app]. rewrite strip_tail_app.
    rewrite (strip_exact_no_quote _ Q'). reflexivity.
  - unfold no_quote in *. rewrite forallb_app, Q'. cbn [forallb andb].
    rewrite (space_not_quote sep sep_space). reflexivity.
Qed.

End Separator.

(** * The query string of the saved filters under the stripper *)

Lemma find_op_no_char (op q : str) (c : char) :
  In c op -> ~ In c q -> find_op op q = None.
Proof.
  intros I N. destruct (find_op op q) as [v|] eqn:F; [|reflexivity].
  exfalso. apply N. exact (find_op_chars _ _ _ c F I).
Qed.

Lemma clean_special (s : str) (c : char) :
  forallb (fun x => negb (special_char x)) s = true ->
  special_char c = true -> ~ In c s.
Proof.
  intros P S I. rewrite forallb_forall in P. apply P in I.
  rewrite S in I. discriminate.
Qed.

Lemma clean_no_quote (s : str) :
  forallb (fun x => negb (special_char x)) s = true -> no_quote s = true.
Proof.
  unfold no_quote. intros P. apply forallb_forall. intros x X.
  rewrite forallb_forall in P. apply P in X. unfold special_char in X.
  unfold not_quote. destruct (ch_eqb x c_quote); [|reflexivity].
  rewrite !orb_true_r in X. discriminate.
Qed.

Lemma clean_colon_op (op s : str) :
  forallb (fun x => negb (special_char x)) s = true ->
  In c_colon op -> find_op op s = None.
Proof.
  intros P I. apply (find_op_no_char op s c_colon I).
  apply clean_special; [exact P|reflexivity].
Qed.

Lemma clean_hash_op (s : str) :
  forallb (fun x => negb (special_char x)) s = true ->
  find_op (lit "#") s = None.
Proof.
  intros P. apply (find_op_no_char _ s c_hash); [left; reflexivity|].
  apply clean_special; [exact P|reflexivity].
Qed.

Lemma strip_op_whole (op val : str) :
  val <> [] -> forallb not_space val = true ->
  js_replace_all (re_op op) [] (op ++ val) = [].
Proof.
  intros N V. unfold js_replace_all.
  rewrite (strip_op_hit op (op ++ val) val [] [] 0).
  - apply strip_op_nil.
  - destruct val as [|x v]; [contradiction|]. cbn [forallb] in V.
    apply andb_true_iff in V. destruct V as [X V].
    rewrite op_at_app by exact X. rewrite take_while_id by exact V.
    reflexivity.
  - rewrite app_nil_r. reflexivity.
  - exact N.
Qed.

Lemma strip_dash_whole (w : str) :
  w <> [] -> forallb not_space w = true ->
  js_replace_all re_exclude [] (c_dash :: w) = [].
Proof.
  intros N V. unfold js_replace_all.
  rewrite (strip_exclude_start (c_dash :: w) w []).
  - apply strip_exclude_nil.
  - destruct w as [|x v]; [contradiction|]. cbn [forallb] in V.
    apply andb_true_iff in V. destruct V as [X V].
    change (c_dash :: x :: v) with ([c_dash] ++ x :: v).
    rewrite op_at_app by exact X. rewrite take_while_id by exact V.
    reflexivity.
  - rewrite app_nil_r. reflexivity.
Qed.

(** The operator [op] is not in the token [pre ++ val]: it is nowhere in the
    operator [pre], and [val] has no colon. *)
Ltac scan_prefix :=
  cbn [app];
  repeat (apply find_op_none_cons; split; [vm_compute; reflexivity|]).

Ltac colon_in := vm_compute; repeat (first [left; reflexivity | right]).

Ltac free_of_colon V :=
  match goal with
  | |- find_op ?op (?pre ++ ?val) = None =>
      let p := eval vm_compute in pre in
      change pre with p; scan_prefix; apply (clean_colon_op op val V); colon_in
  end.

Section Tokens.

Variable val : str.
Hypothesis C : forallb (fun x => negb (special_char x)) val = true.
Hypothesis N : val <> [].
Hypothesis W : forallb not_space val = true.

Lemma strip_token_after : stripOperators (lit "after:" ++ val) = [].
Proof.
  unfold stripOperators. rewrite (strip_op_whole _ val N W). reflexivity.
Qed.

Lemma strip_token_before : stripOperators (lit "before:" ++ val) = [].
Proof.
  unfold stripOperators.
  rewrite (strip_op_id (lit "after:")) by free_of_colon C.
  rewrite (strip_op_whole _ val N W). reflexivity.
Qed.

Lemma strip_token_intitle : stripOperators (lit "intitle:" ++ val) = [].
Proof.
  unfold stripOperators.
  rewrite (strip_op_id (lit "after:")) by free_of_colon C.
  rewrite (strip_op_id (lit "before:")) by free_of_colon C.
  rewrite (strip_op_whole _ val N W). reflexivity.
Qed.

Lemma no_quote_token (pre : str) :
  no_quote pre = true -> no_quote (pre ++ val) = true.
Proof.
  intros P. unfold no_quote in *. rewrite forallb_app, P.
  apply (clean_no_quote val C).
Qed.

Lemma strip_token_channel : stripOperators (lit "channel:" ++ val) = [].
Proof.
  unfold stripOperators.
  rewrite (strip_op_id (lit "after:")) by free_of_colon C.
  rewrite (strip_op_id (lit "before:")) by free_of_colon C.
  rewrite (strip_op_id (lit "intitle:")) by free_of_colon C.
  rewrite strip_exact_no_quote by (apply no_quote_token; reflexivity).
  rewrite (strip_op_whole _ val N W). reflexivity.
Qed.

Lemma no_colon_token (c : char) (op : str) :
  ch_eqb c c_colon = false -> In c_colon op -> find_op op (c :: val) = None.
Proof.
  intros X I. apply (find_op_no_char op _ c_colon I).
  intros [E|E].
  - apply ch_eqb_neq in X. exact (X E).
  - revert E. apply clean_special; [exact C|reflexivity].
Qed.

Lemma strip_token_hash : stripOperators (c_hash :: val) = [].
Proof.
  unfold stripOperators.
  rewrite (strip_op_id (lit "after:"))
    by (apply no_colon_token; [reflexivity|colon_in]).
  rewrite (strip_op_id (lit "before:"))
    by (apply no_colon_token; [reflexivity|colon_in]).
  rewrite (strip_op_id (lit "intitle:"))
    by (apply no_colon_token; [reflexivity|colon_in]).
  rewrite strip_exact_no_quote
    by (apply (no_quote_token [c_hash]); reflexivity).
  rewrite (strip_op_id (lit "channel:"))
    by (apply no_colon_token; [reflexivity|colon_in]).
  change (c_hash :: val) with (lit "#" ++ val).
  rewrite (strip_op_whole _ val N W). reflexivity.
Qed.

Lemma strip_token_dash : stripOperators (c_dash :: val) = [].
Proof.
  unfold stripOperators.
  rewrite (strip_op_id (lit "after:"))
    by (apply no_colon_token; [reflexivity|colon_in]).
  rewrite (strip_op_id (lit "before:"))
    by (apply no_colon_token; [reflexivity|colon_in]).
  rewrite (strip_op_id (lit "intitle:"))
    by (apply no_colon_token; [reflexivity|colon_in]).
  rewrite strip_exact_no_quote
    by (apply (no_quote_token [c_dash]); reflexivity).
  rewrite (strip_op_id (lit "channel:"))
    by (apply no_colon_token; [reflexivity|colon_in]).
  rewrite (strip_op_id (lit "#")).
  - rewrite (strip_dash_whole val N W). reflexivity.
  - apply (find_op_no_char _ _ c_hash); [left; reflexivity|].
    intros [E|E]; [discriminate E|].
    revert E. apply clean_special; [exact C|reflexivity].
Qed.

End Tokens.

(** The token of an exact phrase is removed, alone and before a space. *)
Lemma strip_head_clean (t : str) :
  ~ In c_colon t -> strip_head t = t.
Proof.
  intros NC. unfold strip_head.
  rewrite (strip_op_id (lit "after:"))
    by (apply (find_op_no_char _ t c_colon); [colon_in|exact NC]).
  rewrite (strip_op_id (lit "before:"))
    by (apply (find_op_no_char _ t c_colon); [colon_in|exact NC]).
  rewrite (strip_op_id (lit "intitle:"))
    by (apply (find_op_no_char _ t c_colon); [colon_in|exact NC]).
  reflexivity.
Qed.

Lemma exact_token_no_colon (val : str) :
  forallb (fun x => negb (special_char x)) val = true ->
  ~ In c_colon (c_quote :: val ++ [c_quote]).
Proof.
  intros C [E|E]; [discriminate E|]. apply in_app_or in E.
  destruct E as [E|[E|[]]]; [|discriminate E].
  revert E. apply clean_special; [exact C|reflexivity].
Qed.

Lemma strip_exact_alone (val : str) :
  forallb (fun x => negb (special_char x)) val = true -> val <> [] ->
  stripOperators (c_quote :: val ++ [c_quote]) = [].
Proof.
  intros C N. rewrite stripOperators_passes.
  rewrite strip_head_clean by (apply exact_token_no_colon; exact C).
  unfold js_replace_all.
  rewrite (exact_token val [] 0 0 N (clean_no_quote val C)).
  reflexivity.
Qed.

Lemma strip_exact_space (val b : str) :
  forallb (fun x => negb (special_char x)) val = true -> val <> [] ->
  stripOperators ((c_quote :: val ++ [c_quote]) ++ c_sp :: b)
  = stripOperators b.
Proof.
  intros C N. rewrite !stripOperators_passes, (strip_head_app c_sp eq_refl).
  rewrite strip_head_clean by (apply exact_token_no_colon; exact C).
  unfold js_replace_all at 1. cbn [app]. rewrite <- app_assoc. cbn [app].
  rewrite (exact_token val (c_sp :: strip_head b) 0 0 N
             (clean_no_quote val C)).
  change (c_sp :: strip_head b) with ([c_sp] ++ strip_head b).
  rewrite (exact_app_free [c_sp] (strip_head b) 0 0 eq_refl).
  change ([c_sp] ++ replace_from re_exact [] 0 0 (strip_head b))
    with ([] ++ c_sp :: js_replace_all re_exact [] (strip_head b)).
  rewrite (strip_tail_app c_sp eq_refl).
  change (strip_tail []) with (@nil char). cbn [filter truthy].
  destruct (strip_tail (js_replace_all re_exact [] (strip_head b)));
    reflexivity.
Qed.

(** The tokens that the stripper removes, among others and alone. *)
Lemma strip_join (ts : list str) :
  (forall t, In t ts ->
     (no_quote t = true /\ stripOperators t = []) \/
     (exists val,
        forallb (fun x => negb (special_char x)) val = true /\ val <> [] /\
        t = c_quote :: val ++ [c_quote])) ->
  stripOperators (join [c_sp] ts) = [].
Proof.
  induction ts as [|t ts IH]; intros H; [reflexivity|].
  assert (R : stripOperators (join [c_sp] ts) = [])
    by (apply IH; intros x X; apply H; right; exact X).
  destruct (H t (or_introl eq_refl)) as [[Q S]|(val & C & N & ->)].
  - destruct ts as [|t2 ts]; [exact S|].
    change (join [c_sp] (t :: t2 :: ts))
      with (t ++ c_sp :: join [c_sp] (t2 :: ts)).
    rewrite (strip_app_space c_sp eq_refl) by exact Q. rewrite S, R. reflexivity.
  - destruct ts as [|t2 ts]; [apply strip_exact_alone; assumption|].
    change (join [c_sp] ((c_quote :: val ++ [c_quote]) :: t2 :: ts))
      with ((c_quote :: val ++ [c_quote]) ++ c_sp :: join [c_sp] (t2 :: ts)).
    rewrite strip_exact_space by assumption. exact R.
Qed.

Lemma words_acc_chars (s cur w : str) (c : char) :
  In w (words_acc cur s) -> In c w -> In c cur \/ In c s.
Proof.
  revert cur. induction s as [|x s IH]; intros cur I K.
  - cbn [words_acc] in I. destruct cur as [|y cur]; [destruct I|].
    destruct I as [<-|[]]. left. exact K.
  - cbn [words_acc] in I. destruct (is_space x).
    + destruct cur as [|y cur].
      * destruct (IH [] I K) as [[]|J]. right. right. exact J.
      * destruct I as [<-|I]; [left; exact K|].
        destruct (IH [] I K) as [[]|J]. right. right. exact J.
    + destruct (IH _ I K) as [J|J]; [|right; right; exact J].
      apply in_app_or in J. destruct J as [J|[<-|[]]];
        [left; exact J|right; left; reflexivity].
Qed.

Lemma clean_word (s w : str) :
  forallb (fun x => negb (special_char x)) s = true ->
  In w (words s) ->
  forallb (fun x => negb (special_char x)) w = true.
Proof.
  intros C I. apply forallb_forall. intros c K.
  destruct (words_acc_chars s [] w c I K) as [[]|J].
  rewrite forallb_forall in C. apply C. exact J.
Qed.

(** Each token of a clean filter is one of these. *)
Lemma clean_tokens (f : ActiveTextFilter) (t : str) :
  clean_filter f = true -> In t (tokens_of f) ->
  (no_quote t = true /\ stripOperators t = []) \/
  (exists val,
     forallb (fun x => negb (special_char x)) val = true /\ val <> [] /\
     t = c_quote :: val ++ [c_quote]).
Proof.
  unfold clean_filter, tokens_of. cbn zeta. intros CF.
  apply andb_true_iff in CF. destruct CF as [C O].
  destruct (inert f) eqn:I; [intros []|].
  unfold inert in I. apply orb_false_iff in I. destruct I as [_ I].
  apply negb_false_iff in I.
  assert (N : trim (value f) <> [])
    by (intros E; rewrite E in I; discriminate).
  destruct (str_eqb (lit "exact") (id f)).
  { intros [<-|[]]. right. exists (trim (value f)). repeat split; assumption. }
  destruct (str_eqb (lit "exclude") (id f)).
  { intros T. apply in_map_iff in T. destruct T as (w & <- & Hw). left.
    pose proof (clean_word _ _ C Hw) as Cw.
    apply words_run in Hw. destruct Hw as [W1 W2]. split.
    - apply (no_quote_token w Cw [c_dash]). reflexivity.
    - apply strip_token_dash; assumption. }
  cbn [orb] in O.
  destruct (str_eqb (lit "hashtag") (id f)).
  { intros [<-|[]]. left. split.
    - apply (no_quote_token _ C [c_hash]). reflexivity.
    - apply strip_token_hash; assumption. }
  destruct (str_eqb (lit "after") (id f)).
  { intros [<-|[]]. left. split.
    - apply (no_quote_token _ C). reflexivity.
    - apply strip_token_after; assumption. }
  destruct (str_eqb (lit "before") (id f)).
  { intros [<-|[]]. left. split.
    - apply (no_quote_token _ C). reflexivity.
    - apply strip_token_before; assumption. }
  destruct (str_eqb (lit "intitle") (id f)).
  { intros [<-|[]]. left. split.
    - apply (no_quote_token _ C). reflexivity.
    - apply strip_token_intitle; assumption. }
  intros [<-|[]]. left. split.
  - apply (no_quote_token _ C). reflexivity.
  - apply strip_token_channel; assumption.
Qed.

Lemma strip_build_clean (fs : list ActiveTextFilter) :
  forallb clean_filter fs = true ->
  stripOperators (buildQueryString fs) = [].
Proof.
  intros CF. rewrite buildQueryString_tokens. change (lit " ") with [c_sp].
  apply strip_join. intros t T. apply in_flat_map in T.
  destruct T as (f & F & T). rewrite forallb_forall in CF.
  exact (clean_tokens f t (CF f F) T).
Qed.

(** The stripper on the query that the search trigger makes. *)
Lemma strip_fullQuery (fs : list ActiveTextFilter) (v : str) :
  no_quote v = true ->
  stripOperators (fullQuery fs v)
  = join [c_sp]
      (filter truthy
         [stripOperators v; stripOperators (buildQueryString fs)]).
Proof.
  intros Q. rewrite fullQuery_join.
  pose proof (strip_quote_free v (lit "#") Q (or_intror (or_intror
               (or_intror (or_intror (or_introl eq_refl)))))) as (_ & Q' & _).
  assert (Idem : stripOperators (stripOperators v) = stripOperators v).
  { apply strip_fixed; [apply strip_parses_empty; exact Q|].
    apply strip_normalized. }
  remember (stripOperators v) as a eqn:A.
  remember (buildQueryString fs) as b eqn:B.
  remember (stripOperators b) as sb eqn:SB.
  destruct a as [|x a]; destruct b as [|y b].
  - subst sb. reflexivity.
  - cbn [filter truthy join]. rewrite <- SB. destruct sb; reflexivity.
  - subst sb. cbn [filter truthy join]. exact Idem.
  - cbn [filter truthy].
    change (join [c_sp] [x :: a; y :: b]) with ((x :: a) ++ c_sp :: y :: b).
    rewrite (strip_app_space c_sp eq_refl) by exact Q'. rewrite Idem, <- SB. reflexivity.
Qed.

(** X18: the stripper works on the two sides of a space apart, when the
    first side has no double quote: the result is the two results joined by
    one space, and the one that is not empty when the other is empty. *)
Theorem stripOperators_app_space :
  forall a b : str,
    no_quote a = true ->
    stripOperators (a ++ c_sp :: b)
    = join [c_sp] (filter truthy [stripOperators a; stripOperators b]).
Proof. exact (strip_app_space c_sp eq_refl). Qed.

Lemma stripOperators_app_space_witness :
  no_quote (lit "cats after:2020-01-01") = true /\
  stripOperators (lit "cats after:2020-01-01" ++ c_sp :: lit "-dogs #pets  toys")
  = join [c_sp]
      (filter truthy [stripOperators (lit "cats after:2020-01-01");
                      stripOperators (lit "-dogs #pets  toys")]).
Proof.
  split; [reflexivity|]. apply stripOperators_app_space. reflexivity.
Defined.

(** X19: the stripper removes the whole query string that buildQueryString
    makes of clean filters, that is of filters whose trimmed values hold no
    colon, number sign or double quote and are one word, the exact phrase
    and the exclusion apart. *)
Theorem built_query_strips_to_nothing :
  forall fs : list ActiveTextFilter,
    forallb clean_filter fs = true ->
    stripOperators (buildQueryString fs) = [].
Proof. exact strip_build_clean. Qed.

Lemma built_query_strips_to_nothing_witness :
  let fs := [ {| id := lit "after"; value := lit "2024-06-15" |};
              {| id := lit "exact"; value := lit " how to -mass delete " |};
              {| id := lit "exclude"; value := lit "spam  ads" |};
              {| id := lit "hashtag"; value := lit "shorts" |} ] in
  forallb clean_filter fs = true /\
  stripOperators (buildQueryString fs) = [].
Proof.
  intros fs. split; [vm_compute; reflexivity|].
  apply built_query_strips_to_nothing. vm_compute. reflexivity.
Defined.

(** X20: a search that is triggered again on the query that the search
    trigger has made gives this query again, when the saved filters are
    clean and the text typed has no double quote: the stripper takes the
    filters off and leaves the stripped text, so that no operator is there
    twice. *)
Theorem resubmitted_query_stable :
  forall (fs : list ActiveTextFilter) (v : str),
    no_quote v = true ->
    forallb clean_filter fs = true ->
    stripOperators (fullQuery fs v) = stripOperators v /\
    fullQuery fs (fullQuery fs v) = fullQuery fs v.
Proof.
  intros fs v Q CF.
  assert (S : stripOperators (fullQuery fs v) = stripOperators v).
  { rewrite strip_fullQuery by exact Q. rewrite strip_build_clean by exact CF.
    cbn [filter truthy]. destruct (stripOperators v); reflexivity. }
  split; [exact S|]. rewrite (fullQuery_join fs (fullQuery fs v)), S.
  symmetry. apply fullQuery_join.
Qed.

Lemma resubmitted_query_stable_witness :
  let fs := [ {| id := lit "after"; value := lit "2024-06-15" |};
              {| id := lit "exact"; value := lit "mass delete" |};
              {| id := lit "exclude"; value := lit "spam ads" |} ] in
  let v := lit "cats  before:2020-01-01 videos" in
  stripOperators (fullQuery fs v) = stripOperators v /\
  fullQuery fs (fullQuery fs v) = fullQuery fs v.
Proof.
  intros fs v. apply resubmitted_query_stable; vm_compute; reflexivity.
Defined.

(** * The file name of the CSV export *)

Lemma exec_unsafe (i : nat) (s : str) :
  exec_at re_unsafe i s
  = match s with
    | c :: t =>
        if not_alnum c then Some (S (length (take_while not_alnum t)), [])
        else None
    | [] => None
    end.
Proof.
  unfold exec_at, re_unsafe. simpl. destruct s as [|c t]; [reflexivity|].
  destruct (not_alnum c); [|reflexivity].
  erewrite more_first; [reflexivity|]. simpl.
  apply f_equal. apply f_equal2; [lia|reflexivity].
Qed.

Lemma unsafe_run (rep : str) (c : char) (s : str) (i : nat) :
  not_alnum c = true ->
  replace_from re_unsafe rep i 0 (c :: s)
  = rep ++ replace_from re_unsafe rep
             (i + S (length (take_while not_alnum s))) 0
             (drop_while not_alnum s).
Proof.
  intros C.
  rewrite (replace_from_hit _ rep i (length (take_while not_alnum s)) []).
  - f_equal. f_equal. cbn [skipn]. apply skipn_take_while.
  - rewrite exec_unsafe, C. reflexivity.
  - cbn [length].
    pose proof (f_equal (@length char) (take_drop_while not_alnum s)) as L.
    rewrite length_app in L. lia.
Qed.

Lemma unsafe_other (rep : str) (c : char) (s : str) (i : nat) :
  not_alnum c = false ->
  replace_from re_unsafe rep i 0 (c :: s)
  = c :: replace_from re_unsafe rep (S i) 0 s.
Proof.
  intros C. apply replace_from_miss. rewrite exec_unsafe, C. reflexivity.
Qed.

Lemma unsafe_nil (rep : str) (i : nat) :
  replace_from re_unsafe rep i 0 [] = [].
Proof. apply replace_from_nil. apply exec_unsafe. Qed.

Lemma filter_alnum_drop (s : str) :
  filter alnum (drop_while not_alnum s) = filter alnum s.
Proof.
  induction s as [|c s IH]; [reflexivity|]. cbn [drop_while].
  unfold not_alnum at 1. destruct (alnum c) eqn:E; cbn [negb];
    [reflexivity|].
  cbn [filter]. rewrite E. exact IH.
Qed.

(** What the replacement gives: a safe name, which starts with a letter or a
    digit where the string does, and holds the letters and digits of the
    string. *)
Lemma unsafe_spec (n : nat) :
  forall (s : str) (i : nat),
    length s <= n ->
    safe_name_ok (replace_from re_unsafe [c_underscore] i 0 s) = true /\
    (match s with c :: _ => alnum c | [] => true end = true ->
     match replace_from re_unsafe [c_underscore] i 0 s with
     | d :: _ => alnum d
     | [] => true
     end = true) /\
    filter alnum (replace_from re_unsafe [c_underscore] i 0 s)
    = filter alnum s.
Proof.
  induction n as [|n IH]; intros s i L.
  - destruct s; [|simpl in L; lia]. rewrite unsafe_nil.
    repeat split; reflexivity.
  - destruct s as [|c s]; [rewrite unsafe_nil; repeat split; reflexivity|].
    destruct (not_alnum c) eqn:C.
    + rewrite (unsafe_run _ c s i C).
      destruct (IH (drop_while not_alnum s)
                  (i + S (length (take_while not_alnum s)))) as (A & B & F).
      { pose proof (length_drop_while not_alnum s). simpl in L. lia. }
      assert (H : match drop_while not_alnum s with
                  | d :: _ => alnum d
                  | [] => true
                  end = true).
      { destruct (drop_while not_alnum s) as [|d t] eqn:D; [reflexivity|].
        apply drop_while_head in D. unfold not_alnum in D.
        apply negb_false_iff in D. exact D. }
      specialize (B H). cbn [app]. split; [|split].
      * cbn [safe_name_ok]. rewrite A, B. reflexivity.
      * intros X. unfold not_alnum in C. rewrite X in C. discriminate.
      * cbn [filter]. change (alnum c_underscore) with false. cbn iota.
        rewrite F, filter_alnum_drop. unfold not_alnum in C.
        apply negb_true_iff in C. rewrite C. reflexivity.
    + rewrite (unsafe_other _ c s i C). unfold not_alnum in C.
      apply negb_false_iff in C.
      destruct (IH s (S i)) as (A & B & F); [simpl in L; lia|].
      split; [|split].
      * cbn [safe_name_ok]. rewrite C, A. reflexivity.
      * intros _. exact C.
      * cbn [filter]. rewrite C, F. reflexivity.
Qed.

Lemma safe_name_firstn (n : nat) :
  forall s : str, safe_name_ok s = true -> safe_name_ok (firstn n s) = true.
Proof.
  induction n as [|n IH]; intros s S; [reflexivity|].
  destruct s as [|c s]; [reflexivity|]. cbn [safe_name_ok] in S.
  apply andb_true_iff in S. destruct S as [S1 S2].
  cbn [firstn safe_name_ok]. rewrite (IH s S2), andb_true_r.
  destruct (alnum c); [reflexivity|]. cbn [orb] in *.
  apply andb_true_iff in S1. destruct S1 as [U D]. rewrite U. cbn [andb].
  destruct n as [|n]; [reflexivity|]. destruct s as [|d s]; [reflexivity|].
  exact D.
Qed.

Lemma filter_firstn (p : char -> bool) (n : nat) :
  forall s : str, exists rest, filter p s = filter p (firstn n s) ++ rest.
Proof.
  induction n as [|n IH]; intros s.
  - exists (filter p s). reflexivity.
  - destruct s as [|c s]; [exists []; reflexivity|].
    destruct (IH s) as (rest & E). exists rest. cbn [firstn filter].
    destruct (p c); [cbn [app]; f_equal; exact E|exact E].
Qed.

Lemma unsafe_id (s : str) (i : nat) :
  forallb alnum s = true -> replace_from re_unsafe [c_underscore] i 0 s = s.
Proof.
  revert i. induction s as [|c s IH]; intros i A; [apply unsafe_nil|].
  cbn [forallb] in A. apply andb_true_iff in A. destruct A as [C A].
  rewrite unsafe_other by (unfold not_alnum; rewrite C; reflexivity).
  f_equal. apply IH. exact A.
Qed.

(** X21: the name that startExport makes of the search query for the CSV
    file is safe in a file name, whatever the query: it has at most 40
    characters, each one a letter or a digit of ASCII or an underscore, no
    two underscores follow each other, and its letters and digits are the
    first letters and digits of the query, in their order.  A query of at
    most 40 letters and digits is its own name. *)
Theorem safeName_safe :
  forall query : str,
    length (safeName query) <= 40 /\
    safe_name_ok (safeName query) = true /\
    (exists rest,
       filter alnum query = filter alnum (safeName query) ++ rest) /\
    (forallb alnum query = true -> safeName query = firstn 40 query).
Proof.
  intros query. unfold safeName, js_replace_all.
  change (lit "_") with [c_underscore].
  destruct (unsafe_spec (length query) query 0 (le_n _)) as (A & _ & F).
  split; [apply firstn_le_length|]. split; [|split].
  - apply safe_name_firstn. exact A.
  - rewrite <- F. apply filter_firstn.
  - intros Q. rewrite unsafe_id by exact Q. reflexivity.
Qed.

(** * The queries that the stripper leaves as they are *)

Lemma replace_length (r : re) (rep : str) (n : nat) :
  length rep <= 1 -> bounded r ->
  forall (s : str) (i : nat),
    length s <= n -> length (replace_from r rep i 0 s) <= length s.
Proof.
  intros R B. induction n as [|n IH]; intros s i L.
  - destruct s; [|simpl in L; lia].
    destruct (exec_at r i []) as [[m caps]|] eqn:E.
    + apply B in E. simpl in E. lia.
    + rewrite replace_from_nil by exact E. lia.
  - destruct (exec_at r i s) as [[m caps]|] eqn:E.
    + pose proof (B _ _ _ _ E) as Bm. destruct m as [|m]; [lia|].
      rewrite (replace_from_hit r rep i m caps s E) by lia.
      rewrite length_app.
      pose proof (IH (skipn (S m) s) (i + S m)) as X.
      rewrite length_skipn in X. specialize (X ltac:(lia)). lia.
    + destruct s as [|c s]; [rewrite replace_from_nil by exact E; lia|].
      rewrite replace_from_miss by exact E. cbn [length].
      pose proof (IH s (S i)) as X. simpl in L. specialize (X ltac:(lia)).
      lia.
Qed.

(** The removal of the matches makes the string shorter as soon as there is
    a match somewhere. *)
Lemma replace_strict (r : re) (n : nat) :
  bounded r ->
  forall (s : str) (i : nat),
    length s <= n ->
    (exists pre t, s = pre ++ t /\ exec_at r (i + length pre) t <> None) ->
    length (replace_from r [] i 0 s) < length s.
Proof.
  intros B. induction n as [|n IH]; intros s i L (pre & t & E & X).
  - destruct s; [|simpl in L; lia]. destruct pre; [|discriminate].
    cbn [app] in E. subst t. cbn [length] in X. rewrite Nat.add_0_r in X.
    destruct (exec_at r i []) as [[m caps]|] eqn:Y; [|contradiction].
    apply B in Y. simpl in Y. lia.
  - destruct (exec_at r i s) as [[m caps]|] eqn:Y.
    + pose proof (B _ _ _ _ Y) as Bm. destruct m as [|m]; [lia|].
      rewrite (replace_from_hit r [] i m caps s Y) by lia. cbn [app].
      pose proof (replace_length r [] (length s) (Nat.le_0_l 1) B
                    (skipn (S m) s) (i + S m)) as Z.
      rewrite length_skipn in Z. specialize (Z ltac:(lia)). lia.
    + destruct pre as [|c pre].
      * cbn [app] in E. subst t. cbn [length] in X.
        rewrite Nat.add_0_r in X. contradiction.
      * subst s. cbn [app] in *. rewrite replace_from_miss by exact Y.
        cbn [length]. apply -> Nat.succ_lt_mono.
        apply IH; [simpl in L; lia|]. exists pre, t. split; [reflexivity|].
        cbn [length] in X. replace (S i + length pre) with (i + S (length pre))
          by lia. exact X.
Qed.

Lemma replace_same_length (r : re) (s : str) :
  bounded r ->
  length (js_replace_all r [] s) = length s ->
  forall pre t, s = pre ++ t -> exec_at r (0 + length pre) t = None.
Proof.
  intros B L pre t E.
  destruct (exec_at r (0 + length pre) t) as [x|] eqn:X; [|reflexivity].
  exfalso.
  assert (S : length (replace_from r [] 0 0 s) < length s).
  { apply (replace_strict r (length s) B); [lia|].
    exists pre, t. split; [exact E|]. rewrite X. discriminate. }
  unfold js_replace_all in L. lia.
Qed.

Lemma matches_no_exec (r : re) (s : str) :
  forall i,
    (forall pre t, s = pre ++ t -> exec_at r (i + length pre) t = None) ->
    matches_from r i 0 s = [].
Proof.
  induction s as [|c s IH]; intros i H.
  - pose proof (H [] [] eq_refl) as X. cbn [length] in X.
    rewrite Nat.add_0_r in X. cbn [matches_from]. rewrite X. reflexivity.
  - rewrite matches_from_miss.
    + apply IH. intros pre t E.
      replace (S i + length pre) with (i + length (c :: pre))
        by (cbn [length]; lia).
      apply H. rewrite E. reflexivity.
    + pose proof (H [] (c :: s) eq_refl) as X. cbn [length] in X.
      rewrite Nat.add_0_r in X. exact X.
Qed.

(** The patterns of the stripper are bounded. *)
Lemma bounded_op (op : str) : bounded (re_op op).
Proof.
  intros i s m caps E. rewrite exec_op in E.
  destruct (op_at op s) as [v|] eqn:O; [|discriminate].
  injection E as <- _. destruct (op_at_split _ _ _ O) as (rest & -> & V & _).
  rewrite !length_app. destruct v; [contradiction|]. cbn [length]. lia.
Qed.

Lemma bounded_exact : bounded re_exact.
Proof.
  intros i s m caps E. rewrite exec_exact in E.
  destruct (quoted_at s) as [v|] eqn:Q; [|discriminate].
  injection E as <- _. destruct (@quoted_at_some s v Q) as (rest & -> & _).
  cbn [length]. rewrite length_app. cbn [length]. lia.
Qed.

Lemma bounded_exclude : bounded re_exclude.
Proof.
  intros i s m caps E. rewrite exec_exclude in E.
  destruct (if Nat.eqb i 0 then op_at [c_dash] s else None) as [w|] eqn:O.
  - injection E as <- _. destruct (Nat.eqb i 0); [|discriminate].
    destruct (dash_split _ _ O) as (rest & -> & _).
    cbn [length]. rewrite length_app. lia.
  - destruct s as [|c s]; [discriminate|].
    destruct (is_space c); [|discriminate].
    destruct (op_at [c_dash] s) as [w|] eqn:P; [|discriminate].
    injection E as <- _. destruct (dash_split _ _ P) as (rest & -> & _).
    cbn [length]. rewrite length_app. lia.
Qed.

Lemma bounded_spaces : bounded re_spaces.
Proof.
  intros i s m caps E. rewrite exec_spaces in E.
  destruct s as [|c t]; [discriminate|].
  destruct (is_space c); [|discriminate]. injection E as <- _.
  cbn [length].
  pose proof (f_equal (@length char) (take_drop_while is_space t)) as L.
  rewrite length_app in L. lia.
Qed.

(** A pass that keeps the length has found nothing to remove. *)
Lemma op_pass_same (op s : str) :
  length (js_replace_all (re_op op) [] s) = length s -> find_op op s = None.
Proof.
  intros L. pose proof (replace_same_length _ s (bounded_op op) L) as X.
  clear L. induction s as [|c s IH].
  - specialize (X [] [] eq_refl). rewrite exec_op in X. cbn [find_op].
    destruct (op_at op []); [discriminate|reflexivity].
  - apply find_op_none_cons. split.
    + specialize (X [] (c :: s) eq_refl). rewrite exec_op in X.
      destruct (op_at op (c :: s)); [discriminate|reflexivity].
    + apply IH. intros pre t E.
      pose proof (X (c :: pre) t) as Y. rewrite E in Y.
      specialize (Y eq_refl). rewrite exec_op in *.
      destruct (op_at op t); [discriminate|reflexivity].
Qed.

Lemma exact_pass_same (s : str) :
  length (js_replace_all re_exact [] s) = length s -> quoted_spans s = [].
Proof.
  intros L. pose proof (replace_same_length _ s bounded_exact L) as X.
  unfold quoted_spans.
  rewrite <- (matches_exact_spans (n := length s) s 0) by lia.
  rewrite matches_no_exec; [reflexivity|]. intros pre t E.
  specialize (X pre t E). rewrite exec_exact in X.
  rewrite exec_exact_capture.
  destruct (quoted_at t); [discriminate|reflexivity].
Qed.

Lemma exclude_pass_same (s : str) :
  length (js_replace_all re_exclude [] s) = length s -> dash_words s = [].
Proof.
  intros L. pose proof (replace_same_length _ s bounded_exclude L) as X.
  rewrite <- matches_exclude_words.
  rewrite matches_no_exec; [reflexivity|]. intros pre t E.
  specialize (X pre t E). rewrite exec_exclude in X.
  rewrite exec_exclude_capture.
  destruct (if Nat.eqb (0 + length pre) 0 then op_at [c_dash] t else None);
    [discriminate|].
  destruct t as [|c t]; [reflexivity|].
  destruct (is_space c); [|reflexivity].
  destruct (op_at [c_dash] t); [discriminate|reflexivity].
Qed.

Lemma pass_length (r : re) (rep s : str) :
  length rep <= 1 -> bounded r ->
  length (js_replace_all r rep s) <= length s.
Proof.
  intros R B. apply (replace_length r rep (length s) R B). lia.
Qed.

Lemma trim_length (s : str) : length (trim s) <= length s.
Proof.
  unfold trim, trimEnd, trimStart. rewrite length_rev.
  pose proof (length_drop_while is_space (rev (drop_while is_space s))) as A.
  rewrite length_rev in A.
  pose proof (length_drop_while is_space s). lia.
Qed.

(** A query that the stripper leaves as it is holds no filter. *)
Lemma strip_same_parse (s : str) :
  stripOperators s = s -> parseQueryFilters s = [].
Proof.
  intros H. apply (f_equal (@length char)) in H. unfold stripOperators in H.
  pose proof (pass_length (re_op (lit "after:")) [] s (Nat.le_0_l 1)
                (bounded_op _)) as L1.
  remember (js_replace_all (re_op (lit "after:")) [] s) as x1 eqn:E1.
  pose proof (pass_length (re_op (lit "before:")) [] x1 (Nat.le_0_l 1)
                (bounded_op _)) as L2.
  remember (js_replace_all (re_op (lit "before:")) [] x1) as x2 eqn:E2.
  pose proof (pass_length (re_op (lit "intitle:")) [] x2 (Nat.le_0_l 1)
                (bounded_op _)) as L3.
  remember (js_replace_all (re_op (lit "intitle:")) [] x2) as x3 eqn:E3.
  pose proof (pass_length re_exact [] x3 (Nat.le_0_l 1) bounded_exact) as L4.
  remember (js_replace_all re_exact [] x3) as x4 eqn:E4.
  pose proof (pass_length (re_op (lit "channel:")) [] x4 (Nat.le_0_l 1)
                (bounded_op _)) as L5.
  remember (js_replace_all (re_op (lit "channel:")) [] x4) as x5 eqn:E5.
  pose proof (pass_length (re_op (lit "#")) [] x5 (Nat.le_0_l 1)
                (bounded_op _)) as L6.
  remember (js_replace_all (re_op (lit "#")) [] x5) as x6 eqn:E6.
  pose proof (pass_length re_exclude [] x6 (Nat.le_0_l 1) bounded_exclude)
    as L7.
  remember (js_replace_all re_exclude [] x6) as x7 eqn:E7.
  pose proof (pass_length re_spaces (lit " ") x7 (le_n 1) bounded_spaces)
    as L8.
  pose proof (trim_length (js_replace_all re_spaces (lit " ") x7)) as L9.
  assert (F1 : find_op (lit "after:") s = None)
    by (apply op_pass_same; rewrite <- E1; lia).
  rewrite (strip_op_id _ _ F1) in E1. subst x1.
  assert (F2 : find_op (lit "before:") s = None)
    by (apply op_pass_same; rewrite <- E2; lia).
  rewrite (strip_op_id _ _ F2) in E2. subst x2.
  assert (F3 : find_op (lit "intitle:") s = None)
    by (apply op_pass_same; rewrite <- E3; lia).
  rewrite (strip_op_id _ _ F3) in E3. subst x3.
  assert (F4 : quoted_spans s = [])
    by (apply exact_pass_same; rewrite <- E4; lia).
  rewrite (strip_exact_id _ F4) in E4. subst x4.
  assert (F5 : find_op (lit "channel:") s = None)
    by (apply op_pass_same; rewrite <- E5; lia).
  rewrite (strip_op_id _ _ F5) in E5. subst x5.
  assert (F6 : find_op (lit "#") s = None)
    by (apply op_pass_same; rewrite <- E6; lia).
  rewrite (strip_op_id _ _ F6) in E6. subst x6.
  assert (F7 : dash_words s = [])
    by (apply exclude_pass_same; rewrite <- E7; lia).
  apply parse_nil_iff. repeat split; assumption.
Qed.

(** X22: the queries that stripOperators leaves as they are, double quotes
    or not, are the queries in normal form in which the parser finds no
    filter. *)
Theorem stripOperators_fixed_iff :
  forall s : str,
    stripOperators s = s
    <-> parseQueryFilters s = [] /\ normalized s = true.
Proof.
  intros s. split.
  - intros H. split; [apply strip_same_parse; exact H|].
    rewrite <- H. apply strip_normalized.
  - intros [P N]. apply strip_fixed; assumption.
Qed.

(** * The scraper of the export *)

Lemma text_of_trimmed (el : option str) : trim (text_of el) = text_of el.
Proof.
  destruct el as [t|]; [|reflexivity]. cbn [text_of].
  destruct (truthy (trim t)); [apply trim_idem|reflexivity].
Qed.

Lemma scrape_step_app (results : list VideoResult) (el : Renderer) :
  scrape_step results el = results ++ scrape_step [] el.
Proof.
  unfold scrape_step. cbv zeta.
  destruct (truthy (text_of (titleEl el)) || truthy (href_of (linkEl el)));
    [reflexivity|].
  rewrite app_nil_r. reflexivity.
Qed.

Lemma scrapeResults_flat (maxCount : nat) (renderers : list Renderer) :
  scrapeResults maxCount renderers
  = flat_map (scrape_step []) (firstn maxCount renderers).
Proof.
  unfold scrapeResults. cbv zeta.
  rewrite (fold_left_appending scrape_step (scrape_step []))
    by (intros; apply scrape_step_app).
  cbn [app]. f_equal.
  destruct (Nat.le_ge_cases (length renderers) maxCount) as [L|L].
  - rewrite Nat.min_l by exact L. rewrite !firstn_all2 by lia. reflexivity.
  - rewrite Nat.min_r by exact L. reflexivity.
Qed.

Lemma scrape_step_length (el : Renderer) : length (scrape_step [] el) <= 1.
Proof.
  unfold scrape_step. cbv zeta.
  destruct (truthy (text_of (titleEl el)) || truthy (href_of (linkEl el)));
    cbn [app length]; lia.
Qed.

Lemma flat_map_length_le {A B : Type} (f : A -> list B) (l : list A) :
  (forall x, length (f x) <= 1) -> length (flat_map f l) <= length l.
Proof.
  intros H. induction l as [|x l IH]; [cbn; lia|].
  cbn [flat_map length]. rewrite length_app. specialize (H x). lia.
Qed.

(** X23: the export never holds more rows than the count asked for, nor
    more than the page shows; no row lacks both its title and its URL, the
    texts of a row are trimmed, and so the CSV text of the rows has at most
    as many lines after its header as the count asked for. *)
Theorem scrapeResults_rows :
  forall (maxCount : nat) (renderers : list Renderer),
    let results := scrapeResults maxCount renderers in
    length results <= maxCount /\
    length results <= length renderers /\
    (forall r, In r results ->
       truthy (title r) || truthy (url r) = true /\
       trim (title r) = title r /\ trim (channel r) = channel r /\
       trim (views r) = views r /\ trim (published r) = published r /\
       trim (duration r) = duration r) /\
    (forall (selectedFields : FieldSet) (query exportDate : str),
       exists content,
         generateCSV selectedFields results query exportDate
         = c_bom :: content /\
         bare_count (ch_eqb c_lf) false content <= maxCount).
Proof.
  intros maxCount renderers results.
  assert (L : length results <= length (firstn maxCount renderers)).
  { subst results. rewrite scrapeResults_flat.
    apply flat_map_length_le. apply scrape_step_length. }
  assert (M : length results <= maxCount).
  { pose proof (firstn_le_length maxCount renderers). lia. }
  split; [exact M|]. split; [|split].
  - rewrite length_firstn in L. lia.
  - intros r I. subst results. rewrite scrapeResults_flat in I.
    apply in_flat_map in I. destruct I as (el & _ & I).
    unfold scrape_step in I. cbv zeta in I.
    destruct (truthy (text_of (titleEl el)) || truthy (href_of (linkEl el)))
      eqn:T; [|destruct I].
    destruct I as [<-|[]]. cbn [title url channel views published duration].
    split; [exact T|]. repeat split; apply text_of_trimmed.
  - intros selectedFields query exportDate.
    destruct (generateCSV_shape selectedFields results query exportDate)
      as (content & E & _ & N & _).
    exists content. split; [exact E|]. rewrite N. exact M.
Qed.

(** * The stripper, word by word *)

Lemma words_acc_word (a cur : str) :
  forallb not_space a = true ->
  words_acc cur a = if truthy (cur ++ a) then [cur ++ a] else [].
Proof.
  revert cur. induction a as [|c a IH]; intros cur A.
  - rewrite app_nil_r. destruct cur; reflexivity.
  - cbn [forallb] in A. apply andb_true_iff in A. destruct A as [C A].
    apply not_space_true in C. cbn [words_acc]. rewrite C.
    rewrite IH by exact A. rewrite <- app_assoc. reflexivity.
Qed.

Lemma words_first (a b : str) (c : char) :
  forallb not_space a = true -> is_space c = true ->
  words (a ++ c :: b) = (if truthy a then [a] else []) ++ words b.
Proof.
  intros A C. unfold words at 1.
  rewrite words_acc_app by (cbn [head_ok]; apply not_space_false; exact C).
  rewrite words_acc_word by exact A. cbn [app]. f_equal.
  unfold words. cbn [words_acc]. rewrite C. reflexivity.
Qed.

Lemma filter_truthy_nonempty (l : list str) :
  forall x, In x (filter truthy l) -> x <> [].
Proof.
  intros x I. apply filter_In in I. destruct I as [_ T].
  destruct x; [discriminate|discriminate].
Qed.

Lemma join_filter_cons (sep x : str) (l : list str) :
  join sep (filter truthy [x; join sep (filter truthy l)])
  = join sep (filter truthy (x :: l)).
Proof.
  pose proof (join_nil_iff sep (filter truthy l) (filter_truthy_nonempty l))
    as J.
  cbn [filter]. destruct (filter truthy l) as [|y l'] eqn:F.
  - cbn [join truthy]. destruct (truthy x); reflexivity.
  - destruct (join sep (y :: l')) as [|j js] eqn:E.
    + destruct J as [J _]. specialize (J eq_refl). discriminate.
    + cbn [truthy]. rewrite <- E. destruct (truthy x); [|reflexivity].
      destruct l'; reflexivity.
Qed.

Lemma no_quote_parts (a b : str) (c : char) :
  no_quote (a ++ c :: b) = true -> no_quote a = true /\ no_quote b = true.
Proof.
  unfold no_quote. rewrite forallb_app. cbn [forallb]. intros H.
  apply andb_true_iff in H. destruct H as [A H].
  apply andb_true_iff in H. destruct H as [_ B]. split; assumption.
Qed.

Lemma strip_by_words (n : nat) :
  forall s : str,
    length s <= n -> no_quote s = true ->
    stripOperators s
    = join [c_sp] (filter truthy (map stripOperators (words s))).
Proof.
  induction n as [|n IH]; intros s L Q.
  - destruct s; [reflexivity|simpl in L; lia].
  - pose proof (take_drop_while not_space s) as E.
    pose proof (take_while_all not_space s) as A.
    destruct (drop_while not_space s) as [|c b] eqn:D.
    + rewrite app_nil_r in E. rewrite E in A. unfold words.
      rewrite words_acc_word by exact A. cbn [app].
      destruct s as [|x s]; [reflexivity|]. cbn [truthy map filter].
      destruct (stripOperators (x :: s)); reflexivity.
    + pose proof (drop_while_head _ _ D) as C. apply not_space_false in C.
      rewrite <- E in Q. destruct (no_quote_parts _ _ _ Q) as [Qa Qb].
      assert (Lb : length b <= n).
      { apply (f_equal (@length char)) in E. rewrite length_app in E.
        cbn [length] in E. lia. }
      rewrite <- E.
      rewrite (strip_app_space c C) by exact Qa.
      rewrite words_first by assumption.
      rewrite (IH b Lb Qb).
      destruct (take_while not_space s) as [|x a] eqn:T.
      * cbn [truthy app]. change (stripOperators []) with (@nil char).
        rewrite join_filter_cons. reflexivity.
      * cbn [truthy app map]. apply join_filter_cons.
Qed.

(** X24: on a query without double quote the stripper works word by word:
    its result is what it leaves of each word of the query, the words that
    it removes altogether left out and the others joined by single
    spaces. *)
Theorem stripOperators_by_words :
  forall s : str,
    no_quote s = true ->
    stripOperators s
    = join [c_sp] (filter truthy (map stripOperators (words s))).
Proof. intros s Q. apply (strip_by_words (length s)); [lia|exact Q]. Qed.

Lemma stripOperators_by_words_witness :
  let s := lit "  cats xafter:2020  -dogs" ++ 9%N :: lit "#pets toys " in
  no_quote s = true /\
  stripOperators s
  = join [c_sp] (filter truthy (map stripOperators (words s))).
Proof.
  intros s. split; [reflexivity|]. apply stripOperators_by_words. reflexivity.
Defined.
